(** * smalloc: a block/chunk allocator for machines without an MMU

    A shallow embedding of [memcpy.c] and [smalloc.c] of libsmallc and the
    properties of the allocator that its specification states.

    The C structures live in a typed store: one finite map from addresses
    to [BLOCK] records and one from addresses to [FREED] records (a chunk
    header followed by the two free-list links that reuse the payload).
    Pointers are addresses, [0] is [NULL], every [unsigned long] or
    pointer computation is written with its wrap-around, and every loop
    over a linked list runs on fuel taken from the size of the store, so
    that a result [None] stands for a walk that does not end.

    The properties of heaps are stated over [reachable]: the states that
    sequences of [__smalloc_init], [smalloc] and [sfree] calls produce
    when [sfree] is given pointers that [smalloc] returned and no request
    makes the address arithmetic of [__new_block] leave the address
    space.  On those states the store has a shape ([Inv]): the block
    list, the chunks of each block and each free-list, laid out without
    overlap.

    The typed store keeps every record in a cell of its own.  It agrees
    with the memory of the source as long as the records that are
    written do not overlap, which is the case on the reachable states;
    a theorem stated for other states is about a function that writes
    no record, or about records that are written afresh and apart.  The
    pointer steps of [memcpy] wrap around as addresses do on the target;
    the theorems on [memcpy] are about ranges inside the address space. *)

From Stdlib Require Import ZArith Lia List Bool.
From stdpp Require Import base decidable option list functions gmap.

Local Open Scope Z_scope.

(** ** The target: widths and structure sizes

    [smalloc.c] never fixes the width of [unsigned long] or the sizes of its
    three structures; they come from the compiler.  They are collected here.
    The source mentions a "24-byte header" for [struct BLOCK], which is the
    ILP32 instance below. *)

Class ABI := {
  word_bits : Z;       (* bits of [unsigned long] and of a data pointer *)
  ushort_bits : Z;     (* bits of [unsigned short] *)
  sizeof_CHUNK : Z;    (* sizeof(struct CHUNK) *)
  sizeof_FREED : Z;    (* sizeof(struct FREED) *)
  sizeof_BLOCK : Z;    (* sizeof(struct BLOCK), the macro BLOCK_HEADER_SZ *)
  word_bits_pos : 0 < word_bits;
  ushort_bits_pos : 0 < ushort_bits;
  sizeof_CHUNK_pos : 0 < sizeof_CHUNK;
  sizeof_FREED_links : sizeof_CHUNK < sizeof_FREED;
  sizeof_BLOCK_pos : 0 < sizeof_BLOCK;
  sizeof_FREED_word : sizeof_FREED < 2 ^ word_bits;
  sizeof_BLOCK_word : sizeof_BLOCK < 2 ^ word_bits;
  builtin_bounds_word : 0x07ffff < 2 ^ word_bits
}.

(** 32-bit [int], [long] and pointers: 12-byte chunk header, two more
    pointers in a freed record, six 4-byte fields in a block. *)
#[export, refine] Instance ILP32 : ABI := {
  word_bits := 32; ushort_bits := 16;
  sizeof_CHUNK := 12; sizeof_FREED := 20; sizeof_BLOCK := 24
}.
Proof. all: reflexivity. Defined.

(** 64-bit [long] and pointers (the host the test program runs on);
    not registered as an instance, so that examples resolve to [ILP32]. *)
Definition LP64 : ABI.
Proof.
  refine {| word_bits := 64; ushort_bits := 16;
            sizeof_CHUNK := 24; sizeof_FREED := 40; sizeof_BLOCK := 48 |};
    reflexivity.
Defined.

Section Machine.
Context {abi : ABI}.

(** Reduction of an integer to an [unsigned long] / pointer value. *)
Definition wrap (x : Z) : Z := x mod 2 ^ word_bits.

(** Reduction to an [unsigned short]. *)
Definition wrap_ushort (x : Z) : Z := x mod 2 ^ ushort_bits.

(** A value of type [unsigned long] (or a pointer). *)
Definition is_word (x : Z) : Prop := 0 <= x < 2 ^ word_bits.

Definition NULL : Z := 0.
Definition ALLOCD : Z := 1.
Definition BLOCK_HEADER_SZ : Z := sizeof_BLOCK.

(** ** memcpy.c *)

(** Byte-addressed memory for [memcpy]. *)
Definition memory : Type := Z -> Z.

(** [while(_d && _s && count) { *(_d++) = *(_s++); --count; }]
    [None] when the fuel is used up before the condition fails. *)
Fixpoint memcpy_loop (fuel : nat) (_d _s count : Z) (m : memory) : option memory :=
  if (negb (_d =? NULL)) && (negb (_s =? NULL)) && (negb (count =? 0)) then
    match fuel with
    | O => None
    | S fuel' =>
        memcpy_loop fuel' (wrap (_d + 1)) (wrap (_s + 1)) (wrap (count - 1))
                    (<[_d := m _s]> m)
    end
  else Some m.

(** [void* memcpy(void* dst, const void* src, unsigned long count)]:
    the returned pointer and the memory afterwards.  Each iteration
    decrements [count], so [count] iterations are all the loop can make. *)
Definition memcpy (dst src count : Z) (m : memory) : option (Z * memory) :=
  match memcpy_loop (Z.to_nat count) dst src count m with
  | Some m' => Some (dst, m')
  | None => None
  end.

(** The [k]-step ascending copy: bytes [0 .. k-1] moved one at a time,
    lowest address first, each read taken from the memory as it is then. *)
Fixpoint copy_ascending (k : nat) (dst src : Z) (m : memory) : memory :=
  match k with
  | O => m
  | S k' => copy_ascending k' (dst + 1) (src + 1) (<[dst := m src]> m)
  end.

(** ** smalloc.c: the data *)

Record CHUNK := mkCHUNK {
  chunk_block : Z;     (* void *block *)
  chunk_size : Z;      (* total size, inclusive of the CHUNK header *)
  chunk_flags : Z      (* unsigned flags *)
}.

Record FREED := mkFREED {
  freed_header : CHUNK;
  freed_next : Z;
  freed_prev : Z
}.

Record BLOCK := mkBLOCK {
  block_prev : Z;      (* previous block, towards __first_block *)
  block_next : Z;      (* next block, towards __last_block *)
  block_size : Z;      (* size of the entire block: header and chunks *)
  block_remaining : Z; (* bytes that can still be carved *)
  block_top : Z;       (* where the next chunk is carved *)
  block_free : Z       (* head of the list of freed chunks *)
}.

(** The file-scope variables of smalloc.c and the memory they point into. *)
Record Heap := mkHeap {
  HEAP_TOP : Z;
  HEAP_BOTTOM : Z;
  PAGESIZE : Z;
  __first_block : Z;
  __last_block : Z;
  blocks : gmap Z BLOCK;
  chunks : gmap Z FREED
}.

(** Memory that was never written reads as zero. *)
Definition zero_BLOCK : BLOCK := mkBLOCK 0 0 0 0 0 0.
Definition zero_FREED : FREED := mkFREED (mkCHUNK 0 0 0) 0 0.

(** [*b] for [struct BLOCK *b] and [*c] for [struct FREED *c]. *)
Definition blk (s : Heap) (b : Z) : BLOCK := default zero_BLOCK (blocks s !! b).
Definition frd (s : Heap) (c : Z) : FREED := default zero_FREED (chunks s !! c).
Definition hdr (s : Heap) (c : Z) : CHUNK := freed_header (frd s c).

Definition store_BLOCK (b : Z) (v : BLOCK) (s : Heap) : Heap :=
  mkHeap (HEAP_TOP s) (HEAP_BOTTOM s) (PAGESIZE s) (__first_block s)
         (__last_block s) (<[b := v]> (blocks s)) (chunks s).

Definition store_FREED (c : Z) (v : FREED) (s : Heap) : Heap :=
  mkHeap (HEAP_TOP s) (HEAP_BOTTOM s) (PAGESIZE s) (__first_block s)
         (__last_block s) (blocks s) (<[c := v]> (chunks s)).

Definition set_first_last (first last : Z) (s : Heap) : Heap :=
  mkHeap (HEAP_TOP s) (HEAP_BOTTOM s) (PAGESIZE s) first last
         (blocks s) (chunks s).

(** Assignments to one field through a pointer. *)
Definition set_block_next (b v : Z) (s : Heap) : Heap :=
  let r := blk s b in
  store_BLOCK b (mkBLOCK (block_prev r) v (block_size r) (block_remaining r)
                         (block_top r) (block_free r)) s.

Definition set_block_remaining (b v : Z) (s : Heap) : Heap :=
  let r := blk s b in
  store_BLOCK b (mkBLOCK (block_prev r) (block_next r) (block_size r) v
                         (block_top r) (block_free r)) s.

Definition set_block_top (b v : Z) (s : Heap) : Heap :=
  let r := blk s b in
  store_BLOCK b (mkBLOCK (block_prev r) (block_next r) (block_size r)
                         (block_remaining r) v (block_free r)) s.

Definition set_block_free (b v : Z) (s : Heap) : Heap :=
  let r := blk s b in
  store_BLOCK b (mkBLOCK (block_prev r) (block_next r) (block_size r)
                         (block_remaining r) (block_top r) v) s.

Definition set_freed_next (c v : Z) (s : Heap) : Heap :=
  let r := frd s c in
  store_FREED c (mkFREED (freed_header r) v (freed_prev r)) s.

Definition set_freed_prev (c v : Z) (s : Heap) : Heap :=
  let r := frd s c in
  store_FREED c (mkFREED (freed_header r) (freed_next r) v) s.

Definition set_chunk_header (c : Z) (h : CHUNK) (s : Heap) : Heap :=
  let r := frd s c in
  store_FREED c (mkFREED h (freed_next r) (freed_prev r)) s.

Definition set_chunk_flags (c v : Z) (s : Heap) : Heap :=
  let h := hdr s c in
  set_chunk_header c (mkCHUNK (chunk_block h) (chunk_size h) v) s.

(** The state before any call: the initialisers of the file-scope
    variables, over whatever the memory holds. *)
Definition boot (bm : gmap Z BLOCK) (cm : gmap Z FREED) : Heap :=
  mkHeap 0x07ffff 0x050000 8192 NULL NULL bm cm.

(** ** smalloc.c: the operations *)

(** [void __smalloc_init(SIZE_T top, SIZE_T size, SIZE_T bottom)] *)
Definition __smalloc_init (top size bottom : Z) (s : Heap) : Heap :=
  if (bottom >? top) || (wrap (top - bottom) <? size) then s
  else mkHeap top bottom size NULL NULL (blocks s) (chunks s).

(** The three assignments that take [freed] out of [block]'s list
    (the body of the match in [__use_freed_chunk]); each one reads the
    memory the one before it left. *)
Definition dequeue (block freed : Z) (s : Heap) : Heap :=
  let s1 := if freed =? block_free (blk s block)
            then set_block_free block (freed_next (frd s freed)) s else s in
  let s2 := if negb (freed_next (frd s1 freed) =? NULL)
            then set_freed_prev (freed_next (frd s1 freed))
                                (freed_prev (frd s1 freed)) s1 else s1 in
  let s3 := if negb (freed_prev (frd s2 freed) =? NULL)
            then set_freed_next (freed_prev (frd s2 freed))
                                (freed_next (frd s2 freed)) s2 else s2 in
  s3.

(** The inner loop of [__use_freed_chunk]: [while(freed)] over the list of
    [block].  Returns the record found, dequeued, or [NULL] when the list
    ends; [None] when the fuel runs out. *)
Fixpoint scan_free_list (fuel : nat) (minSize maxSize block freed : Z)
    (s : Heap) : option (Z * Heap) :=
  match fuel with
  | O => None
  | S fuel' =>
      if freed =? NULL then Some (NULL, s)
      else
        let sz := chunk_size (hdr s freed) in
        if (sz >=? minSize) && (sz <=? maxSize)
        then Some (freed, dequeue block freed s)
        else scan_free_list fuel' minSize maxSize block
                            (freed_next (frd s freed)) s
  end.

(** Fuel that a walk over an acyclic list in the store cannot use up: a
    walk visits distinct addresses, all but the last of them written. *)
Definition block_fuel (s : Heap) : nat := S (S (size (blocks s))).
Definition chunk_fuel (s : Heap) : nat := S (S (size (chunks s))).

(** The outer loop of [__use_freed_chunk]: [while(block)]. *)
Fixpoint scan_blocks (fuel : nat) (minSize maxSize block : Z) (s : Heap)
    : option (Z * Heap) :=
  match fuel with
  | O => None
  | S fuel' =>
      if block =? NULL then Some (NULL, s)
      else
        match scan_free_list (chunk_fuel s) minSize maxSize block
                             (block_free (blk s block)) s with
        | None => None
        | Some (freed, s') =>
            if freed =? NULL
            then scan_blocks fuel' minSize maxSize (block_next (blk s block)) s
            else Some (freed, s')
        end
  end.

(** [struct FREED* __use_freed_chunk(SIZE_T minSize, SIZE_T maxSize)] *)
Definition __use_freed_chunk (minSize maxSize : Z) (s : Heap)
    : option (Z * Heap) :=
  scan_blocks (block_fuel s) minSize maxSize (__first_block s) s.

(** [struct BLOCK* __block_with_free_space(SIZE_T size)] *)
Fixpoint space_loop (fuel : nat) (size block : Z) (s : Heap) : option Z :=
  match fuel with
  | O => None
  | S fuel' =>
      if block =? NULL then Some NULL
      else if block_remaining (blk s block) >=? size then Some block
      else space_loop fuel' size (block_next (blk s block)) s
  end.

Definition __block_with_free_space (size : Z) (s : Heap) : option Z :=
  space_loop (block_fuel s) size (__first_block s) s.

(** The size [__new_block] picks and the address it subtracts it from.
    [__last_block - 1] is arithmetic on a [struct BLOCK*]: one whole
    structure below the last block. *)
Definition new_block_size (requestedSize : Z) (s : Heap) : Z :=
  let size := wrap (requestedSize + BLOCK_HEADER_SZ) in
  if size <? PAGESIZE s then PAGESIZE s else size.

Definition new_block_start (s : Heap) : Z :=
  if __last_block s =? NULL then HEAP_TOP s
  else wrap (__last_block s - 1 * sizeof_BLOCK).

(** [struct BLOCK* __new_block(SIZE_T requestedSize)] *)
Definition __new_block (requestedSize : Z) (s : Heap) : Z * Heap :=
  let size := new_block_size requestedSize s in
  let start := new_block_start s in
  if wrap (start - size) <? HEAP_BOTTOM s then (NULL, s)
  else
    let block := wrap (start - size) in
    let s1 := store_BLOCK block
                (mkBLOCK (__last_block s) NULL size
                         (wrap (size - BLOCK_HEADER_SZ))
                         (wrap (block + BLOCK_HEADER_SZ)) NULL) s in
    if __first_block s1 =? NULL
    then (block, set_first_last block block s1)
    else (block, set_first_last (__first_block s1) block
                   (set_block_next (__last_block s1) block s1)).

(** The request size [smalloc] works with. *)
Definition alloc_size (n : Z) : Z :=
  let allocSize := wrap (n + sizeof_CHUNK) in
  if allocSize <? sizeof_FREED then sizeof_FREED else allocSize.

(** The tail of [smalloc]: carve [allocSize] bytes at [block->top]. *)
Definition carve (block allocSize : Z) (s : Heap) : Z * Heap :=
  let chunk := block_top (blk s block) in
  let s1 := set_block_top block (wrap (block_top (blk s block) + allocSize)) s in
  let s2 := set_block_remaining block
              (wrap (block_remaining (blk s1 block) - allocSize)) s1 in
  let s3 := set_chunk_header chunk (mkCHUNK block allocSize ALLOCD) s2 in
  (wrap (chunk + sizeof_CHUNK), s3).

(** [void* smalloc(SIZE_T n)]: the pointer returned and the state after. *)
Definition smalloc (n : Z) (s : Heap) : option (Z * Heap) :=
  let allocSize := alloc_size n in
  let doubleSize := wrap (Z.shiftl allocSize 1) in
  match __use_freed_chunk allocSize doubleSize s with
  | None => None
  | Some (freed, s1) =>
      if negb (freed =? NULL) then
        let chunk := freed in
        let s2 := set_chunk_flags chunk
                    (Z.lor (chunk_flags (hdr s1 chunk)) ALLOCD) s1 in
        Some (wrap (chunk + sizeof_CHUNK), s2)
      else
        match __block_with_free_space allocSize s1 with
        | None => None
        | Some block =>
            let '(block, s2) :=
              if block =? NULL then __new_block allocSize s1 else (block, s1) in
            if block =? NULL then Some (NULL, s2)
            else Some (carve block allocSize s2)
        end
  end.

(** [void sfree(void *ptr)] *)
Definition sfree (ptr : Z) (s : Heap) : Heap :=
  let chunk := wrap (ptr - sizeof_CHUNK) in
  if Z.land (chunk_flags (hdr s chunk)) ALLOCD =? 0 then s
  else
    let block := chunk_block (hdr s chunk) in
    let freed := chunk in
    let s1 := set_freed_prev freed NULL s in
    let s2 := set_freed_next freed (block_free (blk s1 block)) s1 in
    let s3 := if block_free (blk s2 block) =? NULL
              then set_block_free block freed s2
              else set_block_free block freed
                     (set_freed_prev (block_free (blk s2 block)) freed s2) in
    set_chunk_flags freed
      (Z.land (chunk_flags (hdr s3 freed)) (Z.lnot ALLOCD)) s3.

(** [SIZE_T __smalloc_used(unsigned short *numBlocks, unsigned long *inBlocks)]:
    the value returned, [*numBlocks] and [*inBlocks]. *)
Fixpoint used_loop (fuel : nat) (block size numBlocks inBlocks : Z) (s : Heap)
    : option (Z * Z * Z) :=
  match fuel with
  | O => None
  | S fuel' =>
      if block =? NULL then Some (size, numBlocks, inBlocks)
      else
        let b := blk s block in
        used_loop fuel' (block_next b)
          (wrap (size + block_size b))
          (wrap_ushort (numBlocks + 1))
          (wrap (inBlocks + wrap (block_size b - block_remaining b))) s
  end.

Definition __smalloc_used (s : Heap) : option (Z * Z * Z) :=
  used_loop (block_fuel s) (__first_block s) 0 0 0 s.

(** The inner loop of [__smalloc_avail]: add up one free-list. *)
Fixpoint free_sum_loop (fuel : nat) (freed inFree : Z) (s : Heap) : option Z :=
  match fuel with
  | O => None
  | S fuel' =>
      if freed =? NULL then Some inFree
      else free_sum_loop fuel' (freed_next (frd s freed))
             (wrap (inFree + chunk_size (hdr s freed))) s
  end.

Fixpoint avail_loop (fuel : nat) (block inBlocks inFree : Z) (s : Heap)
    : option (Z * Z) :=
  match fuel with
  | O => None
  | S fuel' =>
      if block =? NULL then Some (inBlocks, inFree)
      else
        let b := blk s block in
        match free_sum_loop (chunk_fuel s) (block_free b) inFree s with
        | None => None
        | Some inFree' =>
            avail_loop fuel' (block_next b)
              (wrap (inBlocks + block_remaining b)) inFree' s
        end
  end.

(** [SIZE_T __smalloc_avail(SIZE_T *inBlocks, SIZE_T *inFree)]:
    the value returned, [*inBlocks] and [*inFree]. *)
Definition __smalloc_avail (s : Heap) : option (Z * Z * Z) :=
  let unallocdHeap :=
    if negb (__last_block s =? NULL)
    then wrap (__last_block s - HEAP_BOTTOM s)
    else wrap (HEAP_TOP s - HEAP_BOTTOM s) in
  match avail_loop (block_fuel s) (__first_block s) 0 0 s with
  | None => None
  | Some (inBlocks, inFree) => Some (unallocdHeap, inBlocks, inFree)
  end.

End Machine.

(** ** The shape of a heap

    What the pointers in the store describe: the list of blocks reached
    from [__first_block], for each block the chunks carved from it and the
    chunks on its free-list. *)

Section Shape.
Context {abi : ABI}.

(** [l] is the list of blocks visited from [p] along [next] up to [NULL]. *)
Fixpoint block_chain (s : Heap) (p : Z) (l : list Z) : Prop :=
  match l with
  | [] => p = NULL
  | b :: l' => p = b /\ b <> NULL /\ block_chain s (block_next (blk s b)) l'
  end.

(** [l] is the doubly-linked list of freed records visited from [p] along
    [next] up to [NULL]; [pv] is what the [prev] link of its head holds. *)
Fixpoint free_chain (s : Heap) (pv p : Z) (l : list Z) : Prop :=
  match l with
  | [] => p = NULL
  | c :: l' =>
      p = c /\ c <> NULL /\ freed_prev (frd s c) = pv /\
      free_chain s c (freed_next (frd s c)) l'
  end.

(** [l] is the list of chunks of block [b] met from address [p] up to
    [top], each chunk starting where the one before it ends (the walk that
    the test program's [print_heap] makes). *)
Fixpoint carved (s : Heap) (b p : Z) (l : list Z) (top : Z) : Prop :=
  match l with
  | [] => p = top
  | c :: l' =>
      p = c /\ chunk_block (hdr s c) = b /\
      sizeof_FREED <= chunk_size (hdr s c) /\
      carved s b (c + chunk_size (hdr s c)) l' top
  end.

(** The blocks of [l], in creation order, lie one below the other under
    [ub], each leaving room for a block header above the next. *)
Fixpoint stacked (s : Heap) (ub : Z) (l : list Z) : Prop :=
  match l with
  | [] => True
  | b :: l' =>
      0 < b /\ sizeof_BLOCK <= block_size (blk s b) /\
      b + block_size (blk s b) <= ub /\
      stacked s (b - sizeof_BLOCK) l'
  end.

Record Shape := mkShape {
  BL : list Z;         (* the blocks, in creation order *)
  CL : Z -> list Z;    (* for a block, its chunks in address order *)
  FL : Z -> list Z     (* for a block, its free-list from the head *)
}.

(** Block [b] with chunks [cl] and free-list [fl]. *)
Record block_ok (s : Heap) (b : Z) (cl fl : list Z) : Prop := {
  bo_present : is_Some (blocks s !! b);
  bo_page : PAGESIZE s <= block_size (blk s b);
  bo_remaining : 0 <= block_remaining (blk s b);
  bo_top : block_top (blk s b)
           = b + block_size (blk s b) - block_remaining (blk s b);
  bo_carved : carved s b (b + sizeof_BLOCK) cl (block_top (blk s b));
  bo_chunks_present : forall c, c ∈ cl -> is_Some (chunks s !! c);
  bo_free : free_chain s NULL (block_free (blk s b)) fl;
  bo_free_nodup : NoDup fl;
  bo_free_carved : forall c, c ∈ fl -> c ∈ cl;
  bo_flags : forall c, c ∈ cl ->
             (Z.land (chunk_flags (hdr s c)) ALLOCD = 0 <-> c ∈ fl)
}.

(** The heap [s], with [P] the pointers [smalloc] has returned since the
    block list was last emptied, has shape [sh]. *)
Record Inv (s : Heap) (P : list Z) (sh : Shape) : Prop := {
  inv_top : HEAP_TOP s < 2 ^ word_bits;
  inv_nodup : NoDup (BL sh);
  inv_chain : block_chain s (__first_block s) (BL sh);
  inv_last : __last_block s = List.last (BL sh) NULL;
  inv_stacked : stacked s (HEAP_TOP s) (BL sh);
  inv_blocks : forall b, b ∈ BL sh -> block_ok s b (CL sh b) (FL sh b);
  inv_returned : forall p, p ∈ P ->
                 exists b c, b ∈ BL sh /\ c ∈ CL sh b /\ p = c + sizeof_CHUNK
}.

(** Changing one entry of a shape. *)
Definition with_CL (b : Z) (l : list Z) (sh : Shape) : Shape :=
  mkShape (BL sh) (<[b := l]> (CL sh)) (FL sh).

Definition with_FL (b : Z) (l : list Z) (sh : Shape) : Shape :=
  mkShape (BL sh) (CL sh) (<[b := l]> (FL sh)).

(** A new block at the tail, with no chunk yet. *)
Definition with_block (b : Z) (sh : Shape) : Shape :=
  mkShape (BL sh ++ [b]) (<[b := []]> (CL sh)) (<[b := []]> (FL sh)).

(** [l] without its element [c]. *)
Definition without (c : Z) (l : list Z) : list Z :=
  filter (fun x => x <> c) l.

(** Sums over the shape. *)
Definition sum_chunk_sizes (s : Heap) (l : list Z) : Z :=
  foldr (fun c acc => chunk_size (hdr s c) + acc) 0 l.

Definition sum_remaining (s : Heap) (l : list Z) : Z :=
  foldr (fun b acc => block_remaining (blk s b) + acc) 0 l.

Definition sum_block_sizes (s : Heap) (l : list Z) : Z :=
  foldr (fun b acc => block_size (blk s b) + acc) 0 l.

(** The reuse window of [__use_freed_chunk]. *)
Definition in_window (s : Heap) (minSize maxSize c : Z) : bool :=
  (chunk_size (hdr s c) >=? minSize) && (chunk_size (hdr s c) <=? maxSize).

(** The window the specification gives for reuse: [R <= S <= 2R]. *)
Definition reuse_window (s : Heap) (R c : Z) : bool :=
  (R <=? chunk_size (hdr s c)) && (chunk_size (hdr s c) <=? 2 * R).

(** The bytes carved into chunks, over all blocks. *)
Definition carved_bytes (s : Heap) (sh : Shape) : Z :=
  foldr (fun b acc => sum_chunk_sizes s (CL sh b) + acc) 0 (BL sh).

(** The free-list entries in the order [__use_freed_chunk] meets them. *)
Definition free_entries (sh : Shape) : list Z :=
  concat (map (FL sh) (BL sh)).

(** ** Call sequences *)

(** [smalloc n] found nothing to recycle and no block with room. *)
Definition growth_attempted (n : Z) (s : Heap) : Prop :=
  __use_freed_chunk (alloc_size n) (wrap (Z.shiftl (alloc_size n) 1)) s
    = Some (NULL, s) /\
  __block_with_free_space (alloc_size n) s = Some NULL.

(** The arithmetic of [__new_block] stays inside the address space: the
    sum [requestedSize + BLOCK_HEADER_SZ] does not overflow and neither
    [__last_block - 1] nor [start - size] leaves the addresses above
    [NULL]. *)
Definition growth_in_range (n : Z) (s : Heap) : Prop :=
  Z.max (PAGESIZE s) (alloc_size n + sizeof_BLOCK)
  < (if __last_block s =? NULL then HEAP_TOP s
     else __last_block s - sizeof_BLOCK).

(** The address the specification gives for a new block: the lowest
    block's address, or the top boundary when there is no block, minus
    the new block's size (the code's is [new_block_start s - size]). *)
Definition spec_new_block_address (requestedSize : Z) (s : Heap) : Z :=
  (if __last_block s =? NULL then HEAP_TOP s else __last_block s)
  - new_block_size requestedSize s.

(** [__smalloc_init] leaves on its guard. *)
Definition init_rejects (top size bottom : Z) : bool :=
  (bottom >? top) || (wrap (top - bottom) <? size).

(** [reachable s P]: [s] is the state after some sequence of calls of
    [__smalloc_init], [smalloc] and [sfree], and [P] lists the non-null
    pointers [smalloc] returned since the block list was last emptied.
    [sfree] is only called on such pointers (any number of times). *)
Inductive reachable : Heap -> list Z -> Prop :=
| reach_boot bm cm : reachable (boot bm cm) []
| reach_init s P top size bottom :
    reachable s P ->
    is_word top -> is_word size -> is_word bottom ->
    reachable (__smalloc_init top size bottom s)
              (if init_rejects top size bottom then P else [])
| reach_smalloc s P n p s' :
    reachable s P ->
    is_word n ->
    (growth_attempted n s -> growth_in_range n s) ->
    smalloc n s = Some (p, s') ->
    reachable s' (if p =? NULL then P else p :: P)
| reach_sfree s P p :
    reachable s P ->
    p ∈ P ->
    reachable (sfree p s) P.

End Shape.

(** ** Example heaps (ILP32)

    The scenario of the specification: a heap from [0x6000] to [0x8000]
    in blocks of [0x1000], one allocation of 100 bytes, then its release. *)

Definition after (r : option (Z * Heap)) (s : Heap) : Heap :=
  match r with Some (_, s') => s' | None => s end.

Definition ex_boot : Heap := boot ∅ ∅.
Definition ex_init : Heap := __smalloc_init 0x8000 0x1000 0x6000 ex_boot.
Definition ex_alloc : Heap := after (smalloc 100 ex_init) ex_init.
Definition ex_freed : Heap := sfree 28708 ex_alloc.

(** The block [__new_block] makes for the first chunk. *)
Definition ex_grown : Heap := snd (__new_block 112 ex_init).

(** A heap whose bottom boundary is where the first block would start. *)
Definition ex_tight : Heap := __smalloc_init 0x8000 0x1000 0x7000 ex_boot.

(** A heap with room for a second block, after a first allocation. *)
Definition ex_roomy : Heap :=
  let s := __smalloc_init 0x8000 0x1000 0x4000 ex_boot in
  after (smalloc 100 s) s.

(** A memory for [memcpy]: every byte holds its address modulo 256. *)
Definition ex_memory : memory := fun a => a mod 256.


(** ** The diagnostics

    [__smalloc_first_block], and the two printing routines of the test
    program, [debug_out] and [print_heap], with what they print as their
    result. *)

Section Diagnostics.
Context {abi : ABI}.

(** [void *__smalloc_first_block(void)] *)
Definition __smalloc_first_block (s : Heap) : Z := __first_block s.

(** The six numbers of a line of [debug_out]:
    [stats=[total blocks used]  free=[unallocd inBlocks inFree]]. *)
Record debug_line := mkDebug {
  out_total : Z;
  out_blocks : Z;
  out_used : Z;
  out_unallocd : Z;
  out_inBlocks : Z;
  out_inFree : Z
}.

(** [void debug_out(void)] *)
Definition debug_out (s : Heap) : option debug_line :=
  match __smalloc_used s with
  | None => None
  | Some (total, blocks, used) =>
      match __smalloc_avail s with
      | None => None
      | Some (unallocd, inBlocks, inFree) =>
          Some (mkDebug total blocks used unallocd inBlocks inFree)
      end
  end.

(** The lines of [print_heap], one constructor for each [printf]. *)
Inductive printed :=
| first_block_line (block : Z)
| block_line (block size remaining : Z)
| top_free_line (top free : Z)
| start_line (start : Z)
| chunk_line (chunk size : Z).

(** The inner loop of [print_heap]:
    [while(chunk < block->top)] on the addresses, stepping by
    [chunk->size]. *)
Fixpoint print_chunks (fuel : nat) (chunk top : Z) (s : Heap)
    : option (list printed) :=
  match fuel with
  | O => None
  | S fuel' =>
      if chunk <? top then
        match print_chunks fuel' (wrap (chunk + chunk_size (hdr s chunk))) top s with
        | None => None
        | Some out => Some (chunk_line chunk (chunk_size (hdr s chunk)) :: out)
        end
      else Some []
  end.

(** The outer loop of [print_heap]: [while(block)]. *)
Fixpoint print_blocks (fuel : nat) (block : Z) (s : Heap)
    : option (list printed) :=
  match fuel with
  | O => None
  | S fuel' =>
      if block =? NULL then Some []
      else
        let b := blk s block in
        let original_top := wrap (block + sizeof_BLOCK) in
        match print_chunks (chunk_fuel s) original_top (block_top b) s with
        | None => None
        | Some chunks_out =>
            match print_blocks fuel' (block_next b) s with
            | None => None
            | Some rest =>
                Some (block_line block (block_size b) (block_remaining b)
                      :: top_free_line (block_top b) (block_free b)
                      :: start_line original_top
                      :: chunks_out ++ rest)
            end
        end
  end.

(** [void print_heap(void)] *)
Definition print_heap (s : Heap) : option (list printed) :=
  let block := __smalloc_first_block s in
  match print_blocks (block_fuel s) block s with
  | None => None
  | Some out => Some (first_block_line block :: out)
  end.

End Diagnostics.

(** ** Where the blocks lie, and what a call leaves alone *)

Section Placement.
Context {abi : ABI}.

(** The blocks of [l], in creation order, end exactly at [ub] and then
    one block header below the block before. *)
Fixpoint tight (s : Heap) (ub : Z) (l : list Z) : Prop :=
  match l with
  | [] => True
  | b :: l' =>
      b + block_size (blk s b) = ub /\ tight s (b - sizeof_BLOCK) l'
  end.

(** The [prev] links of the blocks of [l], [pv] being the one of the
    head. *)
Fixpoint prev_chain (s : Heap) (pv : Z) (l : list Z) : Prop :=
  match l with
  | [] => True
  | b :: l' => block_prev (blk s b) = pv /\ prev_chain s b l'
  end.

(** The blocks of shape [sh] lie between the bounds of the heap. *)
Record Placed (s : Heap) (sh : Shape) : Prop := {
  pl_bottom_word : 0 <= HEAP_BOTTOM s;
  pl_span : HEAP_BOTTOM s <= HEAP_TOP s;
  pl_bottom : forall b, b ∈ BL sh -> HEAP_BOTTOM s <= b;
  pl_tight : tight s (HEAP_TOP s) (BL sh);
  pl_prev : prev_chain s NULL (BL sh)
}.

(** From [s] to [s'] only free-list links and flags have changed: the
    bounds, the block list, and the place and size of every block and of
    every chunk are the same. *)
Record same_layout (s s' : Heap) : Prop := {
  sl_top : HEAP_TOP s' = HEAP_TOP s;
  sl_bottom : HEAP_BOTTOM s' = HEAP_BOTTOM s;
  sl_page : PAGESIZE s' = PAGESIZE s;
  sl_first : __first_block s' = __first_block s;
  sl_last : __last_block s' = __last_block s;
  sl_block : forall x,
    block_prev (blk s' x) = block_prev (blk s x) /\
    block_next (blk s' x) = block_next (blk s x) /\
    block_size (blk s' x) = block_size (blk s x) /\
    block_remaining (blk s' x) = block_remaining (blk s x) /\
    block_top (blk s' x) = block_top (blk s x);
  sl_chunk : forall x,
    chunk_block (hdr s' x) = chunk_block (hdr s x) /\
    chunk_size (hdr s' x) = chunk_size (hdr s x)
}.

(** The shape of a heap without blocks. *)
Definition no_blocks : Shape := mkShape [] (fun _ => []) (fun _ => []).

(** The chunk behind pointer [p] is in use. *)
Definition allocated (s : Heap) (p : Z) : Prop :=
  Z.land (chunk_flags (hdr s (p - sizeof_CHUNK))) ALLOCD <> 0.

(** What [print_heap] prints for a heap of shape [sh]. *)
Definition chunk_lines (s : Heap) (l : list Z) : list printed :=
  map (fun c => chunk_line c (chunk_size (hdr s c))) l.

Definition block_lines (s : Heap) (sh : Shape) (b : Z) : list printed :=
  block_line b (block_size (blk s b)) (block_remaining (blk s b))
  :: top_free_line (block_top (blk s b)) (block_free (blk s b))
  :: start_line (b + sizeof_BLOCK)
  :: chunk_lines s (CL sh b).

Definition heap_lines (s : Heap) (sh : Shape) : list printed :=
  first_block_line (__first_block s)
  :: concat (map (block_lines s sh) (BL sh)).

End Placement.

(** ** More example heaps (ILP32) *)


(** The two halves of a copy of five bytes. *)
Definition ex_copied_two : memory := copy_ascending 2 0x200 0x100 ex_memory.
Definition ex_copied_five : memory := copy_ascending 3 0x202 0x102 ex_copied_two.

(** ** Call sequences without a condition on growth *)

Section AnyCalls.
Context {abi : ABI}.


End AnyCalls.

(** Three allocations of 100, 200 and 100 bytes, then all three freed in
    that order: the free-list of the block has the three chunks, the
    last freed at its head. *)
Definition ex_three : Heap :=
  let s1 := after (smalloc 200 ex_alloc) ex_alloc in
  after (smalloc 100 s1) s1.
Definition ex_three_freed : Heap :=
  sfree 29032 (sfree 28820 (sfree 28708 ex_three)).

(** A heap over nearly the whole address space with one chunk of more
    than half of it, allocated and freed. *)
Definition ex_huge_init : Heap := __smalloc_init 0xfffffff0 0x1000 0x10 ex_boot.
Definition ex_huge_alloc : Heap :=
  after (smalloc 0x90000000 ex_huge_init) ex_huge_init.
Definition ex_huge_freed : Heap := sfree 1879048176 ex_huge_alloc.

(** * Properties *)

Section MachineFacts.
Context {abi : ABI}.

Lemma word_modulus_pos : 0 < 2 ^ word_bits.
Proof. apply Z.pow_pos_nonneg; [lia | pose proof word_bits_pos; lia]. Qed.

Lemma wrap_small x : 0 <= x < 2 ^ word_bits -> wrap x = x.
Proof. intros H. unfold wrap. apply Z.mod_small. exact H. Qed.

Lemma wrap_is_word x : is_word (wrap x).
Proof. unfold is_word, wrap. apply Z.mod_pos_bound, word_modulus_pos. Qed.

Lemma wrap_add_l a b : wrap (wrap a + b) = wrap (a + b).
Proof. unfold wrap. apply Zplus_mod_idemp_l. Qed.

Lemma wrap_add_r a b : wrap (a + wrap b) = wrap (a + b).
Proof. unfold wrap. apply Zplus_mod_idemp_r. Qed.

(** ** memcpy *)

Lemma memcpy_loop_done fuel d s m : memcpy_loop fuel d s 0 m = Some m.
Proof.
  destruct fuel; simpl; rewrite !andb_false_r; reflexivity.
Qed.

Lemma memcpy_loop_null fuel d s count m :
  d = NULL \/ s = NULL -> memcpy_loop fuel d s count m = Some m.
Proof.
  intros [-> | ->]; destruct fuel; simpl; rewrite ?andb_false_r; reflexivity.
Qed.

Lemma memcpy_loop_copies k : forall d s m,
  0 < d -> 0 < s ->
  d + Z.of_nat k <= 2 ^ word_bits -> s + Z.of_nat k <= 2 ^ word_bits ->
  memcpy_loop k d s (Z.of_nat k) m = Some (copy_ascending k d s m).
Proof.
  induction k as [|k IH]; intros d s m Hd Hs Hdk Hsk.
  - apply memcpy_loop_done.
  - cbn [memcpy_loop copy_ascending]. unfold NULL.
    assert (Hc : wrap (Z.of_nat (S k) - 1) = Z.of_nat k)
      by (rewrite wrap_small; lia).
    rewrite Hc.
    replace (d =? 0) with false by (symmetry; apply Z.eqb_neq; lia).
    replace (s =? 0) with false by (symmetry; apply Z.eqb_neq; lia).
    replace (Z.of_nat (S k) =? 0) with false by (symmetry; apply Z.eqb_neq; lia).
    cbn [negb andb].
    destruct k as [|k'].
    + rewrite memcpy_loop_done. reflexivity.
    + rewrite !wrap_small by lia. apply IH; lia.
Qed.

Lemma copy_ascending_frame k : forall d s m a,
  ~ (d <= a < d + Z.of_nat k) -> copy_ascending k d s m a = m a.
Proof.
  induction k as [|k IH]; intros d s m a Ha; [reflexivity|].
  cbn [copy_ascending]. rewrite IH by lia.
  apply fn_lookup_insert_ne. lia.
Qed.

Lemma copy_ascending_forward k : forall d s m i,
  s + Z.of_nat k <= d \/ d <= s ->
  0 <= i < Z.of_nat k ->
  copy_ascending k d s m (d + i) = m (s + i).
Proof.
  induction k as [|k IH]; intros d s m i Hsafe Hi; [lia|].
  cbn [copy_ascending].
  destruct (Z.eq_dec i 0) as [->|Hne].
  - rewrite !Z.add_0_r, copy_ascending_frame by lia.
    apply fn_lookup_insert.
  - replace (d + i) with ((d + 1) + (i - 1)) by lia.
    rewrite IH by lia.
    replace (s + 1 + (i - 1)) with (s + i) by lia.
    apply fn_lookup_insert_ne. lia.
Qed.

(** C10. [memcpy] always returns [dst].  With a null [dst] or [src] it
    copies nothing, whatever [count] is.  Otherwise, for a source and a
    destination range that lie inside the address space, it copies exactly
    [count] bytes, lowest address first, and changes no byte outside the
    [count] bytes at [dst]; when the ascending order cannot overwrite a
    byte before reading it, the destination receives the source bytes. *)
Theorem memcpy_returns_dst_and_copies_count (dst src count : Z) (m : memory) :
  is_word dst -> is_word src -> is_word count ->
  ((dst = NULL \/ src = NULL) -> memcpy dst src count m = Some (dst, m)) /\
  (dst <> NULL -> src <> NULL ->
   dst + count <= 2 ^ word_bits -> src + count <= 2 ^ word_bits ->
   exists m',
     memcpy dst src count m = Some (dst, m') /\
     m' = copy_ascending (Z.to_nat count) dst src m /\
     (forall a, ~ (dst <= a < dst + count) -> m' a = m a) /\
     (src + count <= dst \/ dst <= src ->
      forall i, 0 <= i < count -> m' (dst + i) = m (src + i))).
Proof.
  unfold is_word, NULL. intros Hd Hs Hc. split.
  - intros Hnull. unfold memcpy.
    rewrite memcpy_loop_null by exact Hnull. reflexivity.
  - intros Hdn Hsn Hdr Hsr.
    exists (copy_ascending (Z.to_nat count) dst src m).
    assert (Hk : Z.of_nat (Z.to_nat count) = count) by lia.
    repeat split.
    + unfold memcpy.
      rewrite <- Hk at 2.
      rewrite memcpy_loop_copies by lia. reflexivity.
    + intros a Ha. apply copy_ascending_frame. lia.
    + intros Hsafe i Hi. apply copy_ascending_forward; lia.
Qed.

(** ** Configuration *)

(** C7. [__smalloc_init] with the low bound above the high bound, or with
    a span smaller than the minimum block size, changes nothing; on any
    other input it installs the three values and empties the block list. *)
Theorem smalloc_init_guard (top size bottom : Z) (s : Heap) :
  is_word top -> is_word size -> is_word bottom ->
  (bottom > top \/ top - bottom < size ->
   __smalloc_init top size bottom s = s) /\
  (~ (bottom > top \/ top - bottom < size) ->
   let s' := __smalloc_init top size bottom s in
   HEAP_TOP s' = top /\ HEAP_BOTTOM s' = bottom /\ PAGESIZE s' = size /\
   __first_block s' = NULL /\ __last_block s' = NULL /\
   blocks s' = blocks s /\ chunks s' = chunks s).
Proof.
  unfold is_word. intros Ht Hsz Hb. unfold __smalloc_init.
  destruct (Z.gtb_spec bottom top) as [Hgt|Hle]; cbn [orb].
  - split; [reflexivity | lia].
  - rewrite wrap_small by lia.
    destruct (Z.ltb_spec (top - bottom) size) as [Hlt|Hge].
    + split; [reflexivity | lia].
    + split; [lia|]. intros _. cbn. repeat split; reflexivity.
Qed.

End MachineFacts.

(** ** Reading the store after a write *)

Section StoreFacts.
Context {abi : ABI}.

Lemma blk_store_BLOCK b v s b' :
  blk (store_BLOCK b v s) b' = if decide (b = b') then v else blk s b'.
Proof.
  unfold blk, store_BLOCK; cbn. destruct (decide (b = b')) as [->|Hne].
  - rewrite lookup_insert_eq. reflexivity.
  - rewrite lookup_insert_ne by exact Hne. reflexivity.
Qed.

Lemma frd_store_FREED c v s c' :
  frd (store_FREED c v s) c' = if decide (c = c') then v else frd s c'.
Proof.
  unfold frd, store_FREED; cbn. destruct (decide (c = c')) as [->|Hne].
  - rewrite lookup_insert_eq. reflexivity.
  - rewrite lookup_insert_ne by exact Hne. reflexivity.
Qed.

Lemma frd_store_BLOCK b v s c : frd (store_BLOCK b v s) c = frd s c.
Proof. reflexivity. Qed.

Lemma blk_store_FREED c v s b : blk (store_FREED c v s) b = blk s b.
Proof. reflexivity. Qed.

Lemma blk_set_first_last f l s b : blk (set_first_last f l s) b = blk s b.
Proof. reflexivity. Qed.

Lemma frd_set_first_last f l s c : frd (set_first_last f l s) c = frd s c.
Proof. reflexivity. Qed.

Lemma present_store_BLOCK b v s b' :
  is_Some (blocks s !! b') -> is_Some (blocks (store_BLOCK b v s) !! b').
Proof.
  intros H. cbn. destruct (decide (b = b')) as [->|Hne].
  - rewrite lookup_insert_eq. eauto.
  - rewrite lookup_insert_ne by exact Hne. exact H.
Qed.

Lemma present_store_FREED c v s c' :
  is_Some (chunks s !! c') -> is_Some (chunks (store_FREED c v s) !! c').
Proof.
  intros H. cbn. destruct (decide (c = c')) as [->|Hne].
  - rewrite lookup_insert_eq. eauto.
  - rewrite lookup_insert_ne by exact Hne. exact H.
Qed.

End StoreFacts.

(** Unfold the field assignments down to reads of the store. *)
Ltac unfold_sets :=
  unfold set_chunk_flags, set_chunk_header, set_freed_prev, set_freed_next,
    set_block_free, set_block_top, set_block_remaining, set_block_next, hdr.

(** Decide one address test of the goal from the context. *)
Ltac decide_step :=
  match goal with
  | |- context [decide (?a = ?b)] =>
      first
        [ rewrite (decide_True (P := a = b))
            by (first [reflexivity | assumption | congruence])
        | rewrite (decide_False (P := a = b))
            by (first [assumption | congruence]) ]
  end.

(** Reads of a store after writes, with the address tests decided where
    the context decides them. *)
Ltac store_simpl :=
  repeat first
    [ rewrite blk_store_BLOCK | rewrite frd_store_FREED
    | rewrite frd_store_BLOCK | rewrite blk_store_FREED
    | rewrite blk_set_first_last | rewrite frd_set_first_last
    | decide_step
    | progress cbn [freed_header freed_next freed_prev
                    chunk_block chunk_size chunk_flags
                    block_prev block_next block_size block_remaining
                    block_top block_free] ].

(** A written address stays written. *)
Ltac still_present :=
  unfold_sets; unfold store_BLOCK, store_FREED, set_first_last;
  cbn [blocks chunks];
  repeat (apply lookup_insert_is_Some'; right); assumption.

(** ** Facts about shapes *)

Section ShapeFacts.
Context {abi : ABI}.

Lemma block_chain_ext s s' l : forall p,
  (forall b, b ∈ l -> block_next (blk s' b) = block_next (blk s b)) ->
  block_chain s p l -> block_chain s' p l.
Proof.
  induction l as [|x l IH]; intros p Hsame Hc; [exact Hc|].
  destruct Hc as (-> & Hx & Hc). cbn. split; [reflexivity|]. split; [exact Hx|].
  rewrite Hsame by apply list_elem_of_here.
  apply IH; [|exact Hc]. intros b Hb. apply Hsame. by apply list_elem_of_further.
Qed.

Lemma block_chain_nonnull s l : forall p b,
  block_chain s p l -> b ∈ l -> b <> NULL.
Proof.
  induction l as [|x l IH]; intros p b Hc Hb.
  - by apply not_elem_of_nil in Hb.
  - destruct Hc as (-> & Hx & Hc). apply elem_of_cons in Hb as [->|Hb]; eauto.
Qed.

Lemma block_chain_head s l p : block_chain s p l -> p = hd NULL l.
Proof. destruct l; cbn; [tauto|]. intros (-> & _). reflexivity. Qed.

Lemma last_cons_cons {A} (x y : A) l d : List.last (x :: y :: l) d = List.last (y :: l) d.
Proof. reflexivity. Qed.

Lemma last_elem_of (l : list Z) d : l <> [] -> List.last l d ∈ l.
Proof.
  induction l as [|x l IH]; [congruence|]. intros _.
  destruct l as [|y l]; [apply list_elem_of_here|].
  rewrite last_cons_cons. apply list_elem_of_further, IH. congruence.
Qed.

(** Appending a block at the tail, as [__new_block] does. *)
Lemma block_chain_snoc s s' b l : forall p,
  block_chain s p l -> NoDup l -> b <> NULL ->
  (forall x, x ∈ l ->
     block_next (blk s' x)
     = if decide (x = List.last l NULL) then b else block_next (blk s x)) ->
  block_next (blk s' b) = NULL ->
  block_chain s' (match l with [] => b | _ => p end) (l ++ [b]).
Proof.
  induction l as [|x l IH]; intros p Hc Hnd Hb Hnext Hbn.
  - cbn. auto.
  - destruct Hc as (-> & Hx & Hc). cbn. split; [reflexivity|]. split; [exact Hx|].
    apply NoDup_cons in Hnd as [Hxl Hnd].
    rewrite Hnext by apply list_elem_of_here.
    destruct l as [|y l].
    + cbn. rewrite decide_True by reflexivity. auto.
    + rewrite last_cons_cons.
      rewrite decide_False.
      2:{ intros Heq. apply Hxl. rewrite Heq. apply last_elem_of. congruence. }
      specialize (IH (block_next (blk s x)) Hc Hnd Hb). cbn in IH. apply IH; [|exact Hbn].
      intros z Hz. rewrite Hnext by (by apply list_elem_of_further).
      rewrite last_cons_cons. reflexivity.
Qed.

Lemma free_chain_ext s s' l : forall pv p,
  (forall c, c ∈ l -> freed_next (frd s' c) = freed_next (frd s c) /\
                     freed_prev (frd s' c) = freed_prev (frd s c)) ->
  free_chain s pv p l -> free_chain s' pv p l.
Proof.
  induction l as [|x l IH]; intros pv p Hsame Hc; [exact Hc|].
  destruct Hc as (-> & Hx & Hpv & Hc). cbn.
  destruct (Hsame x (list_elem_of_here _ _)) as [Hn Hp].
  rewrite Hn, Hp. repeat split; try assumption.
  apply IH; [|exact Hc]. intros c Hcl. apply Hsame. by apply list_elem_of_further.
Qed.

Lemma free_chain_head s l pv p : free_chain s pv p l -> p = hd NULL l.
Proof. destruct l; cbn; [tauto|]. intros (-> & _). reflexivity. Qed.

Lemma free_chain_nonnull s l : forall pv p c,
  free_chain s pv p l -> c ∈ l -> c <> NULL.
Proof.
  induction l as [|x l IH]; intros pv p c Hc Hcl.
  - by apply not_elem_of_nil in Hcl.
  - destruct Hc as (-> & Hx & _ & Hc). apply elem_of_cons in Hcl as [->|Hcl]; eauto.
Qed.

Lemma carved_ext s s' b l : forall p top,
  (forall c, c ∈ l -> chunk_block (hdr s' c) = chunk_block (hdr s c) /\
                     chunk_size (hdr s' c) = chunk_size (hdr s c)) ->
  carved s b p l top -> carved s' b p l top.
Proof.
  induction l as [|x l IH]; intros p top Hsame Hc; [exact Hc|].
  destruct Hc as (-> & Hb & Hsz & Hc). cbn.
  destruct (Hsame x (list_elem_of_here _ _)) as [-> ->].
  repeat split; try assumption.
  apply IH; [|exact Hc]. intros c Hcl. apply Hsame. by apply list_elem_of_further.
Qed.

Lemma carved_bounds s b l : forall p top,
  carved s b p l top ->
  p <= top /\
  forall c, c ∈ l ->
    p <= c /\ c + chunk_size (hdr s c) <= top /\
    chunk_block (hdr s c) = b /\ sizeof_FREED <= chunk_size (hdr s c).
Proof.
  pose proof sizeof_CHUNK_pos. pose proof sizeof_FREED_links.
  induction l as [|x l IH]; intros p top Hc.
  - cbn in Hc. subst. split; [lia|]. intros c Hcl. by apply not_elem_of_nil in Hcl.
  - destruct Hc as (-> & Hb & Hsz & Hc). destruct (IH _ _ Hc) as [Hle Hall].
    split; [lia|]. intros c Hcl. apply elem_of_cons in Hcl as [->|Hcl].
    + repeat split; try assumption; lia.
    + destruct (Hall c Hcl) as (? & ? & ? & ?). repeat split; try assumption; lia.
Qed.

Lemma carved_sum s b l : forall p top,
  carved s b p l top -> sum_chunk_sizes s l = top - p.
Proof.
  induction l as [|x l IH]; intros p top Hc.
  - cbn in *. lia.
  - destruct Hc as (-> & _ & _ & Hc).
    change (sum_chunk_sizes s (x :: l))
      with (chunk_size (hdr s x) + sum_chunk_sizes s l).
    rewrite (IH _ _ Hc). lia.
Qed.

(** Carving one more chunk at [top]. *)
Lemma carved_snoc s s' b l R : forall p top,
  carved s b p l top ->
  (forall c, c ∈ l -> chunk_block (hdr s' c) = chunk_block (hdr s c) /\
                     chunk_size (hdr s' c) = chunk_size (hdr s c)) ->
  chunk_block (hdr s' top) = b -> chunk_size (hdr s' top) = R ->
  sizeof_FREED <= R ->
  carved s' b p (l ++ [top]) (top + R).
Proof.
  induction l as [|x l IH]; intros p top Hc Hsame Hb HR Hsz.
  - cbn in *. subst p. rewrite HR. auto.
  - destruct Hc as (-> & Hbx & Hszx & Hc). cbn.
    destruct (Hsame x (list_elem_of_here _ _)) as [-> ->].
    repeat split; try assumption.
    apply IH; try assumption. intros c Hcl. apply Hsame. by apply list_elem_of_further.
Qed.

Lemma stacked_ext s s' l : forall ub,
  (forall b, b ∈ l -> block_size (blk s' b) = block_size (blk s b)) ->
  stacked s ub l -> stacked s' ub l.
Proof.
  induction l as [|x l IH]; intros ub Hsame Hs; [exact I|].
  destruct Hs as (H0 & Hh & Hub & Hs). cbn.
  rewrite (Hsame x) by apply list_elem_of_here.
  repeat split; try assumption.
  apply IH; [|exact Hs]. intros b Hb. apply Hsame. by apply list_elem_of_further.
Qed.

Lemma stacked_bound s l : forall ub b,
  stacked s ub l -> b ∈ l ->
  0 < b /\ sizeof_BLOCK <= block_size (blk s b) /\ b + block_size (blk s b) <= ub.
Proof.
  pose proof sizeof_BLOCK_pos.
  induction l as [|x l IH]; intros ub b Hs Hb.
  - by apply not_elem_of_nil in Hb.
  - destruct Hs as (H0 & Hh & Hub & Hs). apply elem_of_cons in Hb as [->|Hb].
    + auto.
    + destruct (IH _ _ Hs Hb) as (? & ? & ?). repeat split; try assumption; lia.
Qed.

(** Two blocks of a stack do not overlap. *)
Lemma stacked_apart s l : forall ub b1 b2,
  stacked s ub l -> b1 ∈ l -> b2 ∈ l -> b1 <> b2 ->
  b1 + block_size (blk s b1) <= b2 - sizeof_BLOCK \/
  b2 + block_size (blk s b2) <= b1 - sizeof_BLOCK.
Proof.
  induction l as [|x l IH]; intros ub b1 b2 Hs H1 H2 Hne.
  - by apply not_elem_of_nil in H1.
  - destruct Hs as (H0 & Hh & Hub & Hs).
    apply elem_of_cons in H1 as [->|H1]; apply elem_of_cons in H2 as [->|H2].
    + congruence.
    + right. by apply (stacked_bound s l).
    + left. by apply (stacked_bound s l).
    + eauto.
Qed.

Lemma stacked_ge_last s l : forall ub b,
  stacked s ub l -> b ∈ l -> List.last l NULL <= b.
Proof.
  pose proof sizeof_BLOCK_pos.
  induction l as [|x l IH]; intros ub b Hs Hb.
  - by apply not_elem_of_nil in Hb.
  - destruct Hs as (H0 & Hh & Hub & Hs). destruct l as [|y l].
    + apply list_elem_of_singleton in Hb as ->. cbn. lia.
    + rewrite last_cons_cons. apply elem_of_cons in Hb as [->|Hb]; [|eauto].
      assert (Hl : List.last (y :: l) NULL ∈ y :: l) by (apply last_elem_of; congruence).
      destruct (stacked_bound _ _ _ _ Hs Hl) as (? & ? & ?). lia.
Qed.

Lemma stacked_snoc s l b : forall ub,
  stacked s ub l ->
  0 < b -> sizeof_BLOCK <= block_size (blk s b) ->
  b + block_size (blk s b)
    <= (match l with [] => ub | _ => List.last l NULL - sizeof_BLOCK end) ->
  stacked s ub (l ++ [b]).
Proof.
  induction l as [|x l IH]; intros ub Hs H0 Hh Hub.
  - cbn. auto.
  - destruct Hs as (Hx0 & Hxh & Hxub & Hs). cbn. repeat split; try assumption.
    apply IH; try assumption. destruct l as [|y l]; [exact Hub|].
    rewrite last_cons_cons in Hub. exact Hub.
Qed.

(** A walk over distinct written addresses is no longer than the store. *)
Lemma nodup_length_le_size {V} (m : gmap Z V) (l : list Z) :
  NoDup l -> (forall x, x ∈ l -> is_Some (m !! x)) -> (length l <= size m)%nat.
Proof.
  intros Hnd Hin.
  rewrite <- size_dom, <- (size_list_to_set (C := gset Z) l) by exact Hnd.
  apply subseteq_size. intros x Hx. apply elem_of_list_to_set in Hx.
  apply elem_of_dom. auto.
Qed.

End ShapeFacts.

(** ** The loops over the lists *)

Section Loops.
Context {abi : ABI}.

Lemma find_app {A} (f : A -> bool) (l1 l2 : list A) :
  find f (l1 ++ l2) = match find f l1 with Some x => Some x | None => find f l2 end.
Proof.
  induction l1 as [|x l1 IH]; [reflexivity|]. cbn. destruct (f x); auto.
Qed.

Lemma find_elem_of {A} (f : A -> bool) (l : list A) x :
  find f l = Some x -> x ∈ l /\ f x = true.
Proof.
  intros H. apply find_some in H as [Hin Hf]. split; [|exact Hf].
  by apply list_elem_of_In.
Qed.

Lemma space_loop_spec s size l : forall fuel p,
  block_chain s p l -> (length l < fuel)%nat ->
  space_loop fuel size p s
  = Some (default NULL (find (fun b => block_remaining (blk s b) >=? size) l)).
Proof.
  induction l as [|x l IH]; intros fuel p Hc Hf.
  - cbn in Hc. subst p. destruct fuel; [cbn in Hf; lia|]. reflexivity.
  - destruct Hc as (-> & Hx & Hc). destruct fuel; [cbn in Hf; lia|].
    cbn [space_loop find]. unfold NULL in Hx.
    replace (x =? NULL) with false by (symmetry; apply Z.eqb_neq; exact Hx).
    destruct (block_remaining (blk s x) >=? size); [reflexivity|].
    apply IH; [exact Hc|]. cbn in Hf. lia.
Qed.

Lemma scan_free_list_spec s minSize maxSize b l : forall fuel pv p,
  free_chain s pv p l -> (length l < fuel)%nat ->
  scan_free_list fuel minSize maxSize b p s
  = Some (match find (in_window s minSize maxSize) l with
          | Some c => (c, dequeue b c s)
          | None => (NULL, s)
          end).
Proof.
  induction l as [|x l IH]; intros fuel pv p Hc Hf.
  - cbn in Hc. subst p. destruct fuel; [cbn in Hf; lia|]. reflexivity.
  - destruct Hc as (-> & Hx & _ & Hc). destruct fuel; [cbn in Hf; lia|].
    cbn [scan_free_list find]. unfold NULL in Hx.
    replace (x =? NULL) with false by (symmetry; apply Z.eqb_neq; exact Hx).
    unfold in_window at 1.
    destruct ((chunk_size (hdr s x) >=? minSize) && (chunk_size (hdr s x) <=? maxSize));
      [reflexivity|].
    eapply IH; [exact Hc|]. cbn in Hf. lia.
Qed.

(** A [NULL] result of the scan leaves the state as it was, whatever the
    store holds. *)
Lemma scan_free_list_null fuel minSize maxSize b : forall p s s',
  scan_free_list fuel minSize maxSize b p s = Some (NULL, s') -> s' = s.
Proof.
  induction fuel as [|fuel IH]; intros p s s' H; [discriminate|].
  cbn [scan_free_list] in H.
  destruct (Z.eqb_spec p NULL) as [->|Hp]; [congruence|].
  destruct ((chunk_size (hdr s p) >=? minSize) && (chunk_size (hdr s p) <=? maxSize)).
  - congruence.
  - eauto.
Qed.

Lemma scan_blocks_null fuel minSize maxSize : forall p s s',
  scan_blocks fuel minSize maxSize p s = Some (NULL, s') -> s' = s.
Proof.
  induction fuel as [|fuel IH]; intros p s s' H; [discriminate|].
  cbn [scan_blocks] in H.
  destruct (Z.eqb_spec p NULL) as [->|Hp]; [congruence|].
  destruct (scan_free_list _ _ _ _ _ _) as [[f s1]|] eqn:E; [|discriminate].
  destruct (Z.eqb_spec f NULL) as [->|Hf].
  - eauto.
  - congruence.
Qed.

Lemma scan_blocks_spec s minSize maxSize (fl : Z -> list Z) l : forall fuel p,
  block_chain s p l -> (length l < fuel)%nat ->
  (forall b, b ∈ l ->
     free_chain s NULL (block_free (blk s b)) (fl b) /\
     (length (fl b) < chunk_fuel s)%nat /\
     forall c, c ∈ fl b -> chunk_block (hdr s c) = b) ->
  scan_blocks fuel minSize maxSize p s
  = Some (match find (in_window s minSize maxSize) (concat (map fl l)) with
          | Some c => (c, dequeue (chunk_block (hdr s c)) c s)
          | None => (NULL, s)
          end).
Proof.
  induction l as [|x l IH]; intros fuel p Hc Hf Hfl.
  - cbn in Hc. subst p. destruct fuel; [cbn in Hf; lia|]. reflexivity.
  - destruct Hc as (-> & Hx & Hc). destruct fuel; [cbn in Hf; lia|].
    cbn [scan_blocks map concat]. unfold NULL in Hx.
    replace (x =? NULL) with false by (symmetry; apply Z.eqb_neq; exact Hx).
    destruct (Hfl x (list_elem_of_here _ _)) as (Hfc & Hlen & Hown).
    rewrite (scan_free_list_spec _ _ _ _ _ _ _ _ Hfc Hlen), find_app.
    destruct (find (in_window s minSize maxSize) (fl x)) as [c|] eqn:E.
    + apply find_elem_of in E as [Hin _].
      pose proof (free_chain_nonnull _ _ _ _ _ Hfc Hin) as Hcn. unfold NULL in Hcn.
      replace (c =? NULL) with false by (symmetry; apply Z.eqb_neq; exact Hcn).
      rewrite (Hown c Hin). reflexivity.
    + cbn [Z.eqb NULL]. apply IH; [exact Hc| cbn in Hf; lia |].
      intros b Hb. apply Hfl. by apply list_elem_of_further.
Qed.

Lemma wrap_ushort_add_l a b : wrap_ushort (wrap_ushort a + b) = wrap_ushort (a + b).
Proof. unfold wrap_ushort. apply Zplus_mod_idemp_l. Qed.

Lemma used_loop_spec s l : forall fuel p size numBlocks inBlocks,
  block_chain s p l -> (length l < fuel)%nat ->
  used_loop fuel p (wrap size) (wrap_ushort numBlocks) (wrap inBlocks) s
  = Some (wrap (size + sum_block_sizes s l),
          wrap_ushort (numBlocks + Z.of_nat (length l)),
          wrap (inBlocks + (sum_block_sizes s l - sum_remaining s l))).
Proof.
  induction l as [|x l IH]; intros fuel p a n i Hc Hf.
  - cbn in Hc. subst p. destruct fuel; [cbn in Hf; lia|]. cbn.
    rewrite !Z.add_0_r. reflexivity.
  - destruct Hc as (-> & Hx & Hc). destruct fuel; [cbn in Hf; lia|].
    cbn [used_loop]. unfold NULL in Hx.
    replace (x =? NULL) with false by (symmetry; apply Z.eqb_neq; exact Hx).
    rewrite wrap_add_l, wrap_ushort_add_l, wrap_add_r, wrap_add_l.
    rewrite IH by (try exact Hc; cbn in Hf; lia).
    change (sum_block_sizes s (x :: l))
      with (block_size (blk s x) + sum_block_sizes s l).
    change (sum_remaining s (x :: l))
      with (block_remaining (blk s x) + sum_remaining s l).
    f_equal. f_equal; [f_equal|]; f_equal; cbn [length]; lia.
Qed.

Lemma free_sum_loop_spec s l : forall fuel pv p inFree,
  free_chain s pv p l -> (length l < fuel)%nat ->
  free_sum_loop fuel p (wrap inFree) s
  = Some (wrap (inFree + sum_chunk_sizes s l)).
Proof.
  induction l as [|x l IH]; intros fuel pv p a Hc Hf.
  - cbn in Hc. subst p. destruct fuel; [cbn in Hf; lia|]. cbn.
    rewrite Z.add_0_r. reflexivity.
  - destruct Hc as (-> & Hx & _ & Hc). destruct fuel; [cbn in Hf; lia|].
    cbn [free_sum_loop]. unfold NULL in Hx.
    replace (x =? NULL) with false by (symmetry; apply Z.eqb_neq; exact Hx).
    rewrite wrap_add_l.
    rewrite (IH _ _ _ _ Hc) by (cbn in Hf; lia).
    change (sum_chunk_sizes s (x :: l))
      with (chunk_size (hdr s x) + sum_chunk_sizes s l).
    f_equal. f_equal. lia.
Qed.

Lemma sum_chunk_sizes_app s l1 l2 :
  sum_chunk_sizes s (l1 ++ l2) = sum_chunk_sizes s l1 + sum_chunk_sizes s l2.
Proof.
  induction l1 as [|y l1 IH]; [reflexivity|].
  change (chunk_size (hdr s y) + sum_chunk_sizes s (l1 ++ l2)
          = chunk_size (hdr s y) + sum_chunk_sizes s l1 + sum_chunk_sizes s l2).
  rewrite IH. lia.
Qed.

Lemma avail_loop_spec s (fl : Z -> list Z) l : forall fuel p inBlocks inFree,
  block_chain s p l -> (length l < fuel)%nat ->
  (forall b, b ∈ l ->
     free_chain s NULL (block_free (blk s b)) (fl b) /\
     (length (fl b) < chunk_fuel s)%nat) ->
  avail_loop fuel p (wrap inBlocks) (wrap inFree) s
  = Some (wrap (inBlocks + sum_remaining s l),
          wrap (inFree + sum_chunk_sizes s (concat (map fl l)))).
Proof.
  induction l as [|x l IH]; intros fuel p a f Hc Hf Hfl.
  - cbn in Hc. subst p. destruct fuel; [cbn in Hf; lia|]. cbn.
    rewrite !Z.add_0_r. reflexivity.
  - destruct Hc as (-> & Hx & Hc). destruct fuel; [cbn in Hf; lia|].
    cbn [avail_loop]. unfold NULL in Hx.
    replace (x =? NULL) with false by (symmetry; apply Z.eqb_neq; exact Hx).
    destruct (Hfl x (list_elem_of_here _ _)) as (Hfc & Hlen).
    rewrite (free_sum_loop_spec _ _ _ _ _ _ Hfc Hlen), wrap_add_l.
    rewrite IH; [| exact Hc | cbn in Hf; lia
                 | intros b Hb; apply Hfl; by apply list_elem_of_further].
    change (sum_remaining s (x :: l))
      with (block_remaining (blk s x) + sum_remaining s l).
    cbn [map concat]. rewrite sum_chunk_sizes_app.
    f_equal. f_equal; f_equal; lia.
Qed.

End Loops.

(** ** Consequences of the invariant *)

Section InvFacts.
Context {abi : ABI}.

Lemma inv_block_fuel s P sh : Inv s P sh -> (length (BL sh) < block_fuel s)%nat.
Proof.
  intros H. unfold block_fuel.
  enough (length (BL sh) <= size (blocks s))%nat by lia.
  apply nodup_length_le_size; [apply (inv_nodup _ _ _ H)|].
  intros b Hb. apply (bo_present _ _ _ _ (inv_blocks _ _ _ H b Hb)).
Qed.

Lemma block_ok_free_fuel s b cl fl :
  block_ok s b cl fl -> (length fl < chunk_fuel s)%nat.
Proof.
  intros H. unfold chunk_fuel.
  enough (length fl <= size (chunks s))%nat by lia.
  apply nodup_length_le_size; [apply (bo_free_nodup _ _ _ _ H)|].
  intros c Hc. apply (bo_chunks_present _ _ _ _ H), (bo_free_carved _ _ _ _ H), Hc.
Qed.

Lemma inv_block s P sh b :
  Inv s P sh -> b ∈ BL sh ->
  0 < b /\ sizeof_BLOCK <= block_size (blk s b) /\
  b + sizeof_BLOCK <= block_top (blk s b) /\
  block_top (blk s b) <= b + block_size (blk s b) /\
  b + block_size (blk s b) <= HEAP_TOP s /\
  0 <= block_remaining (blk s b) <= block_size (blk s b) - sizeof_BLOCK.
Proof.
  intros H Hb.
  destruct (stacked_bound _ _ _ _ (inv_stacked _ _ _ H) Hb) as (H0 & Hh & Hub).
  pose proof (inv_blocks _ _ _ H b Hb) as Hok.
  destruct (carved_bounds _ _ _ _ _ (bo_carved _ _ _ _ Hok)) as [Hle _].
  pose proof (bo_top _ _ _ _ Hok). pose proof (bo_remaining _ _ _ _ Hok).
  repeat split; lia.
Qed.

Lemma inv_chunk s P sh b c :
  Inv s P sh -> b ∈ BL sh -> c ∈ CL sh b ->
  b + sizeof_BLOCK <= c /\
  c + chunk_size (hdr s c) <= block_top (blk s b) /\
  chunk_block (hdr s c) = b /\
  sizeof_FREED <= chunk_size (hdr s c).
Proof.
  intros H Hb Hc.
  pose proof (inv_blocks _ _ _ H b Hb) as Hok.
  destruct (carved_bounds _ _ _ _ _ (bo_carved _ _ _ _ Hok)) as [_ Hall].
  destruct (Hall c Hc) as (? & ? & ? & ?). auto.
Qed.

Lemma inv_chunk_word s P sh b c :
  Inv s P sh -> b ∈ BL sh -> c ∈ CL sh b ->
  0 < c /\ c + sizeof_FREED <= HEAP_TOP s /\ c + sizeof_FREED < 2 ^ word_bits.
Proof.
  intros H Hb Hc. pose proof sizeof_BLOCK_pos.
  destruct (inv_chunk _ _ _ _ _ H Hb Hc) as (? & ? & ? & ?).
  destruct (inv_block _ _ _ _ H Hb) as (? & ? & ? & ? & ? & ?).
  pose proof (inv_top _ _ _ H). repeat split; lia.
Qed.

Lemma inv_owner s P sh b1 b2 c :
  Inv s P sh -> b1 ∈ BL sh -> b2 ∈ BL sh -> c ∈ CL sh b1 -> c ∈ CL sh b2 ->
  b1 = b2.
Proof.
  intros H H1 H2 Hc1 Hc2.
  destruct (inv_chunk _ _ _ _ _ H H1 Hc1) as (_ & _ & <- & _).
  destruct (inv_chunk _ _ _ _ _ H H2 Hc2) as (_ & _ & <- & _).
  reflexivity.
Qed.

(** A pointer handed out by [smalloc] leads back to its chunk. *)
Lemma inv_returned_chunk s P sh p :
  Inv s P sh -> p ∈ P ->
  exists b c, b ∈ BL sh /\ c ∈ CL sh b /\ p = c + sizeof_CHUNK /\
              wrap (p - sizeof_CHUNK) = c.
Proof.
  intros H Hp. destruct (inv_returned _ _ _ H p Hp) as (b & c & Hb & Hc & ->).
  exists b, c. repeat split; try assumption.
  destruct (inv_chunk_word _ _ _ _ _ H Hb Hc) as (? & ? & ?).
  pose proof sizeof_CHUNK_pos. pose proof sizeof_FREED_links.
  replace (c + sizeof_CHUNK - sizeof_CHUNK) with c by lia.
  apply wrap_small. lia.
Qed.

Lemma block_ok_ext s s' b cl fl :
  block_ok s b cl fl ->
  PAGESIZE s' = PAGESIZE s ->
  is_Some (blocks s' !! b) ->
  block_size (blk s' b) = block_size (blk s b) ->
  block_remaining (blk s' b) = block_remaining (blk s b) ->
  block_top (blk s' b) = block_top (blk s b) ->
  block_free (blk s' b) = block_free (blk s b) ->
  (forall c, c ∈ cl ->
     hdr s' c = hdr s c /\
     freed_next (frd s' c) = freed_next (frd s c) /\
     freed_prev (frd s' c) = freed_prev (frd s c) /\
     is_Some (chunks s' !! c)) ->
  block_ok s' b cl fl.
Proof.
  intros [Hp Hpg Hr Ht Hc Hcp Hf Hnd Hfc Hfl] Hpage Hpres Hsz Hrem Htop Hfree Hch.
  constructor.
  - exact Hpres.
  - rewrite Hpage, Hsz. exact Hpg.
  - rewrite Hrem. exact Hr.
  - rewrite Htop, Hsz, Hrem. exact Ht.
  - rewrite Htop. eapply carved_ext; [|exact Hc].
    intros c Hin. destruct (Hch c Hin) as (-> & _). auto.
  - intros c Hin. apply Hch, Hin.
  - rewrite Hfree. eapply free_chain_ext; [|exact Hf].
    intros c Hin. destruct (Hch c (Hfc c Hin)) as (_ & -> & -> & _). auto.
  - exact Hnd.
  - exact Hfc.
  - intros c Hin. destruct (Hch c Hin) as (-> & _). apply Hfl, Hin.
Qed.

End InvFacts.

(** ** sfree *)

Section Free.
Context {abi : ABI}.

Lemma land_allocd_cleared f : Z.land (Z.land f (Z.lnot ALLOCD)) ALLOCD = 0.
Proof.
  rewrite <- Z.land_assoc. replace (Z.land (Z.lnot ALLOCD) ALLOCD) with 0 by reflexivity.
  apply Z.land_0_r.
Qed.

Lemma land_allocd_set f : Z.land (Z.lor f ALLOCD) ALLOCD <> 0.
Proof.
  rewrite Z.land_lor_distr_l. replace (Z.land ALLOCD ALLOCD) with 1 by reflexivity.
  intros H. apply Z.lor_eq_0_iff in H as [_ H]. discriminate.
Qed.

(** What the store holds after [sfree] puts chunk [c] of block [b] at the
    head [h] of the free-list. *)
Lemma sfree_reads p s :
  let c := wrap (p - sizeof_CHUNK) in
  let b := chunk_block (hdr s c) in
  let h := block_free (blk s b) in
  Z.land (chunk_flags (hdr s c)) ALLOCD <> 0 ->
  h <> c ->
  let s' := sfree p s in
  (HEAP_TOP s' = HEAP_TOP s /\ HEAP_BOTTOM s' = HEAP_BOTTOM s /\
   PAGESIZE s' = PAGESIZE s /\ __first_block s' = __first_block s /\
   __last_block s' = __last_block s) /\
  (forall x, blk s' x =
     if decide (x = b)
     then mkBLOCK (block_prev (blk s b)) (block_next (blk s b))
                  (block_size (blk s b)) (block_remaining (blk s b))
                  (block_top (blk s b)) c
     else blk s x) /\
  (forall x, frd s' x =
     if decide (x = c)
     then mkFREED (mkCHUNK b (chunk_size (hdr s c))
                     (Z.land (chunk_flags (hdr s c)) (Z.lnot ALLOCD))) h NULL
     else if decide (x = h /\ h <> NULL)
     then mkFREED (freed_header (frd s x)) (freed_next (frd s x)) c
     else frd s x) /\
  (forall x, is_Some (blocks s !! x) -> is_Some (blocks s' !! x)) /\
  (forall x, is_Some (chunks s !! x) -> is_Some (chunks s' !! x)).
Proof.
  intros c b h Hflag Hh s'. subst s'. unfold sfree. fold c.
  destruct (Z.eqb_spec (Z.land (chunk_flags (hdr s c)) ALLOCD) 0) as [?|_]; [contradiction|].
  fold b.
  assert (E2 : block_free (blk (set_freed_next c
            (block_free (blk (set_freed_prev c NULL s) b))
            (set_freed_prev c NULL s)) b) = h) by reflexivity.
  rewrite E2.
  assert (E1 : block_free (blk (set_freed_prev c NULL s) b) = h) by reflexivity.
  rewrite E1. clear E1 E2.
  assert (Hcb : chunk_block (freed_header (frd s c)) = b) by reflexivity.
  assert (Hhb : block_free (blk s b) = h) by reflexivity.
  clearbody b h c.
  destruct (Z.eqb_spec h NULL) as [Hn|Hn].
  - split; [repeat split|]. split; [|split; [|split]].
    + intros x. unfold_sets.
      destruct (decide (x = b)) as [->|Hx]; store_simpl; rewrite ?Hcb; reflexivity.
    + intros x. unfold_sets.
      destruct (decide (x = c)) as [->|Hx]; store_simpl; [rewrite ?Hcb; reflexivity|].
      rewrite decide_False by tauto. reflexivity.
    + intros x Hx. still_present.
    + intros x Hx. still_present.
  - split; [repeat split|]. split; [|split; [|split]].
    + intros x. unfold_sets.
      destruct (decide (x = b)) as [->|Hx]; store_simpl; rewrite ?Hcb; reflexivity.
    + intros x. unfold_sets.
      destruct (decide (x = c)) as [->|Hx]; store_simpl; [rewrite ?Hcb; reflexivity|].
      destruct (decide (x = h /\ h <> NULL)) as [[-> _]|Hxh].
      * store_simpl. reflexivity.
      * assert (h <> x) by (intros ->; tauto). store_simpl. reflexivity.
    + intros x Hx. still_present.
    + intros x Hx. still_present.
Qed.

(** [sfree] on a pointer that [smalloc] returned: nothing happens when the
    chunk is already free; otherwise the chunk becomes the head of its
    block's free-list. *)
Lemma sfree_inv s P sh p :
  Inv s P sh -> p ∈ P ->
  let c := wrap (p - sizeof_CHUNK) in
  let b := chunk_block (hdr s c) in
  b ∈ BL sh /\ c ∈ CL sh b /\ p = c + sizeof_CHUNK /\
  (Z.land (chunk_flags (hdr s c)) ALLOCD = 0 ->
   sfree p s = s /\ c ∈ FL sh b) /\
  (Z.land (chunk_flags (hdr s c)) ALLOCD <> 0 ->
   (c ∉ FL sh b) /\ Inv (sfree p s) P (with_FL b (c :: FL sh b) sh)).
Proof.
  intros H Hp c b.
  destruct (inv_returned_chunk _ _ _ _ H Hp) as (b0 & c0 & Hb & Hc & Hpc & Hw).
  fold c in Hw. subst c0.
  destruct (inv_chunk _ _ _ _ _ H Hb Hc) as (_ & _ & Hown & Hsz). fold b in Hown. subst b0.
  pose proof (inv_blocks _ _ _ H b Hb) as Hok.
  split; [exact Hb|]. split; [exact Hc|]. split; [exact Hpc|]. split.
  - intros Hflag. split.
    + unfold sfree. fold c. rewrite Hflag. reflexivity.
    + apply (bo_flags _ _ _ _ Hok c Hc), Hflag.
  - intros Hflag.
    assert (Hnotin : c ∉ FL sh b).
    { intros Hin. apply Hflag. by apply (bo_flags _ _ _ _ Hok c Hc). }
    split; [exact Hnotin|].
    destruct (inv_chunk_word _ _ _ _ _ H Hb Hc) as (Hc0 & _ & _).
    pose proof (free_chain_head _ _ _ _ (bo_free _ _ _ _ Hok)) as Hhead.
    assert (Hh : block_free (blk s b) <> c).
    { rewrite Hhead. destruct (FL sh b) as [|y l] eqn:E; cbn.
      - unfold NULL. lia.
      - intros ->. apply Hnotin. apply list_elem_of_here. }
    destruct (sfree_reads p s Hflag Hh) as (Hglob & Hblk & Hfrd & Hpb & Hpc').
    fold c b in Hblk, Hfrd. set (s' := sfree p s) in *.
    destruct Hglob as (Htop & _ & Hpage & Hfirst & Hlast).
    assert (Hother : forall x y, x ∈ BL sh -> x <> b -> y ∈ CL sh x ->
                     frd s' y = frd s y).
    { intros x y Hx Hxb Hy. rewrite Hfrd.
      rewrite decide_False.
      2:{ intros ->. apply Hxb. eapply inv_owner; eauto. }
      rewrite decide_False; [reflexivity|]. intros [-> Hn].
      apply Hxb. eapply inv_owner; eauto.
      apply (bo_free_carved _ _ _ _ Hok). rewrite Hhead in Hn |- *.
      destruct (FL sh b); [contradiction|]. apply list_elem_of_here. }
    constructor.
    + rewrite Htop. apply (inv_top _ _ _ H).
    + apply (inv_nodup _ _ _ H).
    + rewrite Hfirst. eapply block_chain_ext; [|apply (inv_chain _ _ _ H)].
      intros x _. rewrite Hblk. destruct (decide (x = b)) as [->|]; reflexivity.
    + rewrite Hlast. apply (inv_last _ _ _ H).
    + rewrite Htop. eapply stacked_ext; [|apply (inv_stacked _ _ _ H)].
      intros x _. rewrite Hblk. destruct (decide (x = b)) as [->|]; reflexivity.
    + intros x Hx. cbn [with_FL BL CL FL].
      destruct (decide (x = b)) as [->|Hxb].
      * rewrite fn_lookup_insert.
        destruct Hok as [Hp' Hpg Hr Ht Hcv Hcp Hf Hnd Hfc Hfl].
        assert (Hhd : forall y, chunk_block (hdr s' y) = chunk_block (hdr s y) /\
                                chunk_size (hdr s' y) = chunk_size (hdr s y)).
        { intros y. unfold hdr. rewrite Hfrd.
          destruct (decide (y = c)) as [->|]; [split; reflexivity|].
          destruct (decide (y = block_free (blk s b) /\ block_free (blk s b) <> NULL));
            split; reflexivity. }
        constructor.
        -- apply Hpb, Hp'.
        -- rewrite Hpage, Hblk, decide_True by reflexivity. exact Hpg.
        -- rewrite Hblk, decide_True by reflexivity. exact Hr.
        -- rewrite Hblk, decide_True by reflexivity. exact Ht.
        -- rewrite Hblk, decide_True by reflexivity. cbn [block_top].
           eapply carved_ext; [|exact Hcv]. intros y _. apply Hhd.
        -- intros y Hy. apply Hpc', Hcp, Hy.
        -- rewrite Hblk, decide_True by reflexivity. cbn [block_free free_chain].
           split; [reflexivity|]. split; [unfold NULL; lia|].
           rewrite Hfrd, decide_True by reflexivity. cbn [freed_prev freed_next].
           split; [reflexivity|].
           destruct (FL sh b) as [|y l] eqn:E.
           ++ exact Hf.
           ++ destruct Hf as (Hy & Hyn & Hyp & Hf). cbn [free_chain].
              assert (Hyc : y <> c) by (intros ->; apply Hnotin, list_elem_of_here).
              split; [exact Hy|]. split; [exact Hyn|].
              rewrite Hfrd, decide_False by exact Hyc.
              rewrite decide_True by (rewrite Hy; tauto). cbn [freed_prev freed_next].
              split; [reflexivity|].
              eapply free_chain_ext; [|exact Hf]. intros z Hz.
              apply NoDup_cons in Hnd as [Hyl _].
              rewrite Hfrd, decide_False.
              2:{ intros ->. apply Hnotin. by apply list_elem_of_further. }
              rewrite decide_False; [auto|]. rewrite Hy. intros [-> _]. contradiction.
        -- apply NoDup_cons. auto.
        -- intros y Hy. apply elem_of_cons in Hy as [->|Hy]; auto.
        -- intros y Hy. unfold hdr. rewrite Hfrd.
           destruct (decide (y = c)) as [->|Hyc].
           ++ cbn [freed_header chunk_flags]. rewrite land_allocd_cleared.
              split; [intros _; apply list_elem_of_here | reflexivity].
           ++ assert (Hfl' : chunk_flags (freed_header
                       (if decide (y = block_free (blk s b) /\ block_free (blk s b) <> NULL)
                        then mkFREED (freed_header (frd s y)) (freed_next (frd s y)) c
                        else frd s y)) = chunk_flags (hdr s y)).
              { destruct (decide _); reflexivity. }
              rewrite Hfl', (Hfl y Hy). rewrite elem_of_cons. tauto.
      * rewrite fn_lookup_insert_ne by congruence.
        eapply block_ok_ext; [apply (inv_blocks _ _ _ H x Hx) | exact Hpage | | | | | |].
        -- apply Hpb, (bo_present _ _ _ _ (inv_blocks _ _ _ H x Hx)).
        -- by rewrite Hblk, decide_False.
        -- by rewrite Hblk, decide_False.
        -- by rewrite Hblk, decide_False.
        -- by rewrite Hblk, decide_False.
        -- intros y Hy. unfold hdr. rewrite (Hother x y Hx Hxb Hy).
           repeat split.
           apply Hpc', (bo_chunks_present _ _ _ _ (inv_blocks _ _ _ H x Hx)), Hy.
    + intros q Hq. apply (inv_returned _ _ _ H q Hq).
Qed.

End Free.

(** ** Recycling: taking a record out of its free-list *)

Section Recycle.
Context {abi : ABI}.

(** Where [c] sits in a free-list decides its two links. *)
Lemma free_chain_at s c l2 : forall l1 pv p,
  free_chain s pv p (l1 ++ c :: l2) ->
  freed_next (frd s c) = hd NULL l2 /\
  freed_prev (frd s c) = match l1 with [] => pv | _ => List.last l1 NULL end /\
  c <> NULL.
Proof.
  induction l1 as [|x l1 IH]; intros pv p Hc.
  - destruct Hc as (_ & Hn & Hpv & Hc). split; [|auto].
    eapply free_chain_head, Hc.
  - destruct Hc as (_ & _ & _ & Hc). destruct (IH _ _ Hc) as (Hn & Hp & H0).
    split; [exact Hn|]. split; [|exact H0]. rewrite Hp.
    destruct l1; reflexivity.
Qed.

(** The list that remains when the links around [c] are rejoined. *)
Lemma free_chain_unlink s s' c l2 : forall l1 pv p,
  free_chain s pv p (l1 ++ c :: l2) ->
  NoDup (pv :: l1 ++ c :: l2) ->
  (forall x, x <> c ->
     freed_prev (frd s' x)
     = (if decide (x = freed_next (frd s c) /\ freed_next (frd s c) <> NULL)
        then freed_prev (frd s c) else freed_prev (frd s x)) /\
     freed_next (frd s' x)
     = (if decide (x = freed_prev (frd s c) /\ freed_prev (frd s c) <> NULL)
        then freed_next (frd s c) else freed_next (frd s x))) ->
  free_chain s' pv (match l1 with [] => freed_next (frd s c) | _ => p end)
             (l1 ++ l2).
Proof.
  induction l1 as [|x l1 IH]; intros pv p Hc Hnd Hs'.
  - destruct (free_chain_at _ _ _ _ _ _ Hc) as (Hn & Hp & _). cbn in Hp.
    destruct Hc as (-> & Hc0 & _ & Hc). cbn [app] in *.
    apply NoDup_cons in Hnd as [Hpv Hnd]. apply NoDup_cons in Hnd as [Hcl Hnd].
    destruct l2 as [|y l2]; [exact Hc|].
    destruct Hc as (Hy & Hy0 & Hyp & Hc). cbn [free_chain].
    assert (Hyc : y <> c) by (intros ->; apply Hcl, list_elem_of_here).
    assert (Hypv : y <> pv).
    { intros ->. apply Hpv. apply list_elem_of_further, list_elem_of_here. }
    destruct (Hs' y Hyc) as [Hp' Hn']. rewrite Hp', Hn'.
    rewrite (decide_True (P := y = freed_next (frd s c) /\ freed_next (frd s c) <> NULL))
      by (rewrite Hy; auto).
    rewrite (decide_False (P := y = freed_prev (frd s c) /\ freed_prev (frd s c) <> NULL))
      by (rewrite Hp; tauto).
    repeat split; try assumption.
    eapply free_chain_ext; [|exact Hc]. intros z Hz.
    apply NoDup_cons in Hnd as [Hyl _].
    assert (Hzc : z <> c) by (intros ->; apply Hcl; by apply list_elem_of_further).
    destruct (Hs' z Hzc) as [-> ->].
    rewrite (decide_False (P := z = freed_next (frd s c) /\ freed_next (frd s c) <> NULL))
      by (rewrite Hy; intros [-> _]; contradiction).
    rewrite (decide_False (P := z = freed_prev (frd s c) /\ freed_prev (frd s c) <> NULL));
      [auto|]. rewrite Hp. intros [-> _].
    apply Hpv. by do 2 apply list_elem_of_further.
  - destruct (free_chain_at _ _ _ _ _ _ Hc) as (Hn & Hp & _).
    destruct Hc as (-> & Hx0 & Hxp & Hc). cbn [app free_chain].
    apply NoDup_cons in Hnd as [Hpv Hnd].
    change ((x :: l1) ++ c :: l2) with (x :: (l1 ++ c :: l2)) in Hnd.
    pose proof Hnd as Hnd'. apply NoDup_cons in Hnd' as [Hxl Hnd''].
    assert (Hnd' : NoDup (x :: l1 ++ c :: l2)) by exact Hnd.
    assert (Hxc : x <> c).
    { intros ->. apply Hxl. apply elem_of_app. right. apply list_elem_of_here. }
    destruct (Hs' x Hxc) as [Hp' Hn']. rewrite Hp', Hn'.
    rewrite (decide_False (P := x = freed_next (frd s c) /\ freed_next (frd s c) <> NULL)).
    2:{ rewrite Hn. intros [-> Hnn]. apply Hxl. apply elem_of_app. right.
        apply list_elem_of_further. destruct l2; [contradiction|apply list_elem_of_here]. }
    split; [reflexivity|]. split; [exact Hx0|]. split; [exact Hxp|].
    specialize (IH x (freed_next (frd s x)) Hc Hnd' Hs').
    assert (Hxl1 : x ∉ l1).
    { intros Hin. apply Hxl. apply elem_of_app. by left. }
    destruct l1 as [|y l1].
    + cbn in Hp. rewrite decide_True by (rewrite Hp; auto). exact IH.
    + rewrite decide_False; [exact IH|]. rewrite Hp. intros [Heq _].
      rewrite last_cons_cons in Heq.
      assert (Hl : List.last (y :: l1) NULL ∈ y :: l1)
        by (apply last_elem_of; congruence).
      rewrite <- Heq in Hl. contradiction.
Qed.

(** What the store holds after [dequeue]. *)
Lemma dequeue_reads b c s :
  let n := freed_next (frd s c) in
  let pv := freed_prev (frd s c) in
  n <> c -> pv <> c ->
  let s' := dequeue b c s in
  (HEAP_TOP s' = HEAP_TOP s /\ HEAP_BOTTOM s' = HEAP_BOTTOM s /\
   PAGESIZE s' = PAGESIZE s /\ __first_block s' = __first_block s /\
   __last_block s' = __last_block s) /\
  (forall x, blk s' x =
     if decide (x = b /\ c = block_free (blk s b))
     then mkBLOCK (block_prev (blk s b)) (block_next (blk s b))
                  (block_size (blk s b)) (block_remaining (blk s b))
                  (block_top (blk s b)) n
     else blk s x) /\
  frd s' c = frd s c /\
  (forall x, x <> c ->
     hdr s' x = hdr s x /\
     freed_prev (frd s' x)
     = (if decide (x = n /\ n <> NULL) then pv else freed_prev (frd s x)) /\
     freed_next (frd s' x)
     = (if decide (x = pv /\ pv <> NULL) then n else freed_next (frd s x))) /\
  (forall x, is_Some (blocks s !! x) -> is_Some (blocks s' !! x)) /\
  (forall x, is_Some (chunks s !! x) -> is_Some (chunks s' !! x)).
Proof.
  intros n pv Hn Hpv s'. subst s'. unfold dequeue.
  set (s1 := if c =? block_free (blk s b)
             then set_block_free b (freed_next (frd s c)) s else s).
  assert (Hs1f : forall x, frd s1 x = frd s x).
  { intros x. subst s1. destruct (c =? block_free (blk s b)); reflexivity. }
  assert (Hs1b : forall x, blk s1 x =
     if decide (x = b /\ c = block_free (blk s b))
     then mkBLOCK (block_prev (blk s b)) (block_next (blk s b))
                  (block_size (blk s b)) (block_remaining (blk s b))
                  (block_top (blk s b)) n
     else blk s x).
  { intros x. subst s1. destruct (Z.eqb_spec c (block_free (blk s b))) as [E|E].
    - unfold_sets. destruct (decide (x = b)) as [->|Hx]; store_simpl.
      + rewrite decide_True by tauto. reflexivity.
      + rewrite decide_False by tauto. reflexivity.
    - rewrite decide_False by tauto. reflexivity. }
  assert (Hs1g : HEAP_TOP s1 = HEAP_TOP s /\ HEAP_BOTTOM s1 = HEAP_BOTTOM s /\
     PAGESIZE s1 = PAGESIZE s /\ __first_block s1 = __first_block s /\
     __last_block s1 = __last_block s).
  { subst s1. destruct (c =? block_free (blk s b)); repeat split; reflexivity. }
  assert (Hs1pb : forall x, is_Some (blocks s !! x) -> is_Some (blocks s1 !! x)).
  { intros x Hx. subst s1. destruct (c =? block_free (blk s b)); [still_present|exact Hx]. }
  assert (Hs1pc : forall x, is_Some (chunks s !! x) -> is_Some (chunks s1 !! x)).
  { intros x Hx. subst s1. destruct (c =? block_free (blk s b)); exact Hx. }
  clearbody s1. rewrite !Hs1f. fold n pv.
  set (s2 := if negb (n =? NULL) then set_freed_prev n pv s1 else s1).
  assert (Hs2c : frd s2 c = frd s c).
  { subst s2. destruct (n =? NULL); cbn [negb]; [apply Hs1f|].
    unfold_sets. store_simpl. apply Hs1f. }
  rewrite Hs2c. fold n pv.
  set (s3 := if negb (pv =? NULL) then set_freed_next pv n s2 else s2).
  assert (Hnc : c <> n) by congruence. assert (Hpc : c <> pv) by congruence.
  split.
  { subst s3 s2. destruct (pv =? NULL), (n =? NULL); cbn [negb]; exact Hs1g. }
  split.
  { intros x. rewrite <- Hs1b. subst s3 s2.
    destruct (pv =? NULL), (n =? NULL); reflexivity. }
  split.
  { subst s3. destruct (pv =? NULL); cbn [negb]; [exact Hs2c|].
    unfold_sets. store_simpl. exact Hs2c. }
  split.
  { intros x Hx.
    assert (Hs2 : hdr s2 x = hdr s x /\
       freed_prev (frd s2 x)
       = (if decide (x = n /\ n <> NULL) then pv else freed_prev (frd s x)) /\
       freed_next (frd s2 x) = freed_next (frd s x)).
    { subst s2. destruct (Z.eqb_spec n NULL) as [E|E]; cbn [negb].
      - rewrite decide_False by tauto. unfold hdr. rewrite Hs1f. auto.
      - unfold_sets. destruct (decide (x = n)) as [->|Hxn]; store_simpl.
        + rewrite decide_True by tauto. rewrite !Hs1f. auto.
        + rewrite decide_False by tauto. rewrite !Hs1f. auto. }
    destruct Hs2 as (Hh2 & Hp2 & Hn2). clearbody s2.
    subst s3. destruct (Z.eqb_spec pv NULL) as [E|E]; cbn [negb].
    - rewrite (decide_False (P := x = pv /\ pv <> NULL)) by tauto. auto.
    - unfold_sets. destruct (decide (x = pv)) as [->|Hxp]; store_simpl.
      + rewrite (decide_True (P := pv = pv /\ pv <> NULL)) by tauto.
        unfold hdr in Hh2. auto.
      + rewrite (decide_False (P := x = pv /\ pv <> NULL)) by tauto.
        unfold hdr in Hh2. auto. }
  split.
  { intros x Hx. subst s3 s2.
    destruct (pv =? NULL), (n =? NULL); cbn [negb]; try still_present; auto.
    all: apply Hs1pb in Hx; still_present. }
  { intros x Hx. subst s3 s2. apply Hs1pc in Hx.
    destruct (pv =? NULL), (n =? NULL); cbn [negb]; try still_present; auto. }
Qed.

Lemma set_chunk_header_reads c h s :
  let s' := set_chunk_header c h s in
  (forall x, hdr s' x = if decide (x = c) then h else hdr s x) /\
  (forall x, freed_next (frd s' x) = freed_next (frd s x)) /\
  (forall x, freed_prev (frd s' x) = freed_prev (frd s x)) /\
  (forall x, is_Some (chunks s !! x) -> is_Some (chunks s' !! x)) /\
  is_Some (chunks s' !! c).
Proof.
  intros s'. subst s'. repeat split.
  - intros x. unfold_sets. destruct (decide (x = c)) as [->|Hx]; store_simpl; reflexivity.
  - intros x. unfold_sets. destruct (decide (x = c)) as [->|Hx]; store_simpl; reflexivity.
  - intros x. unfold_sets. destruct (decide (x = c)) as [->|Hx]; store_simpl; reflexivity.
  - intros x Hx. still_present.
  - unfold_sets. unfold store_FREED. cbn [chunks]. rewrite lookup_insert_eq. eauto.
Qed.

Lemma NoDup_remove_middle (l1 l2 : list Z) c :
  NoDup (l1 ++ c :: l2) -> NoDup (l1 ++ l2) /\ c ∉ l1 ++ l2.
Proof.
  intros H. apply NoDup_app in H as (H1 & H12 & H2).
  apply NoDup_cons in H2 as [Hc H2]. split.
  - apply NoDup_app. repeat split; [exact H1| |exact H2].
    intros x Hx Hx2. apply (H12 x Hx). by apply list_elem_of_further.
  - intros Hin. apply elem_of_app in Hin as [Hin|Hin]; [|contradiction].
    apply (H12 c Hin). apply list_elem_of_here.
Qed.

(** Taking [c] out of the free-list of [b] and marking it allocated, as
    [smalloc] does with the record [__use_freed_chunk] returns. *)
Lemma recycle_inv s P sh b c l1 l2 :
  Inv s P sh -> b ∈ BL sh -> FL sh b = l1 ++ c :: l2 ->
  let s1 := dequeue b c s in
  let s2 := set_chunk_flags c (Z.lor (chunk_flags (hdr s1 c)) ALLOCD) s1 in
  Inv s2 ((c + sizeof_CHUNK) :: P) (with_FL b (l1 ++ l2) sh) /\
  chunk_size (hdr s2 c) = chunk_size (hdr s c) /\
  Z.land (chunk_flags (hdr s2 c)) ALLOCD <> 0 /\
  c ∈ CL sh b.
Proof.
  intros H Hb HFL s1 s2.
  pose proof (inv_blocks _ _ _ H b Hb) as Hok.
  destruct Hok as [Hp' Hpg Hr Ht Hcv Hcp Hf Hnd Hfc Hfl]. rewrite HFL in *.
  destruct (free_chain_at _ _ _ _ _ _ Hf) as (Hn & Hpv & Hc0).
  destruct (NoDup_remove_middle _ _ _ Hnd) as [Hnd' Hcnot].
  assert (HcCL : c ∈ CL sh b).
  { apply Hfc. apply elem_of_app. right. apply list_elem_of_here. }
  assert (Hnc : freed_next (frd s c) <> c).
  { rewrite Hn. destruct l2 as [|y l2]; cbn; [congruence|]. intros ->.
    apply Hcnot. apply elem_of_app. right. apply list_elem_of_here. }
  assert (Hpc : freed_prev (frd s c) <> c).
  { rewrite Hpv. destruct l1 as [|y l1]; [congruence|]. intros Heq.
    apply Hcnot. apply elem_of_app. left. rewrite <- Heq. apply last_elem_of. congruence. }
  assert (Hnin : freed_next (frd s c) <> NULL -> freed_next (frd s c) ∈ l1 ++ l2).
  { rewrite Hn. destruct l2 as [|y l2]; cbn; [congruence|]. intros _.
    apply elem_of_app. right. apply list_elem_of_here. }
  assert (Hpin : freed_prev (frd s c) <> NULL -> freed_prev (frd s c) ∈ l1 ++ l2).
  { rewrite Hpv. destruct l1 as [|y l1]; [congruence|]. intros _.
    apply elem_of_app. left. apply last_elem_of. congruence. }
  assert (Hsub : forall y, y ∈ l1 ++ l2 -> y ∈ l1 ++ c :: l2).
  { intros y Hy. apply elem_of_app in Hy as [Hy|Hy]; apply elem_of_app; [by left|].
    right. by apply list_elem_of_further. }
  destruct (dequeue_reads b c s Hnc Hpc) as (Hglob & Hblk & Hfc1 & Hfrd & Hpb & Hpch).
  fold s1 in Hglob, Hblk, Hfc1, Hfrd, Hpb, Hpch.
  destruct (set_chunk_header_reads c
              (mkCHUNK (chunk_block (hdr s1 c)) (chunk_size (hdr s1 c))
                       (Z.lor (chunk_flags (hdr s1 c)) ALLOCD)) s1)
    as (Hh2 & Hn2 & Hp2 & Hpc2 & _).
  change (set_chunk_header c _ s1) with s2 in Hh2, Hn2, Hp2, Hpc2.
  assert (Hb2 : forall x, blk s2 x = blk s1 x) by reflexivity.
  assert (Hg2 : HEAP_TOP s2 = HEAP_TOP s /\ PAGESIZE s2 = PAGESIZE s /\
                __first_block s2 = __first_block s /\ __last_block s2 = __last_block s).
  { destruct Hglob as (? & ? & ? & ? & ?). repeat split; assumption. }
  assert (Hpb2 : forall x, is_Some (blocks s !! x) -> is_Some (blocks s2 !! x)).
  { intros x Hx. apply Hpb in Hx. exact Hx. }
  assert (Hh1c : hdr s1 c = hdr s c) by (unfold hdr; by rewrite Hfc1).
  rewrite Hh1c in Hh2.
  assert (Hbs : chunk_block (hdr s c) = b /\ sizeof_FREED <= chunk_size (hdr s c)).
  { destruct (inv_chunk _ _ _ _ _ H Hb HcCL) as (_ & _ & ? & ?). auto. }
  assert (Hhdr : forall x, chunk_block (hdr s2 x) = chunk_block (hdr s x) /\
                           chunk_size (hdr s2 x) = chunk_size (hdr s x)).
  { intros x. rewrite Hh2. destruct (decide (x = c)) as [->|Hx]; [auto|].
    destruct (Hfrd x Hx) as (-> & _). auto. }
  assert (Hsizes : forall x, block_size (blk s2 x) = block_size (blk s x) /\
            block_remaining (blk s2 x) = block_remaining (blk s x) /\
            block_top (blk s2 x) = block_top (blk s x) /\
            block_next (blk s2 x) = block_next (blk s x)).
  { intros x. rewrite Hb2, Hblk.
    destruct (decide (x = b /\ c = block_free (blk s b))) as [[-> _]|_]; auto. }
  destruct Hg2 as (Htop & Hpage & Hfirst & Hlast).
  split; [|split; [apply Hhdr | split; [|exact HcCL]]].
  2:{ rewrite Hh2, decide_True by reflexivity. apply land_allocd_set. }
  constructor.
  - rewrite Htop. apply (inv_top _ _ _ H).
  - apply (inv_nodup _ _ _ H).
  - rewrite Hfirst. eapply block_chain_ext; [|apply (inv_chain _ _ _ H)].
    intros x _. apply Hsizes.
  - rewrite Hlast. apply (inv_last _ _ _ H).
  - rewrite Htop. eapply stacked_ext; [|apply (inv_stacked _ _ _ H)].
    intros x _. apply Hsizes.
  - intros x Hx. cbn [with_FL BL CL FL].
    destruct (decide (x = b)) as [->|Hxb].
    + rewrite fn_lookup_insert.
      constructor.
      * apply Hpb2, Hp'.
      * rewrite Hpage, (proj1 (Hsizes b)). exact Hpg.
      * destruct (Hsizes b) as (_ & -> & _). exact Hr.
      * destruct (Hsizes b) as (-> & -> & -> & _). exact Ht.
      * destruct (Hsizes b) as (_ & _ & -> & _).
        eapply carved_ext; [|exact Hcv]. intros y _. apply Hhdr.
      * intros y Hy. apply Hpc2, Hpch, Hcp, Hy.
      * eapply (free_chain_ext s1 s2).
        { intros y _. rewrite Hn2, Hp2. auto. }
        assert (Hfree : block_free (blk s2 b)
                = match l1 with [] => freed_next (frd s c)
                                | _ => block_free (blk s b) end).
        { rewrite Hb2, Hblk. pose proof (free_chain_head _ _ _ _ Hf) as Hhd.
          destruct l1 as [|y l1]; cbn in Hhd.
          - rewrite decide_True by auto. reflexivity.
          - rewrite decide_False; [reflexivity|]. intros [_ Heq].
            apply Hcnot. rewrite Heq, Hhd. apply list_elem_of_here. }
        rewrite Hfree. apply (free_chain_unlink s s1 c l2 l1 NULL _ Hf).
        -- apply NoDup_cons. split; [|exact Hnd].
           intros Hin. by apply (free_chain_nonnull _ _ _ _ _ Hf Hin).
        -- intros y Hy. destruct (Hfrd y Hy) as (_ & ? & ?). auto.
      * exact Hnd'.
      * intros y Hy. apply Hfc, Hsub, Hy.
      * intros y Hy. rewrite Hh2. destruct (decide (y = c)) as [->|Hyc].
        -- cbn [chunk_flags]. split; [|contradiction].
           intros E. by apply land_allocd_set in E.
        -- destruct (Hfrd y Hyc) as (-> & _). rewrite (Hfl y Hy).
           rewrite !elem_of_app, elem_of_cons. tauto.
    + rewrite fn_lookup_insert_ne by congruence.
      pose proof (inv_blocks _ _ _ H x Hx) as Hokx.
      assert (Hblkx : blk s2 x = blk s x).
      { rewrite Hb2, Hblk. by rewrite decide_False by tauto. }
      eapply block_ok_ext; [exact Hokx | exact Hpage | | | | | |];
        rewrite ?Hblkx; try reflexivity.
      * apply Hpb2, (bo_present _ _ _ _ Hokx).
      * intros y Hy.
        assert (Hyb : y ∉ CL sh b).
        { intros Hy'. apply Hxb. eapply inv_owner; eauto. }
        assert (Hyc : y <> c) by (intros ->; contradiction).
        destruct (Hfrd y Hyc) as (Hh & Hpr & Hnx).
        rewrite Hh2, decide_False by exact Hyc. rewrite Hn2, Hp2, Hh, Hpr, Hnx.
        rewrite !decide_False; [repeat split|..].
        -- apply Hpc2, Hpch, (bo_chunks_present _ _ _ _ Hokx), Hy.
        -- intros [-> Hne]. apply Hyb, Hfc, Hsub, Hnin, Hne.
        -- intros [-> Hne]. apply Hyb, Hfc, Hsub, Hpin, Hne.
  - intros q Hq. apply elem_of_cons in Hq as [->|Hq].
    + exists b, c. auto.
    + apply (inv_returned _ _ _ H q Hq).
Qed.

End Recycle.

(** ** Carving from a block *)

Section Carve.
Context {abi : ABI}.

Lemma carve_reads b R s :
  let t := block_top (blk s b) in
  let s' := snd (carve b R s) in
  fst (carve b R s) = wrap (t + sizeof_CHUNK) /\
  (HEAP_TOP s' = HEAP_TOP s /\ HEAP_BOTTOM s' = HEAP_BOTTOM s /\
   PAGESIZE s' = PAGESIZE s /\ __first_block s' = __first_block s /\
   __last_block s' = __last_block s) /\
  (forall x, blk s' x =
     if decide (x = b)
     then mkBLOCK (block_prev (blk s b)) (block_next (blk s b))
                  (block_size (blk s b))
                  (wrap (block_remaining (blk s b) - R))
                  (wrap (t + R)) (block_free (blk s b))
     else blk s x) /\
  (forall x, hdr s' x = if decide (x = t) then mkCHUNK b R ALLOCD else hdr s x) /\
  (forall x, freed_next (frd s' x) = freed_next (frd s x)) /\
  (forall x, freed_prev (frd s' x) = freed_prev (frd s x)) /\
  (forall x, is_Some (blocks s !! x) -> is_Some (blocks s' !! x)) /\
  (forall x, is_Some (chunks s !! x) -> is_Some (chunks s' !! x)) /\
  is_Some (chunks s' !! t).
Proof.
  intros t s'. subst s'. unfold carve. fold t. cbn [fst snd].
  set (s2 := set_block_remaining b _ _).
  destruct (set_chunk_header_reads t (mkCHUNK b R ALLOCD) s2)
    as (Hh & Hn & Hp & Hpc & Hpt).
  split; [reflexivity|]. split; [repeat split|].
  split.
  { intros x. subst s2. change (blk (set_chunk_header t _ ?s) x) with (blk s x).
    unfold_sets. destruct (decide (x = b)) as [->|Hx]; store_simpl; reflexivity. }
  split; [exact Hh|]. split; [exact Hn|]. split; [exact Hp|].
  split; [|split].
  - intros x Hx. subst s2. still_present.
  - intros x Hx. apply Hpc. exact Hx.
  - exact Hpt.
Qed.

(** A block with room for [R] bytes gives its next chunk. *)
Lemma carve_inv s P sh b R :
  Inv s P sh -> b ∈ BL sh ->
  sizeof_FREED <= R -> R <= block_remaining (blk s b) ->
  let t := block_top (blk s b) in
  let s' := snd (carve b R s) in
  fst (carve b R s) = t + sizeof_CHUNK /\
  Inv s' ((t + sizeof_CHUNK) :: P) (with_CL b (CL sh b ++ [t]) sh) /\
  hdr s' t = mkCHUNK b R ALLOCD /\
  (forall x, x <> t -> hdr s' x = hdr s x) /\
  block_remaining (blk s' b) = block_remaining (blk s b) - R /\
  t <> NULL.
Proof.
  intros H Hb HR Hrem t s'.
  pose proof sizeof_CHUNK_pos as HC. pose proof sizeof_FREED_links as HF.
  pose proof sizeof_BLOCK_pos as HB. pose proof (inv_top _ _ _ H) as HT.
  destruct (inv_block _ _ _ _ H Hb) as (Hb0 & Hbh & Hbt & Htb & Hbtop & Hr0 & Hr1).
  pose proof (inv_blocks _ _ _ H b Hb) as Hok.
  pose proof (bo_top _ _ _ _ Hok) as Htop. fold t in Hbt, Htb, Htop.
  destruct (carve_reads b R s) as (Hfst & Hglob & Hblk & Hhdr & Hnx & Hpv & Hpb & Hpc & Hpt).
  fold t s' in Hfst, Hglob, Hblk, Hhdr, Hnx, Hpv, Hpb, Hpc, Hpt.
  rewrite (wrap_small (t + R)) in Hblk by lia.
  rewrite (wrap_small (block_remaining (blk s b) - R)) in Hblk by lia.
  rewrite wrap_small in Hfst by lia.
  destruct Hglob as (Htop' & _ & Hpage & Hfirst & Hlast).
  assert (Hfresh : forall x, x ∈ BL sh -> t ∉ CL sh x).
  { intros x Hx Hin.
    destruct (inv_chunk _ _ _ _ _ H Hx Hin) as (Hlo & Hhi & _ & Hsz).
    destruct (inv_block _ _ _ _ H Hx) as (Hx0 & Hxh & Hxt & Htx & _).
    destruct (decide (x = b)) as [->|Hxb]; [fold t in Hhi; lia|].
    destruct (stacked_apart _ _ _ _ _ (inv_stacked _ _ _ H) Hx Hb Hxb); lia. }
  assert (Hsame : forall x, x ∈ BL sh -> forall y, y ∈ CL sh x -> hdr s' y = hdr s y).
  { intros x Hx y Hy. rewrite Hhdr, decide_False; [reflexivity|].
    intros ->. by apply (Hfresh x Hx). }
  split; [exact Hfst|]. split.
  2:{ split; [by rewrite Hhdr, decide_True|]. split.
      - intros x Hx. by rewrite Hhdr, decide_False.
      - split; [by rewrite Hblk, decide_True | unfold NULL; lia]. }
  constructor.
  - rewrite Htop'. exact HT.
  - apply (inv_nodup _ _ _ H).
  - rewrite Hfirst. eapply block_chain_ext; [|apply (inv_chain _ _ _ H)].
    intros x _. rewrite Hblk. destruct (decide (x = b)) as [->|]; reflexivity.
  - rewrite Hlast. apply (inv_last _ _ _ H).
  - rewrite Htop'. eapply stacked_ext; [|apply (inv_stacked _ _ _ H)].
    intros x _. rewrite Hblk. destruct (decide (x = b)) as [->|]; reflexivity.
  - intros x Hx. cbn [with_CL BL CL FL].
    destruct (decide (x = b)) as [->|Hxb].
    + rewrite fn_lookup_insert.
      destruct Hok as [Hp' Hpg Hr Ht Hcv Hcp Hf Hnd Hfc Hfl]. fold t in Hcv.
      constructor; rewrite ?Hblk, ?decide_True by reflexivity;
        cbn [block_size block_remaining block_top block_free].
      * apply Hpb, Hp'.
      * rewrite Hpage. exact Hpg.
      * lia.
      * lia.
      * eapply carved_snoc; [exact Hcv | | | | exact HR].
        -- intros y Hy. by rewrite (Hsame b Hb y Hy).
        -- by rewrite Hhdr, decide_True.
        -- by rewrite Hhdr, decide_True.
      * intros y Hy. apply elem_of_app in Hy as [Hy|Hy].
        -- apply Hpc, Hcp, Hy.
        -- apply list_elem_of_singleton in Hy as ->. exact Hpt.
      * eapply free_chain_ext; [|exact Hf]. intros y _. auto.
      * exact Hnd.
      * intros y Hy. apply elem_of_app. left. auto.
      * intros y Hy. apply elem_of_app in Hy as [Hy|Hy].
        -- rewrite (Hsame b Hb y Hy). apply Hfl, Hy.
        -- apply list_elem_of_singleton in Hy as ->.
           rewrite Hhdr, decide_True by reflexivity. cbn [chunk_flags].
           split; [discriminate|]. intros Hin. exfalso.
           apply (Hfresh b Hb). auto.
    + rewrite fn_lookup_insert_ne by congruence.
      pose proof (inv_blocks _ _ _ H x Hx) as Hokx.
      assert (Hblkx : blk s' x = blk s x) by (by rewrite Hblk, decide_False).
      eapply block_ok_ext; [exact Hokx | exact Hpage | | | | | |];
        rewrite ?Hblkx; try reflexivity.
      * apply Hpb, (bo_present _ _ _ _ Hokx).
      * intros y Hy. rewrite (Hsame x Hx y Hy). repeat split; auto.
        apply Hpc, (bo_chunks_present _ _ _ _ Hokx), Hy.
  - intros q Hq. cbn [with_CL BL CL FL]. apply elem_of_cons in Hq as [->|Hq].
    + exists b, t. rewrite fn_lookup_insert. repeat split; [exact Hb|].
      apply elem_of_app. right. apply list_elem_of_here.
    + destruct (inv_returned _ _ _ H q Hq) as (x & c & Hx & Hc & ->).
      exists x, c. repeat split; [exact Hx|].
      destruct (decide (x = b)) as [->|Hxb].
      * rewrite fn_lookup_insert. apply elem_of_app. by left.
      * by rewrite fn_lookup_insert_ne by congruence.
Qed.

End Carve.

(** ** Growing the heap by a block *)

Section Grow.
Context {abi : ABI}.

Lemma new_block_reads R s :
  let size := new_block_size R s in
  let b := wrap (new_block_start s - size) in
  ~ (b < HEAP_BOTTOM s) -> b <> __last_block s ->
  let s' := snd (__new_block R s) in
  fst (__new_block R s) = b /\
  (HEAP_TOP s' = HEAP_TOP s /\ HEAP_BOTTOM s' = HEAP_BOTTOM s /\
   PAGESIZE s' = PAGESIZE s /\ __last_block s' = b /\
   __first_block s' = if __first_block s =? NULL then b else __first_block s) /\
  blk s' b = mkBLOCK (__last_block s) NULL size (wrap (size - BLOCK_HEADER_SZ))
                     (wrap (b + BLOCK_HEADER_SZ)) NULL /\
  (forall x, x <> b ->
     block_size (blk s' x) = block_size (blk s x) /\
     block_remaining (blk s' x) = block_remaining (blk s x) /\
     block_top (blk s' x) = block_top (blk s x) /\
     block_free (blk s' x) = block_free (blk s x) /\
     block_next (blk s' x)
     = if decide (x = __last_block s /\ __first_block s <> NULL)
       then b else block_next (blk s x)) /\
  chunks s' = chunks s /\
  (forall x, is_Some (blocks s !! x) -> is_Some (blocks s' !! x)) /\
  is_Some (blocks s' !! b).
Proof.
  intros size b Hge Hbl s'. subst s'. unfold __new_block. fold size. fold b.
  destruct (Z.ltb_spec b (HEAP_BOTTOM s)) as [?|_]; [contradiction|].
  change (__first_block (store_BLOCK b _ s)) with (__first_block s).
  change (__last_block (store_BLOCK b _ s)) with (__last_block s).
  destruct (Z.eqb_spec (__first_block s) NULL) as [Hf|Hf]; cbn [fst snd].
  - split; [reflexivity|]. split; [repeat split|].
    split; [store_simpl; reflexivity|].
    split.
    { intros x Hx. store_simpl. rewrite decide_False by tauto. auto. }
    split; [reflexivity|]. split.
    + intros x Hx. still_present.
    + unfold store_BLOCK, set_first_last. cbn [blocks]. rewrite lookup_insert_eq. eauto.
  - split; [reflexivity|]. split; [repeat split|].
    split; [unfold_sets; store_simpl; reflexivity|].
    split.
    { intros x Hx. unfold_sets.
      destruct (decide (x = __last_block s)) as [->|Hxl]; store_simpl.
      - rewrite decide_True by tauto. auto.
      - rewrite decide_False by tauto. auto. }
    split; [reflexivity|]. split.
    + intros x Hx. still_present.
    + unfold_sets. unfold store_BLOCK, set_first_last. cbn [blocks].
      apply lookup_insert_is_Some'. right. rewrite lookup_insert_eq. eauto.
Qed.

Lemma last_snoc_list (l : list Z) b d : List.last (l ++ [b]) d = b.
Proof. apply List.last_last. Qed.

(** When the arithmetic stays in range, [__new_block] either stops at
    the bottom boundary, changing nothing, or appends a block. *)
Lemma new_block_inv s P sh R :
  Inv s P sh -> 0 <= R ->
  let size := Z.max (PAGESIZE s) (R + sizeof_BLOCK) in
  let start := if __last_block s =? NULL then HEAP_TOP s
               else __last_block s - sizeof_BLOCK in
  size < start ->
  new_block_size R s = size /\
  new_block_start s = start /\
  wrap (start - size) = start - size /\
  (start - size < HEAP_BOTTOM s -> __new_block R s = (NULL, s)) /\
  (HEAP_BOTTOM s <= start - size ->
   let b := start - size in
   let s' := snd (__new_block R s) in
   fst (__new_block R s) = b /\ (b ∉ BL sh) /\ b <> NULL /\
   Inv s' P (with_block b sh) /\
   block_remaining (blk s' b) = size - sizeof_BLOCK /\
   block_size (blk s' b) = size /\
   chunks s' = chunks s).
Proof.
  intros H HR size start Hrange.
  pose proof sizeof_BLOCK_pos as HB. pose proof (inv_top _ _ _ H) as HT.
  pose proof (inv_last _ _ _ H) as Hlast.
  pose proof (block_chain_head _ _ _ (inv_chain _ _ _ H)) as Hfirst.
  assert (Hcases : (BL sh = [] /\ __last_block s = NULL /\ __first_block s = NULL) \/
                   (BL sh <> [] /\ __last_block s ∈ BL sh /\ __first_block s <> NULL /\
                    __last_block s <> NULL)).
  { destruct (BL sh) as [|x l] eqn:E.
    - left. auto.
    - right. split; [congruence|].
      assert (Hin : __last_block s ∈ BL sh).
      { rewrite Hlast, E. apply last_elem_of. congruence. }
      split; [by rewrite <- E|]. split.
      + rewrite Hfirst. cbn. apply (block_chain_nonnull _ _ _ x (inv_chain _ _ _ H)).
        rewrite E. apply list_elem_of_here.
      + apply (block_chain_nonnull _ _ _ _ (inv_chain _ _ _ H) Hin). }
  assert (Hlastpos : __last_block s <> NULL ->
            0 < __last_block s /\ __last_block s <= HEAP_TOP s /\
            __last_block s ∈ BL sh).
  { intros Hn. destruct Hcases as [(_ & ? & _)|(_ & Hin & _ & _)]; [contradiction|].
    destruct (stacked_bound _ _ _ _ (inv_stacked _ _ _ H) Hin) as (? & ? & ?).
    repeat split; try assumption; lia. }
  assert (Hstart_le : 0 < start <= HEAP_TOP s).
  { subst start. destruct (Z.eqb_spec (__last_block s) NULL) as [E|E]; [lia|].
    destruct (Hlastpos E) as (? & ? & _). lia. }
  assert (Hsz : new_block_size R s = size).
  { unfold new_block_size, BLOCK_HEADER_SZ. rewrite wrap_small by lia.
    subst size. destruct (Z.ltb_spec (R + sizeof_BLOCK) (PAGESIZE s)); lia. }
  assert (Hst : new_block_start s = start).
  { unfold new_block_start. subst start.
    destruct (Z.eqb_spec (__last_block s) NULL) as [E|E]; [reflexivity|].
    destruct (Hlastpos E) as (? & ? & _). rewrite Z.mul_1_l. apply wrap_small. lia. }
  assert (Hw : wrap (start - size) = start - size) by (apply wrap_small; lia).
  split; [exact Hsz|]. split; [exact Hst|]. split; [exact Hw|]. split.
  - intros Hlow. unfold __new_block. rewrite Hsz, Hst, Hw.
    destruct (Z.ltb_spec (start - size) (HEAP_BOTTOM s)); [reflexivity|lia].
  - intros Hhigh b s'.
    assert (Hbnot : b ∉ BL sh).
    { intros Hin. pose proof (stacked_ge_last _ _ _ _ (inv_stacked _ _ _ H) Hin) as Hge.
      rewrite <- Hlast in Hge. subst b start.
      destruct Hcases as [(E' & _)|(_ & _ & _ & Hn)];
        [rewrite E' in Hin; by apply not_elem_of_nil in Hin|].
      destruct (Z.eqb_spec (__last_block s) NULL) as [E|E]; [contradiction|lia]. }
    assert (Hbl : b <> __last_block s).
    { intros E. destruct Hcases as [(_ & E' & _)|(_ & Hin & _ & _)].
      - unfold NULL in E'. lia.
      - rewrite <- E in Hin. contradiction. }
    destruct (new_block_reads R s) as (Hfst & Hglob & Hblkb & Hblkx & Hch & Hpb & Hpbb);
      rewrite ?Hsz, ?Hst, ?Hw; try (fold b); try lia; try exact Hbl.
    rewrite Hsz, Hst, Hw in Hfst, Hglob, Hblkb, Hblkx, Hpbb. fold b s' in Hfst, Hglob, Hblkb, Hblkx, Hch, Hpb, Hpbb.
    fold s' in Hpb.
    unfold BLOCK_HEADER_SZ in Hblkb.
    rewrite (wrap_small (size - sizeof_BLOCK)) in Hblkb by lia.
    rewrite (wrap_small (b + sizeof_BLOCK)) in Hblkb by (subst b; lia).
    destruct Hglob as (Htop' & _ & Hpage & Hlast' & Hfirst').
    assert (Hfrd : forall y, frd s' y = frd s y) by (intros y; unfold frd; by rewrite Hch).
    split; [exact Hfst|]. split; [exact Hbnot|]. split; [unfold NULL; subst b; lia|].
    split; [|split; [by rewrite Hblkb | split; [by rewrite Hblkb | exact Hch]]].
    constructor; cbn [with_block BL CL FL].
    + rewrite Htop'. exact HT.
    + apply NoDup_app. split; [apply (inv_nodup _ _ _ H)|]. split.
      * intros x Hx Hx'. apply list_elem_of_singleton in Hx' as ->. contradiction.
      * apply NoDup_singleton.
    + assert (Hgoal : __first_block s'
                      = match BL sh with [] => b | _ => __first_block s end).
      { rewrite Hfirst'. destruct Hcases as [(E & _ & ->)|(E & _ & Hn & _)].
        - rewrite E. reflexivity.
        - destruct (Z.eqb_spec (__first_block s) NULL); [contradiction|].
          destruct (BL sh); [congruence|reflexivity]. }
      rewrite Hgoal.
      apply (block_chain_snoc s s' b (BL sh) _ (inv_chain _ _ _ H) (inv_nodup _ _ _ H)).
      * unfold NULL. subst b. lia.
      * intros x Hx. assert (Hxb : x <> b) by (intros ->; contradiction).
        destruct (Hblkx x Hxb) as (_ & _ & _ & _ & ->). rewrite <- Hlast.
        destruct Hcases as [(E & _)|(_ & _ & Hn & _)];
          [rewrite E in Hx; by apply not_elem_of_nil in Hx|].
        destruct (decide (x = __last_block s)) as [->|Hxl].
        -- by rewrite decide_True by tauto.
        -- by rewrite decide_False by tauto.
      * by rewrite Hblkb.
    + rewrite Hlast'. symmetry. apply last_snoc_list.
    + rewrite Htop'. apply stacked_snoc.
      * eapply stacked_ext; [|apply (inv_stacked _ _ _ H)].
        intros x Hx. assert (Hxb : x <> b) by (intros ->; contradiction).
        apply (Hblkx x Hxb).
      * subst b. lia.
      * rewrite Hblkb. cbn [block_size]. subst size. lia.
      * rewrite Hblkb. cbn [block_size]. rewrite <- Hlast. subst b start.
        destruct Hcases as [(E & -> & _)|(E & Hin & _ & Hn)].
        -- rewrite E. cbn. lia.
        -- destruct (Z.eqb_spec (__last_block s) NULL) as [E'|E']; [contradiction|].
           destruct (BL sh); [congruence|lia].
    + intros x Hx. apply elem_of_app in Hx as [Hx|Hx].
      * assert (Hxb : x <> b) by (intros ->; contradiction).
        rewrite !fn_lookup_insert_ne by congruence.
        pose proof (inv_blocks _ _ _ H x Hx) as Hokx.
        destruct (Hblkx x Hxb) as (E1 & E2 & E3 & E4 & _).
        eapply block_ok_ext; [exact Hokx | exact Hpage | | exact E1 | exact E2
                              | exact E3 | exact E4 |].
        -- apply Hpb, (bo_present _ _ _ _ Hokx).
        -- intros y Hy. unfold hdr. rewrite Hfrd, Hch. repeat split.
           apply (bo_chunks_present _ _ _ _ Hokx), Hy.
      * apply list_elem_of_singleton in Hx as ->. rewrite !fn_lookup_insert.
        constructor; rewrite ?Hblkb;
          cbn [block_size block_remaining block_top block_free carved free_chain].
        -- exact Hpbb.
        -- rewrite Hpage. subst size. lia.
        -- subst size. lia.
        -- lia.
        -- reflexivity.
        -- intros y Hy. by apply not_elem_of_nil in Hy.
        -- reflexivity.
        -- apply NoDup_nil_2.
        -- intros y Hy. by apply not_elem_of_nil in Hy.
        -- intros y Hy. by apply not_elem_of_nil in Hy.
    + intros q Hq. destruct (inv_returned _ _ _ H q Hq) as (x & c & Hx & Hc & ->).
      exists x, c. assert (Hxb : x <> b) by (intros ->; contradiction).
      rewrite fn_lookup_insert_ne by congruence.
      repeat split; [|exact Hc]. apply elem_of_app. by left.
Qed.

End Grow.

(** ** smalloc, and every reachable heap *)

Section Alloc.
Context {abi : ABI}.

Lemma alloc_size_bounds n : sizeof_FREED <= alloc_size n < 2 ^ word_bits.
Proof.
  unfold alloc_size. pose proof sizeof_FREED_word.
  pose proof (wrap_is_word (n + sizeof_CHUNK)) as [? ?].
  destruct (Z.ltb_spec (wrap (n + sizeof_CHUNK)) sizeof_FREED); lia.
Qed.

Lemma elem_of_free_entries sh c :
  c ∈ free_entries sh <-> exists b, b ∈ BL sh /\ c ∈ FL sh b.
Proof.
  unfold free_entries. induction (BL sh) as [|x l IH]; cbn [map concat].
  - split; [intros Hc; by apply not_elem_of_nil in Hc|].
    intros (b & Hb & _). by apply not_elem_of_nil in Hb.
  - rewrite elem_of_app, IH. split.
    + intros [Hc|(b & Hb & Hc)].
      * exists x. split; [apply list_elem_of_here|exact Hc].
      * exists b. split; [by apply list_elem_of_further|exact Hc].
    + intros (b & Hb & Hc). apply elem_of_cons in Hb as [->|Hb]; [by left|].
      right. eauto.
Qed.

Lemma use_freed_chunk_spec s P sh minSize maxSize :
  Inv s P sh ->
  __use_freed_chunk minSize maxSize s
  = Some (match find (in_window s minSize maxSize) (free_entries sh) with
          | Some c => (c, dequeue (chunk_block (hdr s c)) c s)
          | None => (NULL, s)
          end).
Proof.
  intros H. unfold __use_freed_chunk, free_entries.
  apply scan_blocks_spec.
  - apply (inv_chain _ _ _ H).
  - apply (inv_block_fuel _ _ _ H).
  - intros b Hb. pose proof (inv_blocks _ _ _ H b Hb) as Hok. split; [|split].
    + apply (bo_free _ _ _ _ Hok).
    + apply (block_ok_free_fuel _ _ _ _ Hok).
    + intros c Hc. apply (bo_free_carved _ _ _ _ Hok) in Hc.
      by destruct (inv_chunk _ _ _ _ _ H Hb Hc) as (_ & _ & ? & _).
Qed.

(** A free-list entry is not null, so a null result of
    [__use_freed_chunk] means that no entry lies in the window. *)
Lemma use_freed_chunk_null s P sh minSize maxSize s1 :
  Inv s P sh ->
  __use_freed_chunk minSize maxSize s = Some (NULL, s1) ->
  find (in_window s minSize maxSize) (free_entries sh) = None.
Proof.
  intros H Hres. rewrite (use_freed_chunk_spec s P sh _ _ H) in Hres.
  destruct (find _ (free_entries sh)) as [c|] eqn:E; [|reflexivity].
  exfalso. injection Hres as Hc _.
  apply find_elem_of in E as [Hin _].
  apply elem_of_free_entries in Hin as (b & Hb & Hin).
  pose proof (bo_free_carved _ _ _ _ (inv_blocks _ _ _ H b Hb) c Hin) as HcCL.
  destruct (inv_chunk_word _ _ _ _ _ H Hb HcCL) as (? & _).
  unfold NULL in Hc. lia.
Qed.

Lemma block_with_free_space_spec s P sh size :
  Inv s P sh ->
  __block_with_free_space size s
  = Some (default NULL
            (find (fun b => block_remaining (blk s b) >=? size) (BL sh))).
Proof.
  intros H. apply space_loop_spec.
  - apply (inv_chain _ _ _ H).
  - apply (inv_block_fuel _ _ _ H).
Qed.

(** The four ways through [smalloc]. *)
Lemma smalloc_cases s P sh n :
  Inv s P sh ->
  (growth_attempted n s -> growth_in_range n s) ->
  let R := alloc_size n in
  let R2 := wrap (Z.shiftl R 1) in
  let size := Z.max (PAGESIZE s) (R + sizeof_BLOCK) in
  let start := if __last_block s =? NULL then HEAP_TOP s
               else __last_block s - sizeof_BLOCK in
  (* recycled *)
  (exists c b l1 l2,
     find (in_window s R R2) (free_entries sh) = Some c /\
     b ∈ BL sh /\ FL sh b = l1 ++ c :: l2 /\ b = chunk_block (hdr s c) /\
     let s2 := set_chunk_flags c
                 (Z.lor (chunk_flags (hdr (dequeue b c s) c)) ALLOCD)
                 (dequeue b c s) in
     smalloc n s = Some (c + sizeof_CHUNK, s2) /\ c <> NULL /\
     Inv s2 ((c + sizeof_CHUNK) :: P) (with_FL b (l1 ++ l2) sh)) \/
  (* carved from a block with room *)
  (find (in_window s R R2) (free_entries sh) = None /\
   exists b, find (fun b => block_remaining (blk s b) >=? R) (BL sh) = Some b /\
     b ∈ BL sh /\ R <= block_remaining (blk s b) /\
     smalloc n s = Some (carve b R s) /\
     fst (carve b R s) = block_top (blk s b) + sizeof_CHUNK /\
     Inv (snd (carve b R s)) ((block_top (blk s b) + sizeof_CHUNK) :: P)
         (with_CL b (CL sh b ++ [block_top (blk s b)]) sh)) \/
  (* out of memory *)
  (find (in_window s R R2) (free_entries sh) = None /\
   find (fun b => block_remaining (blk s b) >=? R) (BL sh) = None /\
   size < start /\ start - size < HEAP_BOTTOM s /\
   smalloc n s = Some (NULL, s)) \/
  (* carved from a new block *)
  (find (in_window s R R2) (free_entries sh) = None /\
   find (fun b => block_remaining (blk s b) >=? R) (BL sh) = None /\
   size < start /\ HEAP_BOTTOM s <= start - size /\
   let b := start - size in
   let s1 := snd (__new_block R s) in
   fst (__new_block R s) = b /\ (b ∉ BL sh) /\ b <> NULL /\
   block_size (blk s1 b) = size /\
   Inv s1 P (with_block b sh) /\
   smalloc n s = Some (carve b R s1) /\
   fst (carve b R s1) = b + sizeof_BLOCK + sizeof_CHUNK /\
   block_top (blk s1 b) = b + sizeof_BLOCK /\
   Inv (snd (carve b R s1)) ((b + sizeof_BLOCK + sizeof_CHUNK) :: P)
       (with_CL b [b + sizeof_BLOCK] (with_block b sh))).
Proof.
  intros H Hcontract R R2 size start.
  pose proof (alloc_size_bounds n) as [HRlo HRhi]. fold R in HRlo, HRhi.
  pose proof sizeof_CHUNK_pos as HC. pose proof sizeof_FREED_links as HF.
  pose proof (use_freed_chunk_spec s P sh R R2 H) as Huse.
  pose proof (block_with_free_space_spec s P sh R H) as Hspace.
  unfold smalloc. fold R. fold R2. rewrite Huse.
  destruct (find (in_window s R R2) (free_entries sh)) as [c|] eqn:Efind.
  - left. apply find_elem_of in Efind as [Hin Hwin].
    apply elem_of_free_entries in Hin as (b & Hb & Hc).
    pose proof (inv_blocks _ _ _ H b Hb) as Hok.
    pose proof (bo_free_carved _ _ _ _ Hok c Hc) as HcCL.
    destruct (inv_chunk _ _ _ _ _ H Hb HcCL) as (_ & _ & Hown & _).
    destruct (inv_chunk_word _ _ _ _ _ H Hb HcCL) as (Hc0 & _ & Hcw).
    apply list_elem_of_split in Hc as (l1 & l2 & HFL).
    exists c, b, l1, l2. rewrite Hown.
    destruct (recycle_inv s P sh b c l1 l2 H Hb HFL) as (Hinv & _).
    assert (Hcn : c <> NULL) by (unfold NULL; lia).
    split; [reflexivity|]. split; [exact Hb|]. split; [exact HFL|].
    split; [reflexivity|]. cbn zeta.
    destruct (Z.eqb_spec c NULL) as [?|_]; [contradiction|]. cbn [negb].
    rewrite wrap_small by lia. auto.
  - right. cbn [negb]. change (NULL =? NULL) with true. cbn [negb].
    rewrite Hspace.
    destruct (find (fun b => block_remaining (blk s b) >=? R) (BL sh)) as [b|] eqn:Esp.
    + left. split; [reflexivity|]. exists b.
      apply find_elem_of in Esp as [Hb Hrem].
      apply Z.geb_le in Hrem.
      destruct (inv_block _ _ _ _ H Hb) as (Hb0 & _).
      destruct (carve_inv s P sh b R H Hb HRlo Hrem) as (Hfst & Hinv & _).
      change (default NULL (Some b)) with b.
      destruct (Z.eqb_spec b NULL) as [E|_]; [unfold NULL in E; lia|].
      destruct (Z.eqb_spec b NULL) as [E|_]; [unfold NULL in E; lia|].
      auto 10.
    + right. change (default NULL None) with NULL. change (NULL =? NULL) with true.
      assert (Hrange : size < start).
      { apply Hcontract. split; [exact Huse | exact Hspace]. }
      pose proof (new_block_inv s P sh R H ltac:(lia)) as Hnb.
      cbv zeta in Hnb. fold size in Hnb. fold start in Hnb.
      destruct (Hnb Hrange) as (Hsz & Hst & Hw & Hfail & Hok). clear Hnb.
      destruct (Z.lt_ge_cases (start - size) (HEAP_BOTTOM s)) as [Hlow|Hhigh].
      * left. rewrite (Hfail Hlow). change (NULL =? NULL) with true. auto.
      * right. destruct (Hok Hhigh) as (Hfst & Hnot & Hbn & Hinv1 & Hrem1 & Hsize1 & _).
        split; [reflexivity|]. split; [reflexivity|].
        split; [exact Hrange|]. split; [exact Hhigh|]. cbn zeta.
        destruct (__new_block R s) as [b1 s1] eqn:Enb. cbn [fst snd] in *. subst b1.
        destruct (Z.eqb_spec (start - size) NULL) as [?|_]; [contradiction|].
        assert (Hb1 : start - size ∈ BL (with_block (start - size) sh)).
        { cbn. apply elem_of_app. right. apply list_elem_of_here. }
        assert (Hrem : R <= block_remaining (blk s1 (start - size))).
        { rewrite Hrem1. subst size. lia. }
        destruct (carve_inv s1 P _ _ R Hinv1 Hb1 HRlo Hrem) as (Hfst2 & Hinv2 & _).
        pose proof (bo_top _ _ _ _ (inv_blocks _ _ _ Hinv1 _ Hb1)) as Htop1.
        rewrite Hrem1, Hsize1 in Htop1.
        assert (Htop1' : block_top (blk s1 (start - size))
                         = start - size + sizeof_BLOCK) by lia.
        rewrite Htop1' in Hfst2, Hinv2.
        cbn [with_block CL] in Hinv2. rewrite fn_lookup_insert in Hinv2.
        cbn [app] in Hinv2.
        repeat (split; [first [reflexivity | assumption]|]). assumption.
Qed.

(** [smalloc] returns, and keeps the invariant. *)
Lemma smalloc_inv s P sh n :
  Inv s P sh ->
  (growth_attempted n s -> growth_in_range n s) ->
  exists p s' sh',
    smalloc n s = Some (p, s') /\
    Inv s' (if p =? NULL then P else p :: P) sh'.
Proof.
  intros H Hc. pose proof sizeof_CHUNK_pos. pose proof sizeof_BLOCK_pos.
  destruct (smalloc_cases s P sh n H Hc)
    as [(c & b & l1 & l2 & Hfind & Hb & HFL & Hown & Hsm & Hcn & Hinv)
       |[(_ & b & _ & Hb & _ & Hsm & Hfst & Hinv)
       |[(_ & _ & _ & _ & Hsm)
       |(_ & _ & _ & _ & Hfst & _ & Hbn & _ & Hinv1 & Hsm & Hfst2 & _ & Hinv)]]].
  - eexists _, _, _. split; [exact Hsm|].
    pose proof (bo_free_carved _ _ _ _ (inv_blocks _ _ _ H b Hb) c) as Hc'.
    rewrite HFL in Hc'. specialize (Hc' ltac:(apply elem_of_app; right; apply list_elem_of_here)).
    destruct (inv_chunk_word _ _ _ _ _ H Hb Hc') as (? & _).
    destruct (Z.eqb_spec (c + sizeof_CHUNK) NULL) as [E|_]; [unfold NULL in E; lia|].
    exact Hinv.
  - destruct (carve b (alloc_size n) s) as [p s'] eqn:E. cbn [fst snd] in *.
    eexists _, _, _. split; [exact Hsm|]. subst p.
    destruct (inv_block _ _ _ _ H Hb) as (? & ? & ? & _).
    destruct (Z.eqb_spec (block_top (blk s b) + sizeof_CHUNK) NULL) as [E'|_];
      [unfold NULL in E'; lia|].
    exact Hinv.
  - eexists _, _, _. split; [exact Hsm|]. exact H.
  - cbn zeta in *.
    destruct (carve _ (alloc_size n) (__new_block (alloc_size n) s).2) as [p s'] eqn:E.
    cbn [fst snd] in *.
    eexists _, _, _. split; [exact Hsm|]. subst p.
    match goal with |- context [?x =? NULL] =>
      destruct (Z.eqb_spec x NULL) as [E'|_] end.
    + exfalso. unfold NULL in *.
      match type of Hinv1 with Inv _ _ (with_block ?b _) =>
        assert (Hb1 : b ∈ BL (with_block b sh))
          by (cbn; apply elem_of_app; right; apply list_elem_of_here);
        destruct (inv_block _ _ _ _ Hinv1 Hb1) as (? & _) end.
      lia.
    + exact Hinv.
Qed.

Lemma boot_inv bm cm : Inv (boot bm cm) [] (mkShape [] (fun _ => []) (fun _ => [])).
Proof.
  constructor; cbn.
  - apply builtin_bounds_word.
  - apply NoDup_nil_2.
  - reflexivity.
  - reflexivity.
  - exact I.
  - intros b Hb. by apply not_elem_of_nil in Hb.
  - intros p Hp. by apply not_elem_of_nil in Hp.
Qed.

Lemma init_inv s P sh top size bottom :
  Inv s P sh -> is_word top ->
  exists sh', Inv (__smalloc_init top size bottom s)
                  (if init_rejects top size bottom then P else []) sh'.
Proof.
  intros H [_ Ht]. unfold __smalloc_init, init_rejects.
  destruct ((bottom >? top) || (wrap (top - bottom) <? size)).
  - exists sh. exact H.
  - exists (mkShape [] (fun _ => []) (fun _ => [])). constructor; cbn.
    + exact Ht.
    + apply NoDup_nil_2.
    + reflexivity.
    + reflexivity.
    + exact I.
    + intros b Hb. by apply not_elem_of_nil in Hb.
    + intros p Hp. by apply not_elem_of_nil in Hp.
Qed.

(** Every reachable heap has a shape. *)
Lemma reachable_inv s P : reachable s P -> exists sh, Inv s P sh.
Proof.
  induction 1 as [bm cm | s P top size bottom _ [sh IH] Ht _ _
                 | s P n p s' _ [sh IH] _ Hc Hsm | s P p _ [sh IH] Hp].
  - eexists. apply boot_inv.
  - eapply init_inv; eauto.
  - destruct (smalloc_inv s P sh n IH Hc) as (p' & s'' & sh' & Hsm' & Hinv).
    rewrite Hsm in Hsm'. injection Hsm' as <- <-. eauto.
  - destruct (sfree_inv s P sh p IH Hp) as (_ & _ & _ & Hfree & Halloc).
    destruct (Z.eq_dec (Z.land (chunk_flags (hdr s (wrap (p - sizeof_CHUNK)))) ALLOCD) 0)
      as [E|E].
    + destruct (Hfree E) as [-> _]. eauto.
    + destruct (Halloc E) as [_ Hinv]. eauto.
Qed.

End Alloc.

(** ** The layout of a heap

    The store keeps blocks and chunks in two typed maps.  On a heap with
    a shape this loses nothing: a chunk has room for a freed record, lies
    inside its block after the block's header, and no two chunks share a
    byte; the blocks themselves lie apart ([stacked_apart]). *)

Section Layout.
Context {abi : ABI}.




End Layout.

(** ** Sums over a stack of blocks *)

Section Sums.
Context {abi : ABI}.

Lemma stacked_sum s l : forall ub,
  stacked s ub l ->
  0 <= sum_block_sizes s l /\
  (l <> [] -> sum_block_sizes s l <= ub - List.last l NULL).
Proof.
  pose proof sizeof_BLOCK_pos as HB.
  induction l as [|b l IH]; intros ub Hs.
  - cbn. split; [lia|congruence].
  - destruct Hs as (Hb0 & Hbh & Hub & Hs).
    change (sum_block_sizes s (b :: l))
      with (block_size (blk s b) + sum_block_sizes s l).
    destruct (IH _ Hs) as [H0 Hle]. split; [lia|]. intros _.
    destruct l as [|y l].
    + cbn. lia.
    + rewrite last_cons_cons. specialize (Hle ltac:(congruence)). lia.
Qed.

Lemma inv_sum_block_sizes s P sh :
  Inv s P sh -> 0 <= sum_block_sizes s (BL sh) < 2 ^ word_bits.
Proof.
  intros H. pose proof (inv_top _ _ _ H) as HT.
  destruct (stacked_sum _ _ _ (inv_stacked _ _ _ H)) as [H0 Hle].
  pose proof word_modulus_pos.
  split; [exact H0|]. destruct (BL sh) as [|b l] eqn:E; [cbn; lia|].
  specialize (Hle ltac:(congruence)).
  assert (Hin : List.last (b :: l) NULL ∈ BL sh).
  { rewrite E. apply last_elem_of. congruence. }
  destruct (stacked_bound _ _ _ _ (inv_stacked _ _ _ H) Hin) as (? & _). lia.
Qed.

(** Block by block: what is not remaining is the header and the chunks. *)
Lemma inv_block_account s P sh b :
  Inv s P sh -> b ∈ BL sh ->
  block_remaining (blk s b) + sum_chunk_sizes s (CL sh b) + sizeof_BLOCK
  = block_size (blk s b).
Proof.
  intros H Hb. pose proof (inv_blocks _ _ _ H b Hb) as Hok.
  rewrite (carved_sum _ _ _ _ _ (bo_carved _ _ _ _ Hok)).
  pose proof (bo_top _ _ _ _ Hok). lia.
Qed.

Lemma sums_over_blocks s P sh : forall l,
  Inv s P sh -> (forall b, b ∈ l -> b ∈ BL sh) ->
  0 <= sum_remaining s l <= sum_block_sizes s l /\
  sum_block_sizes s l - sum_remaining s l
  = foldr (fun b acc => sum_chunk_sizes s (CL sh b) + acc) 0 l
    + Z.of_nat (length l) * sizeof_BLOCK.
Proof.
  intros l H. induction l as [|b l IH]; intros Hl.
  - cbn. lia.
  - destruct IH as [IH1 IH2].
    { intros x Hx. apply Hl. by apply list_elem_of_further. }
    assert (Hb : b ∈ BL sh) by apply Hl, list_elem_of_here.
    pose proof (inv_block_account _ _ _ _ H Hb) as Hacc.
    destruct (inv_block _ _ _ _ H Hb) as (_ & _ & _ & _ & _ & Hr).
    change (sum_remaining s (b :: l))
      with (block_remaining (blk s b) + sum_remaining s l).
    change (sum_block_sizes s (b :: l))
      with (block_size (blk s b) + sum_block_sizes s l).
    cbn [foldr length]. pose proof sizeof_BLOCK_pos. split; [lia|]. lia.
Qed.

Lemma sum_chunk_sizes_nonneg s (l : list Z) :
  (forall c, c ∈ l -> 0 <= chunk_size (hdr s c)) -> 0 <= sum_chunk_sizes s l.
Proof.
  induction l as [|z l IH]; intros Hpos; [cbn; lia|].
  change (0 <= chunk_size (hdr s z) + sum_chunk_sizes s l).
  pose proof (Hpos z (list_elem_of_here _ _)).
  specialize (IH ltac:(intros c Hc; apply Hpos; by apply list_elem_of_further)).
  lia.
Qed.

(** The sizes on a free-list are part of the sizes carved. *)
Lemma sum_chunk_sizes_submseteq s (l k : list Z) :
  l ⊆+ k -> (forall c, c ∈ k -> 0 <= chunk_size (hdr s c)) ->
  0 <= sum_chunk_sizes s l <= sum_chunk_sizes s k.
Proof.
  intros Hsub. induction Hsub as [|x l k Hs IH|x y l|x l k Hs IH|l k m Hs1 IH1 Hs2 IH2];
    intros Hpos.
  - cbn. lia.
  - change (0 <= chunk_size (hdr s x) + sum_chunk_sizes s l
            <= chunk_size (hdr s x) + sum_chunk_sizes s k).
    pose proof (Hpos x (list_elem_of_here _ _)).
    specialize (IH ltac:(intros c Hc; apply Hpos; by apply list_elem_of_further)). lia.
  - change (0 <= chunk_size (hdr s y) + (chunk_size (hdr s x) + sum_chunk_sizes s l)
            <= chunk_size (hdr s x) + (chunk_size (hdr s y) + sum_chunk_sizes s l)).
    assert (0 <= sum_chunk_sizes s l).
    { apply sum_chunk_sizes_nonneg. intros c Hc. apply Hpos.
      by do 2 apply list_elem_of_further. }
    pose proof (Hpos x (list_elem_of_here _ _)).
    pose proof (Hpos y ltac:(apply list_elem_of_further, list_elem_of_here)). lia.
  - change (0 <= sum_chunk_sizes s l
            <= chunk_size (hdr s x) + sum_chunk_sizes s k).
    pose proof (Hpos x (list_elem_of_here _ _)).
    specialize (IH ltac:(intros c Hc; apply Hpos; by apply list_elem_of_further)). lia.
  - specialize (IH2 Hpos).
    assert (Hposk : forall c, c ∈ k -> 0 <= chunk_size (hdr s c)).
    { intros c Hc. apply Hpos. eapply elem_of_submseteq; [exact Hc | exact Hs2]. }
    specialize (IH1 Hposk). lia.
Qed.

Lemma inv_free_bytes s P sh :
  Inv s P sh -> 0 <= sum_chunk_sizes s (free_entries sh) < 2 ^ word_bits.
Proof.
  intros H. pose proof sizeof_FREED_links. pose proof sizeof_CHUNK_pos.
  pose proof sizeof_BLOCK_pos.
  enough (Hgen : forall l, (forall b, b ∈ l -> b ∈ BL sh) ->
            0 <= sum_chunk_sizes s (concat (map (FL sh) l))
              <= sum_block_sizes s l - sum_remaining s l).
  { destruct (Hgen (BL sh) ltac:(auto)) as [? ?].
    destruct (sums_over_blocks s P sh (BL sh) H ltac:(auto)) as [[? ?] _].
    pose proof (inv_sum_block_sizes _ _ _ H). unfold free_entries. lia. }
  induction l as [|b l IH]; intros Hl.
  - cbn. lia.
  - cbn [map concat]. rewrite sum_chunk_sizes_app.
    specialize (IH ltac:(intros x Hx; apply Hl; by apply list_elem_of_further)).
    assert (Hb : b ∈ BL sh) by apply Hl, list_elem_of_here.
    pose proof (inv_blocks _ _ _ H b Hb) as Hok.
    pose proof (inv_block_account _ _ _ _ H Hb) as Hacc.
    assert (Hsub : FL sh b ⊆+ CL sh b).
    { apply NoDup_submseteq; [apply (bo_free_nodup _ _ _ _ Hok)|].
      apply (bo_free_carved _ _ _ _ Hok). }
    destruct (sum_chunk_sizes_submseteq s _ _ Hsub) as [? ?].
    { intros c Hc. destruct (inv_chunk _ _ _ _ _ H Hb Hc) as (_ & _ & _ & ?). lia. }
    change (sum_remaining s (b :: l))
      with (block_remaining (blk s b) + sum_remaining s l).
    change (sum_block_sizes s (b :: l))
      with (block_size (blk s b) + sum_block_sizes s l).
    lia.
Qed.

(** The two queries on a heap with a shape. *)
Lemma smalloc_used_spec s P sh :
  Inv s P sh ->
  __smalloc_used s
  = Some (sum_block_sizes s (BL sh),
          wrap_ushort (Z.of_nat (length (BL sh))),
          carved_bytes s sh + Z.of_nat (length (BL sh)) * sizeof_BLOCK).
Proof.
  intros H. unfold __smalloc_used.
  pose proof (used_loop_spec s (BL sh) (block_fuel s) (__first_block s) 0 0 0
                (inv_chain _ _ _ H) (inv_block_fuel _ _ _ H)) as Hloop.
  assert (Hz : wrap 0 = 0) by (apply wrap_small; pose proof word_modulus_pos; lia).
  assert (Hzs : wrap_ushort 0 = 0) by reflexivity.
  rewrite Hz, Hzs in Hloop. rewrite Hloop. cbn [Z.add].
  destruct (sums_over_blocks s P sh (BL sh) H ltac:(auto)) as [[? ?] Heq].
  pose proof (inv_sum_block_sizes _ _ _ H).
  rewrite !wrap_small by lia. unfold carved_bytes. rewrite Heq. reflexivity.
Qed.

Lemma smalloc_avail_spec s P sh :
  Inv s P sh ->
  __smalloc_avail s
  = Some (if negb (__last_block s =? NULL)
          then wrap (__last_block s - HEAP_BOTTOM s)
          else wrap (HEAP_TOP s - HEAP_BOTTOM s),
          sum_remaining s (BL sh),
          sum_chunk_sizes s (free_entries sh)).
Proof.
  intros H. unfold __smalloc_avail.
  assert (Hz : wrap 0 = 0) by (apply wrap_small; pose proof word_modulus_pos; lia).
  pose proof (avail_loop_spec s (FL sh) (BL sh) (block_fuel s) (__first_block s) 0 0
                (inv_chain _ _ _ H) (inv_block_fuel _ _ _ H)) as Hloop.
  rewrite Hz in Hloop. rewrite Hloop.
  2:{ intros b Hb. pose proof (inv_blocks _ _ _ H b Hb) as Hok. split.
      - apply (bo_free _ _ _ _ Hok).
      - apply (block_ok_free_fuel _ _ _ _ Hok). }
  cbn [Z.add].
  destruct (sums_over_blocks s P sh (BL sh) H ltac:(auto)) as [[? ?] _].
  pose proof (inv_sum_block_sizes _ _ _ H).
  pose proof (inv_free_bytes _ _ _ H). fold (free_entries sh).
  rewrite !Z.add_0_l.
  rewrite (wrap_small (sum_remaining s (BL sh))) by lia.
  rewrite (wrap_small (sum_chunk_sizes s (free_entries sh))) by lia.
  reflexivity.
Qed.

End Sums.

(** ** The reuse window *)

Section Window.
Context {abi : ABI}.

Lemma find_ext_in {A} (f g : A -> bool) (l : list A) :
  (forall x, In x l -> f x = g x) -> find f l = find g l.
Proof.
  induction l as [|x l IH]; intros H; [reflexivity|]. cbn.
  rewrite (H x (or_introl eq_refl)).
  destruct (g x); [reflexivity|]. apply IH. intros y Hy. apply H. by right.
Qed.

Lemma find_all_false {A} (f : A -> bool) (l : list A) :
  (forall x, In x l -> f x = false) -> find f l = None.
Proof.
  induction l as [|x l IH]; intros H; [reflexivity|]. cbn.
  rewrite (H x (or_introl eq_refl)). apply IH. intros y Hy. apply H. by right.
Qed.

(** A request that may be made on a heap with a freed chunk at least as
    large as it has a doubled size that is representable: were it not,
    nothing could be recycled, no block could have room, and growth would
    leave the address space. *)
Lemma doubled_size_in_range s P sh n b c :
  Inv s P sh ->
  (growth_attempted n s -> growth_in_range n s) ->
  b ∈ BL sh -> c ∈ CL sh b ->
  alloc_size n <= chunk_size (hdr s c) ->
  2 * alloc_size n < 2 ^ word_bits.
Proof.
  intros H Hcontract Hb Hc HS.
  destruct (Z.lt_ge_cases (2 * alloc_size n) (2 ^ word_bits)) as [?|Hbig];
    [assumption|exfalso].
  pose proof (alloc_size_bounds n) as [HRlo HRhi].
  pose proof sizeof_BLOCK_pos as HB. pose proof sizeof_FREED_links as HF.
  pose proof sizeof_CHUNK_pos as HC. pose proof (inv_top _ _ _ H) as HT.
  set (R := alloc_size n) in *.
  destruct (inv_chunk _ _ _ _ _ H Hb Hc) as (Hclo & Hchi & _ & _).
  destruct (inv_block _ _ _ _ H Hb) as (Hb0 & Hbh & Hbt & Htb & Hbtop & Hbr0 & Hbr1).
  pose proof (bo_top _ _ _ _ (inv_blocks _ _ _ H b Hb)) as Htop.
  assert (Hw : wrap (Z.shiftl R 1) = 2 * R - 2 ^ word_bits).
  { rewrite Z.shiftl_mul_pow2 by lia. unfold wrap.
    replace (R * 2 ^ 1) with (2 * R - 2 ^ word_bits + 1 * 2 ^ word_bits) by lia.
    rewrite Z.mod_add by lia. apply Z.mod_small. lia. }
  assert (Huse : __use_freed_chunk R (wrap (Z.shiftl R 1)) s = Some (NULL, s)).
  { rewrite (use_freed_chunk_spec s P sh _ _ H), find_all_false; [reflexivity|].
    intros x _. unfold in_window. rewrite Hw.
    destruct (Z.geb_spec (chunk_size (hdr s x)) R); [|reflexivity].
    destruct (Z.leb_spec (chunk_size (hdr s x)) (2 * R - 2 ^ word_bits));
      [lia|reflexivity]. }
  assert (Hspace : __block_with_free_space R s = Some NULL).
  { rewrite (block_with_free_space_spec s P sh _ H), find_all_false; [reflexivity|].
    intros x Hx. apply list_elem_of_In in Hx.
    destruct (Z.geb_spec (block_remaining (blk s x)) R) as [Hge|]; [exfalso|reflexivity].
    destruct (inv_block _ _ _ _ H Hx) as (Hx0 & Hxh & Hxt & Htx & Hxtop & Hxr0 & Hxr1).
    destruct (decide (x = b)) as [->|Hxb]; [lia|].
    destruct (stacked_apart _ _ _ _ _ (inv_stacked _ _ _ H) Hx Hb Hxb); lia. }
  pose proof (Hcontract (conj Huse Hspace)) as Hrange.
  unfold growth_in_range in Hrange. fold R in Hrange.
  pose proof (stacked_ge_last _ _ _ _ (inv_stacked _ _ _ H) Hb) as Hlast.
  assert (Hlin : List.last (BL sh) NULL ∈ BL sh).
  { apply last_elem_of. intros E. rewrite E in Hb. by apply not_elem_of_nil in Hb. }
  destruct (stacked_bound _ _ _ _ (inv_stacked _ _ _ H) Hlin) as (Hl0 & _).
  rewrite <- (inv_last _ _ _ H) in Hlast, Hl0.
  destruct (Z.eqb_spec (__last_block s) NULL) as [E|E]; [unfold NULL in E; lia|lia].
Qed.

Lemma window_agrees s P sh n :
  Inv s P sh ->
  (growth_attempted n s -> growth_in_range n s) ->
  forall c, c ∈ free_entries sh ->
    in_window s (alloc_size n) (wrap (Z.shiftl (alloc_size n) 1)) c
    = reuse_window s (alloc_size n) c.
Proof.
  intros H Hcontract c Hc. unfold in_window, reuse_window.
  pose proof (alloc_size_bounds n) as [HRlo HRhi]. pose proof sizeof_FREED_links.
  pose proof sizeof_CHUNK_pos.
  rewrite Z.geb_leb.
  destruct (Z.leb_spec (alloc_size n) (chunk_size (hdr s c))) as [Hle|Hgt];
    [|reflexivity]. cbn [andb].
  apply elem_of_free_entries in Hc as (b & Hb & Hc).
  apply (bo_free_carved _ _ _ _ (inv_blocks _ _ _ H b Hb)) in Hc.
  pose proof (doubled_size_in_range s P sh n b c H Hcontract Hb Hc Hle) as Hd.
  rewrite Z.shiftl_mul_pow2 by lia.
  replace (alloc_size n * 2 ^ 1) with (2 * alloc_size n) by lia.
  rewrite wrap_small by lia. reflexivity.
Qed.

Lemma find_window_agrees s P sh n :
  Inv s P sh ->
  (growth_attempted n s -> growth_in_range n s) ->
  find (in_window s (alloc_size n) (wrap (Z.shiftl (alloc_size n) 1)))
       (free_entries sh)
  = find (reuse_window s (alloc_size n)) (free_entries sh).
Proof.
  intros H Hc. apply find_ext_in. intros x Hx.
  apply (window_agrees s P sh n H Hc). by apply list_elem_of_In.
Qed.

End Window.

(** * The claims of the specification *)

Section Claims.
Context {abi : ABI}.


(** C8, as the code has it.  The usage query returns the bytes spanned by
    all blocks, stores the number of blocks (as an [unsigned short]) and
    stores in [inBlocks] the bytes carved into chunks plus one block
    header per block; it is a function of the state and changes none of
    it. *)
Theorem smalloc_used_counts_headers (s : Heap) (P : list Z) :
  reachable s P ->
  exists sh,
    block_chain s (__first_block s) (BL sh) /\
    (forall b, b ∈ BL sh ->
       carved s b (b + sizeof_BLOCK) (CL sh b) (block_top (blk s b))) /\
    __smalloc_used s
    = Some (sum_block_sizes s (BL sh),
            wrap_ushort (Z.of_nat (length (BL sh))),
            carved_bytes s sh + Z.of_nat (length (BL sh)) * sizeof_BLOCK) /\
    sum_block_sizes s (BL sh)
    = Z.of_nat (length (BL sh)) * sizeof_BLOCK + carved_bytes s sh
      + sum_remaining s (BL sh).
Proof.
  intros Hr. destruct (reachable_inv s P Hr) as [sh H]. exists sh.
  split; [apply (inv_chain _ _ _ H)|]. split.
  - intros b Hb. apply (bo_carved _ _ _ _ (inv_blocks _ _ _ H b Hb)).
  - split; [apply (smalloc_used_spec s P sh H)|].
    destruct (sums_over_blocks s P sh (BL sh) H ltac:(auto)) as [_ Heq].
    unfold carved_bytes. lia.
Qed.

(** C5, as the code has it.  A block that [__new_block] creates on a
    reachable heap, for a request whose arithmetic stays inside the
    address space (the sum [requestedSize + BLOCK_HEADER_SZ] is
    representable and the size is below the start address, so that
    [start - size] does not wrap around), lies at [start - size] and has
    size [max(PAGESIZE, requestedSize + BLOCK_HEADER_SZ)].  No block of a
    reachable heap is smaller than [PAGESIZE], neither when it is created
    nor later. *)
Theorem new_block_size_is_max (s : Heap) (P : list Z) (R b : Z) (s' : Heap) :
  reachable s P -> 0 <= R ->
  let size := Z.max (PAGESIZE s) (R + sizeof_BLOCK) in
  let start := if __last_block s =? NULL then HEAP_TOP s
               else __last_block s - sizeof_BLOCK in
  size < start ->
  __new_block R s = (b, s') -> b <> NULL ->
  b = start - size /\
  block_size (blk s' b) = size /\
  PAGESIZE s' <= block_size (blk s' b) /\
  (forall s0 P0, reachable s0 P0 ->
   exists sh, Inv s0 P0 sh /\
     forall b0, b0 ∈ BL sh -> PAGESIZE s0 <= block_size (blk s0 b0)).
Proof.
  intros Hr HR size start Hrange Hnb Hb.
  destruct (reachable_inv s P Hr) as [sh H].
  pose proof (new_block_inv s P sh R H HR) as Hinv.
  cbv zeta in Hinv. fold size in Hinv. fold start in Hinv.
  destruct (Hinv Hrange) as (_ & _ & _ & Hfail & Hok). clear Hinv.
  destruct (Z.lt_ge_cases (start - size) (HEAP_BOTTOM s)) as [Hlow|Hhigh].
  { rewrite (Hfail Hlow) in Hnb. injection Hnb as <- _. contradiction. }
  destruct (Hok Hhigh) as (Hfst & _ & _ & Hinv1 & _ & Hsize & _).
  rewrite Hnb in Hfst, Hinv1, Hsize. cbn [fst snd] in Hfst, Hinv1, Hsize.
  split; [exact Hfst|]. rewrite <- Hfst in Hinv1, Hsize.
  split; [exact Hsize|]. split.
  - apply (bo_page _ _ _ _ (inv_blocks _ _ _ Hinv1 b
             ltac:(cbn; apply elem_of_app; right; apply list_elem_of_here))).
  - intros s0 P0 Hr0. destruct (reachable_inv s0 P0 Hr0) as [sh0 H0]. exists sh0.
    split; [exact H0|]. intros b0 Hb0.
    apply (bo_page _ _ _ _ (inv_blocks _ _ _ H0 b0 Hb0)).
Qed.

(** C6. For every requested byte count, zero included, the chunk size
    [smalloc] works with is the requested count plus the chunk header
    size (their [unsigned long] sum, which is their sum whenever that is
    representable), raised to the size of a freed record; every chunk of
    a heap has at least the size of a freed record, and the chunk behind a
    pointer that [smalloc] returns has at least the computed size. *)
Theorem alloc_size_floor (n : Z) :
  is_word n ->
  alloc_size n = Z.max (wrap (n + sizeof_CHUNK)) sizeof_FREED /\
  (n + sizeof_CHUNK < 2 ^ word_bits ->
   alloc_size n = Z.max (n + sizeof_CHUNK) sizeof_FREED) /\
  alloc_size 0 = sizeof_FREED /\
  (forall s P, reachable s P ->
   exists sh, Inv s P sh /\
     forall b c, b ∈ BL sh -> c ∈ CL sh b ->
                 sizeof_FREED <= chunk_size (hdr s c)) /\
  (forall s P p s',
     reachable s P ->
     (growth_attempted n s -> growth_in_range n s) ->
     smalloc n s = Some (p, s') -> p <> NULL ->
     exists sh' b, Inv s' (p :: P) sh' /\ b ∈ BL sh' /\
       (p - sizeof_CHUNK) ∈ CL sh' b /\
       alloc_size n <= chunk_size (hdr s' (p - sizeof_CHUNK))).
Proof.
  intros [Hn0 Hn1]. pose proof sizeof_CHUNK_pos as HC.
  pose proof sizeof_FREED_links as HF. pose proof sizeof_FREED_word as HFw.
  assert (Hmax : forall m, alloc_size m = Z.max (wrap (m + sizeof_CHUNK)) sizeof_FREED).
  { intros m. unfold alloc_size.
    destruct (Z.ltb_spec (wrap (m + sizeof_CHUNK)) sizeof_FREED); lia. }
  split; [apply Hmax|]. split; [|split; [|split]].
  - intros Hrep. rewrite Hmax, wrap_small by lia. reflexivity.
  - rewrite Hmax, wrap_small by lia. lia.
  - intros s P Hr. destruct (reachable_inv s P Hr) as [sh H]. exists sh.
    split; [exact H|]. intros b c Hb Hc.
    by destruct (inv_chunk _ _ _ _ _ H Hb Hc) as (_ & _ & _ & ?).
  - intros s P p s' Hr Hcontract Hsm Hp.
    destruct (reachable_inv s P Hr) as [sh H].
    destruct (smalloc_cases s P sh n H Hcontract)
      as [(c & b & l1 & l2 & Hfind & Hb & HFL & Hown & Hsm' & Hcn & Hinv)
         |[(_ & b & _ & Hb & Hrem & Hsm' & Hfst & Hinv)
         |[(_ & _ & _ & _ & Hsm')
         |(_ & _ & _ & _ & Hfst & Hnot & Hbn & Hbsz & Hinv1 & Hsm' & Hfst2 & Htop1 & Hinv)]]];
      rewrite Hsm in Hsm'.
    + injection Hsm' as -> ->.
      replace (c + sizeof_CHUNK - sizeof_CHUNK) with c by lia.
      destruct (recycle_inv s P sh b c l1 l2 H Hb HFL) as (_ & Hsz & _ & HcCL).
      eexists _, b. split; [exact Hinv|]. split; [exact Hb|]. split; [exact HcCL|].
      subst b. rewrite Hsz.
      apply find_elem_of in Hfind as [_ Hwin]. unfold in_window in Hwin.
      apply andb_true_iff in Hwin as [Hge _]. apply Z.geb_le in Hge. exact Hge.
    + destruct (carve_inv s P sh b (alloc_size n) H Hb
                  (proj1 (alloc_size_bounds n)) Hrem) as (_ & _ & Hh & _).
      destruct (carve b (alloc_size n) s) as [p' s''] eqn:E.
      injection Hsm' as -> ->. cbn [fst snd] in *. subst p'.
      replace (block_top (blk s b) + sizeof_CHUNK - sizeof_CHUNK)
        with (block_top (blk s b)) by lia.
      eexists _, b. split; [exact Hinv|]. split; [exact Hb|]. split.
      * cbn. rewrite fn_lookup_insert. apply elem_of_app. right. apply list_elem_of_here.
      * rewrite Hh. cbn. lia.
    + injection Hsm' as -> _. contradiction.
    + cbn zeta in *.
      set (b1 := (if __last_block s =? NULL then HEAP_TOP s
                  else __last_block s - sizeof_BLOCK)
                 - Z.max (PAGESIZE s) (alloc_size n + sizeof_BLOCK)) in *.
      set (s1 := snd (__new_block (alloc_size n) s)) in *.
      assert (Hb1 : b1 ∈ BL (with_block b1 sh))
        by (cbn; apply elem_of_app; right; apply list_elem_of_here).
      assert (Hrem : alloc_size n <= block_remaining (blk s1 b1)).
      { pose proof (bo_top _ _ _ _ (inv_blocks _ _ _ Hinv1 _ Hb1)) as Ht.
        rewrite Hbsz, Htop1 in Ht. pose proof sizeof_BLOCK_pos. lia. }
      destruct (carve_inv s1 P _ b1 (alloc_size n) Hinv1 Hb1
                  (proj1 (alloc_size_bounds n)) Hrem) as (_ & _ & Hh & _).
      destruct (carve b1 (alloc_size n) s1) as [p' s''] eqn:E.
      injection Hsm' as -> ->. cbn [fst snd] in *. subst p'.
      replace (b1 + sizeof_BLOCK + sizeof_CHUNK - sizeof_CHUNK)
        with (b1 + sizeof_BLOCK) by lia.
      eexists _, b1. split; [exact Hinv|]. split.
      * cbn. apply elem_of_app. right. apply list_elem_of_here.
      * split; [cbn; rewrite fn_lookup_insert; apply list_elem_of_here|].
        rewrite Htop1 in Hh. rewrite Hh. cbn. lia.
Qed.

End Claims.

Section ClaimsOnLists.
Context {abi : ABI}.

(** C2, as the code has it.  [__new_block] places the block at
    [start - size], where [start] is [HEAP_TOP] when there is no block
    yet and otherwise lies one block header below the last block
    ([__last_block - 1] on a [struct BLOCK*]).  It fails, changing
    nothing, exactly when that address is strictly below [HEAP_BOTTOM]; a
    block that starts at [HEAP_BOTTOM] itself is created.  For a request
    that reaches growth with its arithmetic in range, [smalloc] returns
    [NULL] and leaves the whole state as it was in the first case, and in
    the second returns a pointer into the new block, which is now the
    last one. *)
Theorem growth_placement_and_exhaustion (s : Heap) (P : list Z) (n : Z) :
  reachable s P ->
  growth_attempted n s -> growth_in_range n s ->
  let R := alloc_size n in
  let size := Z.max (PAGESIZE s) (R + sizeof_BLOCK) in
  let start := if __last_block s =? NULL then HEAP_TOP s
               else __last_block s - sizeof_BLOCK in
  new_block_size R s = size /\
  new_block_start s = start /\
  (start - size < HEAP_BOTTOM s ->
   __new_block R s = (NULL, s) /\ smalloc n s = Some (NULL, s)) /\
  (HEAP_BOTTOM s <= start - size ->
   exists s1 s',
     __new_block R s = (start - size, s1) /\
     is_Some (blocks s1 !! (start - size)) /\
     smalloc n s = Some (start - size + sizeof_BLOCK + sizeof_CHUNK, s') /\
     start - size + sizeof_BLOCK + sizeof_CHUNK <> NULL /\
     __last_block s' = start - size /\
     block_size (blk s' (start - size)) = size).
Proof.
  intros Hr Hatt Hrange R size start.
  destruct (reachable_inv s P Hr) as [sh H].
  pose proof (alloc_size_bounds n) as [HRlo HRhi]. fold R in HRlo, HRhi.
  pose proof sizeof_FREED_links as HF. pose proof sizeof_CHUNK_pos as HC.
  pose proof sizeof_BLOCK_pos as HB.
  pose proof (new_block_inv s P sh R H ltac:(lia)) as Hnb.
  cbv zeta in Hnb. fold size in Hnb. fold start in Hnb.
  destruct (Hnb Hrange) as (Hsz & Hst & Hw & Hfail & Hok). clear Hnb.
  destruct Hatt as [Huse Hspace]. fold R in Huse, Hspace.
  split; [exact Hsz|]. split; [exact Hst|]. split.
  - intros Hlow. split; [exact (Hfail Hlow)|].
    unfold smalloc. fold R. rewrite Huse. cbn [negb Z.eqb NULL].
    change (0 =? 0) with true. cbn [negb]. fold NULL. rewrite Hspace.
    change (NULL =? NULL) with true. cbv iota. rewrite (Hfail Hlow).
    reflexivity.
  - intros Hhigh.
    destruct (Hok Hhigh) as (Hfst & Hnot & Hbn & Hinv1 & Hrem1 & Hsize1 & _).
    destruct (__new_block R s) as [b1 s1] eqn:Enb. cbn [fst snd] in *. subst b1.
    set (b := start - size) in *.
    assert (Hb1 : b ∈ BL (with_block b sh)).
    { cbn. apply elem_of_app. right. apply list_elem_of_here. }
    assert (Hrem : R <= block_remaining (blk s1 b)).
    { rewrite Hrem1. subst size. lia. }
    destruct (carve_inv s1 P _ b R Hinv1 Hb1 HRlo Hrem) as (Hfst2 & Hinv2 & _).
    pose proof (bo_top _ _ _ _ (inv_blocks _ _ _ Hinv1 _ Hb1)) as Htop1.
    rewrite Hrem1, Hsize1 in Htop1.
    assert (Htop1' : block_top (blk s1 b) = b + sizeof_BLOCK) by lia.
    rewrite Htop1' in Hfst2, Hinv2.
    destruct (carve_reads b R s1) as (_ & Hglob & Hblk & _).
    destruct (inv_block _ _ _ _ Hinv1 Hb1) as (Hb0 & _).
    exists s1, (snd (carve b R s1)).
    split; [reflexivity|]. split.
    { apply (bo_present _ _ _ _ (inv_blocks _ _ _ Hinv1 _ Hb1)). }
    split.
    { unfold smalloc. fold R. rewrite Huse. cbn [negb Z.eqb NULL].
      change (0 =? 0) with true. cbn [negb]. fold NULL. rewrite Hspace.
      change (NULL =? NULL) with true. cbv iota. rewrite Enb.
      destruct (Z.eqb_spec b NULL) as [?|_]; [contradiction|].
      rewrite <- Hfst2. by destruct (carve b R s1). }
    split; [unfold NULL; lia|]. split.
    + destruct Hglob as (_ & _ & _ & _ & ->).
      rewrite (inv_last _ _ _ Hinv1). cbn [with_block BL]. apply last_snoc_list.
    + rewrite Hblk, decide_True by reflexivity. exact Hsize1.
Qed.

(** C1, as the code has it.  A request of computed chunk size [R], made
    on a reachable heap.  The window of the recycle step is
    [R <= S <= W], where [W] is [R << 1] as an [unsigned long]: [2R]
    when that is representable and [2R - 2^w] otherwise, so that no
    record is recycled for a request of half the address space or more.
    A record that [__use_freed_chunk] returns is on a free-list and its
    size lies in the window (hence in [R <= S <= 2R]); when some
    free-list entry lies in the window, the first one, in the order of
    the blocks and of each free-list from its head, is returned, its
    block's free-list is the old one without it, the other free-lists
    are as they were, and its flag is set; when no entry lies in the
    window, the recycle step returns [NULL] and has changed nothing. *)
Theorem recycle_first_fit_in_window (s : Heap) (P : list Z) (n : Z) :
  reachable s P ->
  let R := alloc_size n in
  let W := wrap (Z.shiftl R 1) in
  exists sh,
    block_chain s (__first_block s) (BL sh) /\
    (forall b, b ∈ BL sh ->
       free_chain s NULL (block_free (blk s b)) (FL sh b)) /\
    W <= 2 * R /\
    (2 * R < 2 ^ word_bits ->
     W = 2 * R /\ forall c, in_window s R W c = reuse_window s R c) /\
    (2 ^ word_bits <= 2 * R ->
     W < R /\ __use_freed_chunk R W s = Some (NULL, s)) /\
    (forall c s1,
       __use_freed_chunk R W s = Some (c, s1) ->
       c <> NULL ->
       c ∈ free_entries sh /\ R <= chunk_size (hdr s c) <= W) /\
    (forall c,
       find (in_window s R W) (free_entries sh) = Some c ->
       exists b l1 l2 s',
         b ∈ BL sh /\ FL sh b = l1 ++ c :: l2 /\
         __use_freed_chunk R W s = Some (c, dequeue b c s) /\
         smalloc n s = Some (c + sizeof_CHUNK, s') /\
         free_chain s' NULL (block_free (blk s' b)) (l1 ++ l2) /\
         (forall b', b' ∈ BL sh -> b' <> b ->
            free_chain s' NULL (block_free (blk s' b')) (FL sh b')) /\
         Z.land (chunk_flags (hdr s' c)) ALLOCD <> 0) /\
    (find (in_window s R W) (free_entries sh) = None ->
     __use_freed_chunk R W s = Some (NULL, s)).
Proof.
  intros Hr R W.
  destruct (reachable_inv s P Hr) as [sh H]. exists sh.
  pose proof (use_freed_chunk_spec s P sh R W H) as Huse.
  pose proof (alloc_size_bounds n) as [HRlo HRhi]. fold R in HRlo, HRhi.
  pose proof sizeof_FREED_links as HF. pose proof sizeof_CHUNK_pos as HC.
  pose proof word_modulus_pos as Hm.
  assert (Hshift : Z.shiftl R 1 = 2 * R).
  { rewrite Z.shiftl_mul_pow2 by lia. change (2 ^ 1) with 2. lia. }
  split; [apply (inv_chain _ _ _ H)|]. split.
  { intros b Hb. apply (bo_free _ _ _ _ (inv_blocks _ _ _ H b Hb)). }
  split.
  { subst W. rewrite Hshift. unfold wrap. apply Z.mod_le; lia. }
  split.
  { intros H2. assert (HW : W = 2 * R).
    { subst W. rewrite Hshift. apply wrap_small. lia. }
    split; [exact HW|]. intros c. unfold in_window, reuse_window.
    rewrite HW. f_equal. rewrite Z.geb_leb. reflexivity. }
  split.
  { intros H2. assert (HW : W = 2 * R - 2 ^ word_bits).
    { subst W. rewrite Hshift. unfold wrap. symmetry.
      apply (Z.mod_unique (2 * R) (2 ^ word_bits) 1); lia. }
    split; [lia|]. rewrite Huse, find_all_false; [reflexivity|].
    intros c _. unfold in_window.
    destruct (Z.geb_spec (chunk_size (hdr s c)) R) as [Hge|_]; [|reflexivity].
    cbn [andb]. apply Z.leb_gt. lia. }
  split; [|split].
  - intros c s1 Hres Hc. rewrite Huse in Hres.
    destruct (find (in_window s R W) (free_entries sh)) as [c0|] eqn:E.
    + injection Hres as -> _. apply find_elem_of in E as [Hin Hwin].
      split; [exact Hin|]. unfold in_window in Hwin.
      apply andb_true_iff in Hwin as [H1 H2].
      apply Z.geb_le in H1. apply Z.leb_le in H2. lia.
    + injection Hres as <- _. contradiction.
  - intros c E.
    assert (Hcontract : growth_attempted n s -> growth_in_range n s).
    { intros [Hnull _]. fold R in Hnull. fold W in Hnull.
      rewrite (use_freed_chunk_null _ _ _ _ _ _ H Hnull) in E. discriminate. }
    destruct (smalloc_cases s P sh n H Hcontract)
      as [(c0 & b & l1 & l2 & Hf & Hb & HFL & Hown & Hsm & Hcn & Hinv)
         |[(Hf & _)|[(Hf & _)|(Hf & _)]]];
      fold R in Hf; fold W in Hf; rewrite E in Hf; try discriminate.
    injection Hf as <-.
    destruct (recycle_inv s P sh b c l1 l2 H Hb HFL) as (_ & _ & Hflag & _).
    eexists b, l1, l2, _. split; [exact Hb|]. split; [exact HFL|].
    split; [rewrite Huse, E, <- Hown; reflexivity|].
    split; [exact Hsm|]. split; [|split; [|exact Hflag]].
    + pose proof (bo_free _ _ _ _ (inv_blocks _ _ _ Hinv b Hb)) as Hfc.
      cbn [with_FL FL] in Hfc. rewrite fn_lookup_insert in Hfc. exact Hfc.
    + intros b' Hb' Hne.
      pose proof (bo_free _ _ _ _ (inv_blocks _ _ _ Hinv b' Hb')) as Hfc.
      cbn [with_FL FL] in Hfc. rewrite fn_lookup_insert_ne in Hfc by congruence.
      exact Hfc.
  - intros E. rewrite Huse, E. reflexivity.
Qed.

(** C3. Freeing a pointer that [smalloc] returned and freeing it again:
    the second call returns the state it was given, so no link of any
    list has changed, and the chunk is on its block's free-list exactly
    once. *)
Theorem double_free_is_noop (s : Heap) (P : list Z) (p : Z) :
  reachable s P -> p ∈ P ->
  let c := p - sizeof_CHUNK in
  let s1 := sfree p s in
  sfree p s1 = s1 /\
  exists sh1 b,
    Inv s1 P sh1 /\ b ∈ BL sh1 /\ chunk_block (hdr s1 c) = b /\
    free_chain s1 NULL (block_free (blk s1 b)) (FL sh1 b) /\
    count_occ Z.eq_dec (FL sh1 b) c = 1%nat.
Proof.
  intros Hr Hp c s1.
  destruct (reachable_inv s P Hr) as [sh H].
  assert (Hr1 : reachable s1 P) by (by apply reach_sfree).
  destruct (reachable_inv s1 P Hr1) as [sh1 H1].
  destruct (sfree_inv s P sh p H Hp) as (Hb & Hc & Hpc & Hfree & Halloc).
  assert (Hwc : wrap (p - sizeof_CHUNK) = c).
  { subst c. rewrite Hpc at 2. lia. }
  rewrite Hwc in Hb, Hc, Hfree, Halloc.
  assert (Hclear : Z.land (chunk_flags (hdr s1 c)) ALLOCD = 0).
  { destruct (Z.eq_dec (Z.land (chunk_flags (hdr s c)) ALLOCD) 0) as [E|E].
    - destruct (Hfree E) as [Hs _]. subst s1. rewrite Hs. exact E.
    - destruct (Halloc E) as [Hnot _].
      pose proof (bo_free _ _ _ _ (inv_blocks _ _ _ H _ Hb)) as Hfc.
      assert (Hh : block_free (blk s (chunk_block (hdr s c))) <> c).
      { rewrite (free_chain_head _ _ _ _ Hfc).
        destruct (inv_chunk_word _ _ _ _ _ H Hb Hc) as (Hc0 & _).
        destruct (FL sh (chunk_block (hdr s c))) as [|y l]; cbn.
        - unfold NULL. lia.
        - intros ->. apply Hnot, list_elem_of_here. }
      rewrite <- Hwc in E, Hh.
      destruct (sfree_reads p s E Hh) as (_ & _ & Hfrd & _).
      rewrite Hwc in Hfrd. subst s1. unfold hdr. rewrite Hfrd.
      rewrite decide_True by reflexivity. apply land_allocd_cleared. }
  destruct (sfree_inv s1 P sh1 p H1 Hp) as (Hb1 & Hc1 & _ & Hfree1 & _).
  rewrite Hwc in Hb1, Hc1, Hfree1.
  destruct (Hfree1 Hclear) as [Hnoop Hin].
  split; [exact Hnoop|].
  exists sh1, (chunk_block (hdr s1 c)).
  pose proof (inv_blocks _ _ _ H1 _ Hb1) as Hok.
  split; [exact H1|]. split; [exact Hb1|]. split; [reflexivity|].
  split; [apply (bo_free _ _ _ _ Hok)|].
  apply NoDup_count_occ'; [apply NoDup_ListNoDup, (bo_free_nodup _ _ _ _ Hok)|].
  by apply list_elem_of_In.
Qed.

(** C9. Recycling leaves the size field alone: a chunk of size [S] reused
    for a request of computed size [R <= S] still has size [S], freeing
    it again puts a record of size [S] at the head of its block's
    free-list, and the availability query's [inFree] is the sum of the
    size fields of the free-list entries, of which it is one. *)
Theorem recycling_keeps_chunk_size (s : Heap) (P : list Z) (n c : Z) (s1 : Heap) :
  reachable s P ->
  (growth_attempted n s -> growth_in_range n s) ->
  __use_freed_chunk (alloc_size n) (wrap (Z.shiftl (alloc_size n) 1)) s
    = Some (c, s1) ->
  c <> NULL ->
  let p := c + sizeof_CHUNK in
  exists s',
    smalloc n s = Some (p, s') /\
    alloc_size n <= chunk_size (hdr s c) /\
    chunk_size (hdr s' c) = chunk_size (hdr s c) /\
    let s'' := sfree p s' in
    chunk_size (hdr s'' c) = chunk_size (hdr s c) /\
    exists sh'' b rest unallocdHeap inBlocks,
      Inv s'' (p :: P) sh'' /\ b ∈ BL sh'' /\ FL sh'' b = c :: rest /\
      c ∈ free_entries sh'' /\
      __smalloc_avail s''
      = Some (unallocdHeap, inBlocks, sum_chunk_sizes s'' (free_entries sh'')).
Proof.
  intros Hr Hcontract Hres Hcn p.
  destruct (reachable_inv s P Hr) as [sh H].
  pose proof (use_freed_chunk_spec s P sh (alloc_size n)
                (wrap (Z.shiftl (alloc_size n) 1)) H) as Huse.
  rewrite Hres in Huse.
  destruct (smalloc_cases s P sh n H Hcontract)
    as [(c0 & b & l1 & l2 & Hf & Hb & HFL & Hown & Hsm & _ & Hinv)
       |[(Hf & _)|[(Hf & _)|(Hf & _)]]];
    rewrite Hf in Huse; injection Huse as Hc0 _; try contradiction.
  subst c0.
  destruct (recycle_inv s P sh b c l1 l2 H Hb HFL) as (_ & Hsz & Hflag & HcCL).
  cbn zeta in Hsm, Hinv.
  set (s' := set_chunk_flags c _ (dequeue b c s)) in *.
  exists s'. split; [exact Hsm|]. split.
  { apply find_elem_of in Hf as [_ Hwin]. unfold in_window in Hwin.
    apply andb_true_iff in Hwin as [Hge _]. by apply Z.geb_le in Hge. }
  split; [exact Hsz|]. cbn zeta.
  assert (Hp : p ∈ p :: P) by apply list_elem_of_here.
  destruct (sfree_inv s' (p :: P) _ p Hinv Hp) as (Hb' & Hc' & Hpc & _ & Halloc).
  assert (Hwc : wrap (p - sizeof_CHUNK) = c).
  { subst p. lia. }
  rewrite Hwc in Hb', Hc', Halloc.
  destruct (Halloc Hflag) as [Hnot Hinv''].
  pose proof (bo_free _ _ _ _ (inv_blocks _ _ _ Hinv _ Hb')) as Hfc.
  assert (Hh : block_free (blk s' (chunk_block (hdr s' c))) <> c).
  { rewrite (free_chain_head _ _ _ _ Hfc).
    destruct (FL _ (chunk_block (hdr s' c))) as [|y l]; cbn.
    - exact (not_eq_sym Hcn).
    - intros ->. apply Hnot, list_elem_of_here. }
  assert (Hflag' : Z.land (chunk_flags (hdr s' (wrap (p - sizeof_CHUNK)))) ALLOCD <> 0)
    by (by rewrite Hwc).
  rewrite <- Hwc in Hh.
  destruct (sfree_reads p s' Hflag' Hh) as (_ & _ & Hfrd & _).
  rewrite Hwc in Hfrd.
  split.
  { unfold hdr at 1. rewrite Hfrd, decide_True by reflexivity. exact Hsz. }
  eexists _, (chunk_block (hdr s' c)), _, _, _.
  split; [exact Hinv''|]. split; [exact Hb'|]. split.
  { cbn [with_FL FL]. rewrite fn_lookup_insert. reflexivity. }
  split.
  { apply elem_of_free_entries. exists (chunk_block (hdr s' c)).
    split; [exact Hb'|]. cbn [with_FL FL]. rewrite fn_lookup_insert.
    apply list_elem_of_here. }
  apply (smalloc_avail_spec _ _ _ Hinv'').
Qed.

End ClaimsOnLists.

(** * More of the allocator

    ** What a call leaves alone *)

Section Frames.
Context {abi : ABI}.

Lemma same_layout_refl s : same_layout s s.
Proof. constructor; auto. Qed.

Lemma same_layout_trans s1 s2 s3 :
  same_layout s1 s2 -> same_layout s2 s3 -> same_layout s1 s3.
Proof.
  intros [A1 A2 A3 A4 A5 A6 A7] [B1 B2 B3 B4 B5 B6 B7].
  constructor; try congruence.
  - intros x. destruct (A6 x) as (? & ? & ? & ? & ?).
    destruct (B6 x) as (? & ? & ? & ? & ?). repeat split; congruence.
  - intros x. destruct (A7 x) as (? & ?). destruct (B7 x) as (? & ?).
    split; congruence.
Qed.

Lemma same_layout_set_block_free b v s : same_layout s (set_block_free b v s).
Proof.
  constructor; try reflexivity; intros x; unfold_sets; store_simpl;
    try (destruct (decide (b = x)) as [->|]); auto.
Qed.

Lemma same_layout_set_freed_next c v s : same_layout s (set_freed_next c v s).
Proof.
  constructor; try reflexivity; intros x; unfold_sets; store_simpl;
    try (destruct (decide (c = x)) as [->|]); auto.
Qed.

Lemma same_layout_set_freed_prev c v s : same_layout s (set_freed_prev c v s).
Proof.
  constructor; try reflexivity; intros x; unfold_sets; store_simpl;
    try (destruct (decide (c = x)) as [->|]); auto.
Qed.

Lemma same_layout_set_chunk_flags c v s : same_layout s (set_chunk_flags c v s).
Proof.
  constructor; try reflexivity; intros x; unfold_sets; store_simpl;
    try (destruct (decide (c = x)) as [->|]); auto.
Qed.

Lemma same_layout_dequeue b c s : same_layout s (dequeue b c s).
Proof.
  unfold dequeue.
  repeat match goal with
  | |- same_layout _ (if ?t then _ else _) => destruct t
  | |- same_layout ?s ?s => apply same_layout_refl
  | |- same_layout _ (set_block_free _ _ _) =>
      eapply same_layout_trans; [|apply same_layout_set_block_free]
  | |- same_layout _ (set_freed_prev _ _ _) =>
      eapply same_layout_trans; [|apply same_layout_set_freed_prev]
  | |- same_layout _ (set_freed_next _ _ _) =>
      eapply same_layout_trans; [|apply same_layout_set_freed_next]
  end.
Qed.

Lemma same_layout_sfree p s : same_layout s (sfree p s).
Proof.
  unfold sfree.
  repeat match goal with
  | |- same_layout _ (if ?t then _ else _) => destruct t
  | |- same_layout ?s ?s => apply same_layout_refl
  | |- same_layout _ (set_block_free _ _ _) =>
      eapply same_layout_trans; [|apply same_layout_set_block_free]
  | |- same_layout _ (set_freed_prev _ _ _) =>
      eapply same_layout_trans; [|apply same_layout_set_freed_prev]
  | |- same_layout _ (set_freed_next _ _ _) =>
      eapply same_layout_trans; [|apply same_layout_set_freed_next]
  | |- same_layout _ (set_chunk_flags _ _ _) =>
      eapply same_layout_trans; [|apply same_layout_set_chunk_flags]
  end.
Qed.

(** The headers that the free-list operations write. *)
Lemma hdr_set_block_free b v s x : hdr (set_block_free b v s) x = hdr s x.
Proof. reflexivity. Qed.

Lemma hdr_set_freed_next c v s x : hdr (set_freed_next c v s) x = hdr s x.
Proof.
  unfold_sets. store_simpl. destruct (decide (c = x)) as [->|]; reflexivity.
Qed.

Lemma hdr_set_freed_prev c v s x : hdr (set_freed_prev c v s) x = hdr s x.
Proof.
  unfold_sets. store_simpl. destruct (decide (c = x)) as [->|]; reflexivity.
Qed.

Lemma hdr_set_chunk_flags c v s x :
  hdr (set_chunk_flags c v s) x
  = if decide (x = c)
    then mkCHUNK (chunk_block (hdr s c)) (chunk_size (hdr s c)) v
    else hdr s x.
Proof.
  unfold_sets. store_simpl.
  destruct (decide (c = x)) as [E1|E1]; destruct (decide (x = c)) as [E2|E2];
    try congruence; subst; reflexivity.
Qed.

Lemma hdr_dequeue b c s x : hdr (dequeue b c s) x = hdr s x.
Proof.
  unfold dequeue.
  repeat match goal with
  | |- context [if ?t then _ else _] => destruct t
  | |- _ => rewrite hdr_set_freed_next
  | |- _ => rewrite hdr_set_freed_prev
  | |- _ => rewrite hdr_set_block_free
  end; reflexivity.
Qed.

Lemma hdr_sfree_other p s x :
  x <> wrap (p - sizeof_CHUNK) -> hdr (sfree p s) x = hdr s x.
Proof.
  intros Hx. unfold sfree.
  destruct (_ =? 0); [reflexivity|].
  rewrite hdr_set_chunk_flags, decide_False by exact Hx.
  repeat match goal with
  | |- context [if ?t then _ else _] => destruct t
  | |- _ => rewrite hdr_set_freed_next
  | |- _ => rewrite hdr_set_freed_prev
  | |- _ => rewrite hdr_set_block_free
  end; reflexivity.
Qed.

End Frames.

(** ** Where the blocks lie *)

Section PlacedFacts.
Context {abi : ABI}.

Lemma sizeof_FREED_pos : 0 < sizeof_FREED.
Proof. pose proof sizeof_CHUNK_pos. pose proof sizeof_FREED_links. lia. Qed.

(** The chunks of a block are met at increasing addresses. *)
Lemma carved_nodup s b l : forall p top, carved s b p l top -> NoDup l.
Proof.
  pose proof sizeof_FREED_pos.
  induction l as [|x l IH]; intros p top Hc; [apply NoDup_nil_2|].
  destruct Hc as (-> & _ & Hsz & Hc). apply NoDup_cons_2; [|eauto].
  intros Hx. destruct (carved_bounds _ _ _ _ _ Hc) as [_ Hall].
  destruct (Hall x Hx) as (? & _). lia.
Qed.

Lemma tight_ext s s' l : forall ub,
  (forall b, b ∈ l -> block_size (blk s' b) = block_size (blk s b)) ->
  tight s ub l -> tight s' ub l.
Proof.
  induction l as [|x l IH]; intros ub Hsame Ht; [exact I|].
  destruct Ht as [Hx Ht]. split.
  - rewrite Hsame by apply list_elem_of_here. exact Hx.
  - apply IH; [|exact Ht]. intros b Hb. apply Hsame. by apply list_elem_of_further.
Qed.

Lemma prev_chain_ext s s' l : forall pv,
  (forall b, b ∈ l -> block_prev (blk s' b) = block_prev (blk s b)) ->
  prev_chain s pv l -> prev_chain s' pv l.
Proof.
  induction l as [|x l IH]; intros pv Hsame Ht; [exact I|].
  destruct Ht as [Hx Ht]. split.
  - rewrite Hsame by apply list_elem_of_here. exact Hx.
  - apply IH; [|exact Ht]. intros b Hb. apply Hsame. by apply list_elem_of_further.
Qed.

Lemma tight_snoc s l b : forall ub,
  tight s ub l ->
  b + block_size (blk s b)
    = (match l with [] => ub | _ => List.last l NULL - sizeof_BLOCK end) ->
  tight s ub (l ++ [b]).
Proof.
  induction l as [|x l IH]; intros ub Ht Hb.
  - split; [exact Hb | exact I].
  - destruct Ht as [Hx Ht]. split; [exact Hx|].
    apply IH; [exact Ht|]. destruct l as [|y l]; [exact Hb|].
    rewrite last_cons_cons in Hb. exact Hb.
Qed.

Lemma prev_chain_snoc s l b : forall pv,
  prev_chain s pv l ->
  block_prev (blk s b) = (match l with [] => pv | _ => List.last l NULL end) ->
  prev_chain s pv (l ++ [b]).
Proof.
  induction l as [|x l IH]; intros pv Ht Hb.
  - split; [exact Hb | exact I].
  - destruct Ht as [Hx Ht]. split; [exact Hx|].
    apply IH; [exact Ht|]. destruct l as [|y l]; [exact Hb|].
    rewrite last_cons_cons in Hb. exact Hb.
Qed.

(** The bytes from the lowest block up to [ub]: the blocks, and one
    block header between each two of them. *)
Lemma tight_span s l : forall ub,
  tight s ub l -> l <> [] ->
  ub - List.last l NULL
  = sum_block_sizes s l + (Z.of_nat (length l) - 1) * sizeof_BLOCK.
Proof.
  induction l as [|x l IH]; intros ub Ht Hne; [contradiction|].
  destruct Ht as [Hx Ht].
  change (sum_block_sizes s (x :: l))
    with (block_size (blk s x) + sum_block_sizes s l).
  destruct l as [|y l].
  - cbn. lia.
  - rewrite last_cons_cons. specialize (IH _ Ht ltac:(discriminate)).
    cbn [length] in *. lia.
Qed.

Lemma placed_ext s s' sh sh' :
  Placed s sh -> BL sh' = BL sh ->
  HEAP_TOP s' = HEAP_TOP s -> HEAP_BOTTOM s' = HEAP_BOTTOM s ->
  (forall b, b ∈ BL sh ->
     block_size (blk s' b) = block_size (blk s b) /\
     block_prev (blk s' b) = block_prev (blk s b)) ->
  Placed s' sh'.
Proof.
  intros [H1 H2 H3 H4 H5] HBL Ht Hb Hsame.
  constructor; rewrite ?HBL, ?Ht, ?Hb; auto.
  - eapply tight_ext; [|exact H4]. intros b Hin. apply (Hsame b Hin).
  - eapply prev_chain_ext; [|exact H5]. intros b Hin. apply (Hsame b Hin).
Qed.

Lemma placed_same_layout s s' sh sh' :
  Placed s sh -> BL sh' = BL sh -> same_layout s s' -> Placed s' sh'.
Proof.
  intros H HBL Hl. eapply placed_ext; [exact H | exact HBL | | |].
  - apply (sl_top _ _ Hl).
  - apply (sl_bottom _ _ Hl).
  - intros b _. destruct (sl_block _ _ Hl b) as (? & _ & ? & _). auto.
Qed.

Lemma new_block_prev R s x :
  x <> wrap (new_block_start s - new_block_size R s) ->
  block_prev (blk (snd (__new_block R s)) x) = block_prev (blk s x).
Proof.
  intros Hx. unfold __new_block.
  destruct (_ <? HEAP_BOTTOM s); [reflexivity|].
  change (__first_block (store_BLOCK _ _ s)) with (__first_block s).
  change (__last_block (store_BLOCK _ _ s)) with (__last_block s).
  destruct (__first_block s =? NULL); cbn [snd]; unfold_sets; store_simpl.
  - rewrite ?decide_False by congruence. reflexivity.
  - destruct (decide (__last_block s = x)) as [E|E].
    + subst x. store_simpl. rewrite ?decide_False by congruence. reflexivity.
    + rewrite ?decide_False by congruence. reflexivity.
Qed.

Lemma new_block_placed s P sh R :
  Inv s P sh -> Placed s sh -> 0 <= R ->
  let size := Z.max (PAGESIZE s) (R + sizeof_BLOCK) in
  let start := if __last_block s =? NULL then HEAP_TOP s
               else __last_block s - sizeof_BLOCK in
  size < start -> HEAP_BOTTOM s <= start - size ->
  Placed (snd (__new_block R s)) (with_block (start - size) sh).
Proof.
  intros H Hpl HR size start Hrange Hroom.
  pose proof sizeof_BLOCK_pos as HB.
  pose proof (new_block_inv s P sh R H HR) as Hnb.
  cbv zeta in Hnb. fold size in Hnb. fold start in Hnb.
  destruct (Hnb Hrange) as (Hsz & Hst & Hw & _ & Hok). clear Hnb.
  destruct (Hok Hroom) as (_ & Hnot & Hbn & Hinv1 & _ & Hsize1 & _).
  assert (Hlast : start - size <> __last_block s).
  { subst start. destruct (Z.eqb_spec (__last_block s) NULL) as [E|E].
    - rewrite E. exact Hbn.
    - subst size. lia. }
  pose proof (new_block_reads R s) as Hrd. cbv zeta in Hrd.
  rewrite Hsz, Hst, Hw in Hrd.
  destruct (Hrd ltac:(lia) Hlast)
    as (_ & (Ht & Hbo & _) & Hblk & Hother & _).
  pose proof (new_block_prev R s) as Hprev. rewrite Hsz, Hst, Hw in Hprev.
  destruct Hpl as [H1 H2 H3 H4 H5].
  set (s' := snd (__new_block R s)) in *.
  assert (HlastBL : __last_block s = List.last (BL sh) NULL)
    by apply (inv_last _ _ _ H).
  constructor; cbn [with_block BL]; rewrite ?Ht, ?Hbo; auto.
  - intros b Hb. apply elem_of_app in Hb as [Hb|Hb]; [auto|].
    apply list_elem_of_singleton in Hb as ->. exact Hroom.
  - apply tight_snoc.
    + eapply tight_ext; [|exact H4]. intros b Hb.
      apply Hother. intros ->. contradiction.
    + rewrite Hblk. cbn [block_size]. subst start. rewrite HlastBL.
      destruct (BL sh) as [|y l] eqn:E.
      * cbn. change (NULL =? NULL) with true. cbv iota. lia.
      * destruct (Z.eqb_spec (List.last (y :: l) NULL) NULL) as [E0|_]; [|lia].
        exfalso. pose proof (last_elem_of (y :: l) NULL ltac:(discriminate)) as Hin.
        rewrite E0, <- E in Hin.
        destruct (inv_block _ _ _ _ H Hin) as (? & _). unfold NULL in *. lia.
  - apply prev_chain_snoc.
    + eapply prev_chain_ext; [|exact H5]. intros b Hb.
      apply Hprev. intros ->. contradiction.
    + rewrite Hblk. cbn [block_prev]. rewrite HlastBL.
      destruct (BL sh); reflexivity.
Qed.

End PlacedFacts.

(** ** One call, step by step *)

Section Steps.
Context {abi : ABI}.

(** A carve leaves the place and the size of every block as they were. *)
Lemma carve_placed b R s sh sh' :
  Placed s sh -> BL sh' = BL sh -> Placed (snd (carve b R s)) sh'.
Proof.
  intros Hpl HBL. destruct (carve_reads b R s) as (_ & (Ht & Hb & _) & Hblk & _).
  eapply placed_ext; [exact Hpl | exact HBL | exact Ht | exact Hb |].
  intros x _. rewrite Hblk. destruct (decide (x = b)) as [->|]; auto.
Qed.

(** What a [smalloc] that returns a pointer has done: the chunk [c] behind
    the pointer belongs to block [b] of the new shape, is flagged, has room
    for the request, and was either taken from a free-list, or carved at
    the top of the first block with room, or carved from a new block. *)
Lemma smalloc_step s P sh n p s' :
  Inv s P sh -> Placed s sh ->
  (growth_attempted n s -> growth_in_range n s) ->
  smalloc n s = Some (p, s') -> p <> NULL ->
  let c := p - sizeof_CHUNK in
  let R := alloc_size n in
  let size := Z.max (PAGESIZE s) (R + sizeof_BLOCK) in
  let start := if __last_block s =? NULL then HEAP_TOP s
               else __last_block s - sizeof_BLOCK in
  exists sh' b,
    Inv s' (p :: P) sh' /\ Placed s' sh' /\
    (HEAP_TOP s' = HEAP_TOP s /\ HEAP_BOTTOM s' = HEAP_BOTTOM s /\
     PAGESIZE s' = PAGESIZE s) /\
    b ∈ BL sh' /\ c ∈ CL sh' b /\
    R <= chunk_size (hdr s' c) /\
    Z.land (chunk_flags (hdr s' c)) ALLOCD <> 0 /\
    (forall x, x <> c -> hdr s' x = hdr s x) /\
    (forall x, x ∈ BL sh ->
       block_size (blk s' x) = block_size (blk s x) /\
       (x <> b ->
        block_remaining (blk s' x) = block_remaining (blk s x) /\
        block_top (blk s' x) = block_top (blk s x) /\
        CL sh' x = CL sh x /\ FL sh' x = FL sh x)) /\
    ((BL sh' = BL sh /\ CL sh' b = CL sh b /\
      (exists l1 l2, FL sh b = l1 ++ c :: l2 /\ FL sh' b = l1 ++ l2) /\
      find (in_window s R (wrap (Z.shiftl R 1))) (free_entries sh) = Some c /\
      chunk_size (hdr s' c) = chunk_size (hdr s c) /\
      block_remaining (blk s' b) = block_remaining (blk s b) /\
      block_top (blk s' b) = block_top (blk s b)) \/
     (BL sh' = BL sh /\ CL sh' b = CL sh b ++ [c] /\ FL sh' b = FL sh b /\
      find (in_window s R (wrap (Z.shiftl R 1))) (free_entries sh) = None /\
      find (fun b => block_remaining (blk s b) >=? R) (BL sh) = Some b /\
      c = block_top (blk s b) /\
      chunk_size (hdr s' c) = R /\
      block_remaining (blk s' b) = block_remaining (blk s b) - R /\
      block_top (blk s' b) = block_top (blk s b) + R) \/
     (BL sh' = BL sh ++ [b] /\ (b ∉ BL sh) /\ CL sh' b = [c] /\ FL sh' b = [] /\
      find (in_window s R (wrap (Z.shiftl R 1))) (free_entries sh) = None /\
      find (fun b => block_remaining (blk s b) >=? R) (BL sh) = None /\
      b = start - size /\ size < start /\ HEAP_BOTTOM s <= b /\
      c = b + sizeof_BLOCK /\
      chunk_size (hdr s' c) = R /\
      block_size (blk s' b) = size /\
      block_remaining (blk s' b) = size - sizeof_BLOCK - R /\
      block_top (blk s' b) = b + sizeof_BLOCK + R)).
Proof.
  intros H Hpl Hcontract Hsm0 Hp c R size start.
  pose proof (alloc_size_bounds n) as [HRlo HRhi]. fold R in HRlo, HRhi.
  pose proof sizeof_CHUNK_pos as HC. pose proof sizeof_BLOCK_pos as HB.
  pose proof sizeof_FREED_pos as HF.
  assert (Hallocd : Z.land ALLOCD ALLOCD <> 0) by (cbv; discriminate).
  destruct (smalloc_cases s P sh n H Hcontract)
    as [(c0 & b & l1 & l2 & Hfind & Hb & HFL & Hown & Hsm & Hcn & Hinv)
       |[(Hfind & b & Hroom & Hb & Hrem & Hsm & Hfst & Hinv)
       |[(_ & _ & _ & _ & Hsm)
       |(Hfind & Hroom & Hrange & Hbot & Hfst & Hnot & Hbn & Hbsz & Hinv1
         & Hsm & Hfst2 & Htop1 & Hinv)]]];
    try (fold R in Hfind); rewrite Hsm0 in Hsm.
  - (* recycled *)
    cbn zeta in Hsm, Hinv. fold R in Hsm, Hinv. injection Hsm as Hp' Hs'.
    assert (Hc : c = c0) by (subst c; lia). rewrite Hc. clear c Hc.
    rewrite Hp'. rewrite Hs'.
    destruct (recycle_inv s P sh b c0 l1 l2 H Hb HFL) as (_ & Hsz & Hflag & HcCL).
    cbn zeta in Hsz, Hflag.
    set (s2 := set_chunk_flags c0 _ (dequeue b c0 s)) in *.
    assert (Hl : same_layout s s2).
    { eapply same_layout_trans; [apply same_layout_dequeue|].
      apply same_layout_set_chunk_flags. }
    exists (with_FL b (l1 ++ l2) sh), b.
    split; [exact Hinv|].
    split; [by apply (placed_same_layout s s2 sh)|].
    split. { destruct Hl; auto. }
    split; [exact Hb|]. split; [exact HcCL|].
    assert (Hwin : R <= chunk_size (hdr s c0)).
    { apply find_elem_of in Hfind as [_ Hwin]. unfold in_window in Hwin.
      apply andb_true_iff in Hwin as [Hge _]. by apply Z.geb_le in Hge. }
    split; [rewrite Hsz; exact Hwin|]. split; [exact Hflag|].
    split.
    { intros x Hx. subst s2. rewrite hdr_set_chunk_flags, decide_False by exact Hx.
      apply hdr_dequeue. }
    split.
    { intros x Hx. destruct (sl_block _ _ Hl x) as (_ & _ & ? & ? & ?).
      split; [assumption|]. intros Hne. cbn [with_FL CL FL].
      rewrite fn_lookup_insert_ne by congruence. auto. }
    left. destruct (sl_block _ _ Hl b) as (_ & _ & _ & ? & ?).
    cbn [with_FL BL CL FL]. rewrite fn_lookup_insert.
    split; [reflexivity|]. split; [reflexivity|]. split; [eauto|].
    auto.
  - (* carved from a block with room *)
    fold R in Hroom, Hrem, Hsm, Hfst, Hinv.
    destruct (carve_inv s P sh b R H Hb HRlo Hrem) as (_ & _ & Hh & Hoth & Hrem' & _).
    destruct (carve_reads b R s) as (_ & Hglob & Hblk & _).
    cbn zeta in Hh, Hoth, Hrem', Hblk, Hglob.
    destruct (carve b R s) as [p' s''] eqn:E. cbn [fst snd] in *.
    injection Hsm as Hp' Hs'. subst p' s''.
    assert (Hc : c = block_top (blk s b)) by (subst c; lia).
    rewrite Hc. clear c Hc. set (t := block_top (blk s b)) in *.
    exists (with_CL b (CL sh b ++ [t]) sh), b.
    split; [rewrite Hfst; exact Hinv|].
    split. { pose proof (carve_placed b R s sh (with_CL b (CL sh b ++ [t]) sh)
                           Hpl eq_refl) as Hq. rewrite E in Hq. exact Hq. }
    split. { destruct Hglob as (? & ? & ? & _). auto. }
    split; [exact Hb|].
    split. { cbn [with_CL CL]. rewrite fn_lookup_insert. apply elem_of_app.
             right. apply list_elem_of_here. }
    rewrite Hh. cbn [chunk_size chunk_flags].
    split; [lia|]. split; [exact Hallocd|]. split; [exact Hoth|].
    assert (Htop' : block_top (blk s' b) = t + R).
    { pose proof (bo_top _ _ _ _ (inv_blocks _ _ _ Hinv b Hb)) as Ht'.
      pose proof (bo_top _ _ _ _ (inv_blocks _ _ _ H b Hb)) as Ht.
      rewrite Hrem' in Ht'. rewrite Ht'. fold t in Ht. rewrite Ht.
      rewrite Hblk, decide_True by reflexivity. cbn [block_size]. lia. }
    split.
    { intros x Hx. rewrite Hblk.
      destruct (decide (x = b)) as [->|Hne]; cbn [block_size].
      - split; [reflexivity|]. intros Hne. contradiction.
      - split; [reflexivity|]. intros _. cbn [with_CL CL FL].
        rewrite fn_lookup_insert_ne by congruence. auto. }
    right. left. cbn [with_CL BL CL FL]. rewrite fn_lookup_insert.
    repeat (split; [first [reflexivity | assumption]|]). exact Htop'.
  - injection Hsm as Hp' _. congruence.
  - (* carved from a new block *)
    cbn zeta in *. fold R in Hrange, Hbot, Hfst, Hnot, Hbn, Hbsz, Hinv1, Hsm,
      Hfst2, Htop1, Hinv, Hroom. fold size in Hrange, Hbot, Hfst, Hnot, Hbn,
      Hbsz, Hinv1, Hsm, Hfst2, Htop1, Hinv. fold start in Hrange, Hbot, Hfst,
      Hnot, Hbn, Hbsz, Hinv1, Hsm, Hfst2, Htop1, Hinv.
    set (b := start - size) in *.
    pose proof (new_block_placed s P sh R H Hpl ltac:(lia)) as Hpl1.
    cbv zeta in Hpl1. fold size in Hpl1. fold start in Hpl1.
    specialize (Hpl1 Hrange Hbot). fold b in Hpl1.
    pose proof (new_block_inv s P sh R H ltac:(lia)) as Hnb.
    cbv zeta in Hnb. fold size in Hnb. fold start in Hnb.
    destruct (Hnb Hrange) as (Hsz & Hst & Hw & _ & Hok). clear Hnb.
    destruct (Hok Hbot) as (_ & _ & _ & _ & Hrem1 & _ & Hchunks). clear Hok.
    fold b in Hrem1, Hchunks.
    assert (Hlast : b <> __last_block s).
    { subst b start. destruct (Z.eqb_spec (__last_block s) NULL) as [E|E].
      - rewrite E. exact Hbn.
      - subst size. lia. }
    pose proof (new_block_reads R s) as Hrd. cbv zeta in Hrd.
    rewrite Hsz, Hst, Hw in Hrd. fold b in Hrd.
    destruct (Hrd ltac:(lia) Hlast)
      as (_ & (Ht1 & Hbo1 & Hpg1 & _) & _ & Hother & _). clear Hrd.
    set (s1 := snd (__new_block R s)) in *.
    assert (Hb1 : b ∈ BL (with_block b sh)).
    { cbn. apply elem_of_app. right. apply list_elem_of_here. }
    assert (Hrem : R <= block_remaining (blk s1 b)) by (rewrite Hrem1; subst size; lia).
    destruct (carve_inv s1 P _ b R Hinv1 Hb1 HRlo Hrem) as (_ & _ & Hh & Hoth & Hrem' & _).
    destruct (carve_reads b R s1) as (_ & Hglob & Hblk & _).
    cbn zeta in Hh, Hoth, Hrem', Hblk, Hglob. rewrite Htop1 in Hh, Hoth.
    destruct (carve b R s1) as [p' s''] eqn:E. cbn [fst snd] in *.
    injection Hsm as Hp' Hs'. subst p' s''.
    assert (Hc : c = b + sizeof_BLOCK) by (subst c; lia).
    rewrite Hc. clear c Hc.
    exists (with_CL b [b + sizeof_BLOCK] (with_block b sh)), b.
    split; [rewrite Hfst2; exact Hinv|].
    split. { pose proof (carve_placed b R s1 (with_block b sh)
                           (with_CL b [b + sizeof_BLOCK] (with_block b sh))
                           Hpl1 eq_refl) as Hq. rewrite E in Hq. exact Hq. }
    split. { destruct Hglob as (-> & -> & -> & _). auto. }
    split; [exact Hb1|].
    split. { cbn [with_CL CL]. rewrite fn_lookup_insert. apply list_elem_of_here. }
    rewrite Hh. cbn [chunk_size chunk_flags].
    split; [lia|]. split; [exact Hallocd|].
    split. { intros x Hx. rewrite (Hoth x Hx). unfold hdr, frd. by rewrite Hchunks. }
    assert (Hsize' : block_size (blk s' b) = size).
    { rewrite Hblk, decide_True by reflexivity. exact Hbsz. }
    assert (Htop' : block_top (blk s' b) = b + sizeof_BLOCK + R).
    { pose proof (bo_top _ _ _ _ (inv_blocks _ _ _ Hinv b Hb1)) as Ht'.
      rewrite Hrem', Hrem1, Hsize' in Ht'. lia. }
    split.
    { intros x Hx. assert (Hne : x <> b) by (intros ->; contradiction).
      rewrite Hblk, decide_False by exact Hne.
      destruct (Hother x Hne) as (? & ? & ? & _).
      split; [assumption|]. intros _. cbn [with_CL with_block CL FL].
      rewrite !fn_lookup_insert_ne by congruence. auto. }
    right. right. cbn [with_CL with_block BL CL FL]. rewrite !fn_lookup_insert.
    repeat (split; [first [reflexivity | assumption | lia]|]). exact Htop'.
Qed.

(** Every reachable heap has a shape whose blocks lie between the bounds. *)
Lemma reachable_placed s P :
  reachable s P -> exists sh, Inv s P sh /\ Placed s sh.
Proof.
  induction 1 as [bm cm | s P top size bottom _ (sh & IH & IHp) Ht Hsz Hbo
                 | s P n p s' _ (sh & IH & IHp) _ Hc Hsm
                 | s P p _ (sh & IH & IHp) Hp].
  - eexists. split; [apply boot_inv|]. constructor; cbn; try lia; auto.
    intros b Hb. by apply not_elem_of_nil in Hb.
  - unfold __smalloc_init, init_rejects.
    destruct (Z.gtb_spec bottom top) as [Hgt|Hle]; cbn [orb]; [eauto|].
    destruct (wrap (top - bottom) <? size); [eauto|].
    exists (mkShape [] (fun _ => []) (fun _ => [])). split.
    + destruct Ht. constructor; cbn; auto using NoDup_nil_2.
      * intros b Hb. by apply not_elem_of_nil in Hb.
      * intros q Hq. by apply not_elem_of_nil in Hq.
    + destruct Hbo. constructor; cbn; auto.
      intros b Hb. by apply not_elem_of_nil in Hb.
  - destruct (Z.eqb_spec p NULL) as [E|E].
    + destruct (smalloc_cases s P sh n IH Hc)
        as [(c0 & b & l1 & l2 & _ & Hb & HFL & _ & Hsm' & _ & _)
           |[(_ & b & _ & Hb & _ & Hsm' & Hfst & _)
           |[(_ & _ & _ & _ & Hsm')
           |(_ & _ & Hrange & Hbot & _ & _ & _ & _ & _ & Hsm' & Hfst2 & _)]]];
        rewrite Hsm in Hsm'; cbn zeta in *.
      * exfalso. injection Hsm' as Hp' _.
        pose proof (bo_free_carved _ _ _ _ (inv_blocks _ _ _ IH b Hb) c0) as Hc'.
        rewrite HFL in Hc'.
        specialize (Hc' ltac:(apply elem_of_app; right; apply list_elem_of_here)).
        destruct (inv_chunk_word _ _ _ _ _ IH Hb Hc') as (? & _).
        pose proof sizeof_CHUNK_pos. unfold NULL in *. lia.
      * exfalso. destruct (carve b (alloc_size n) s) as [p' s''].
        injection Hsm' as Hp' _. cbn [fst] in Hfst.
        destruct (inv_block _ _ _ _ IH Hb) as (? & ? & ? & _).
        pose proof sizeof_CHUNK_pos. pose proof sizeof_BLOCK_pos.
        unfold NULL in *. lia.
      * injection Hsm' as _ <-. eauto.
      * exfalso. destruct (carve _ (alloc_size n) _) as [p' s''].
        injection Hsm' as Hp' _. cbn [fst] in Hfst2.
        pose proof (pl_bottom_word _ _ IHp).
        pose proof sizeof_CHUNK_pos. pose proof sizeof_BLOCK_pos.
        unfold NULL in *. lia.
    + destruct (smalloc_step s P sh n p s' IH IHp Hc Hsm E)
        as (sh' & b & Hinv & Hpl & _). eauto.
  - destruct (sfree_inv s P sh p IH Hp) as (_ & _ & _ & Hfree & Halloc).
    destruct (Z.eq_dec (Z.land (chunk_flags (hdr s (wrap (p - sizeof_CHUNK)))) ALLOCD) 0)
      as [E|E].
    + destruct (Hfree E) as [-> _]. eauto.
    + destruct (Halloc E) as [_ Hinv]. eexists. split; [exact Hinv|].
      eapply placed_same_layout; [exact IHp | reflexivity | apply same_layout_sfree].
Qed.

End Steps.

(** ** Sums and walks on two states *)

Section Walks.
Context {abi : ABI}.

Lemma sum_block_sizes_ext s s' l :
  (forall b, b ∈ l -> block_size (blk s' b) = block_size (blk s b)) ->
  sum_block_sizes s' l = sum_block_sizes s l.
Proof.
  induction l as [|x l IH]; intros Hsame; [reflexivity|].
  change (block_size (blk s' x) + sum_block_sizes s' l
          = block_size (blk s x) + sum_block_sizes s l).
  rewrite Hsame by apply list_elem_of_here.
  rewrite IH; [reflexivity|]. intros b Hb. apply Hsame. by apply list_elem_of_further.
Qed.

Lemma sum_remaining_ext s s' l :
  (forall b, b ∈ l -> block_remaining (blk s' b) = block_remaining (blk s b)) ->
  sum_remaining s' l = sum_remaining s l.
Proof.
  induction l as [|x l IH]; intros Hsame; [reflexivity|].
  change (block_remaining (blk s' x) + sum_remaining s' l
          = block_remaining (blk s x) + sum_remaining s l).
  rewrite Hsame by apply list_elem_of_here.
  rewrite IH; [reflexivity|]. intros b Hb. apply Hsame. by apply list_elem_of_further.
Qed.

Lemma sum_chunk_sizes_ext s s' l :
  (forall c, c ∈ l -> chunk_size (hdr s' c) = chunk_size (hdr s c)) ->
  sum_chunk_sizes s' l = sum_chunk_sizes s l.
Proof.
  induction l as [|x l IH]; intros Hsame; [reflexivity|].
  change (chunk_size (hdr s' x) + sum_chunk_sizes s' l
          = chunk_size (hdr s x) + sum_chunk_sizes s l).
  rewrite Hsame by apply list_elem_of_here.
  rewrite IH; [reflexivity|]. intros b Hb. apply Hsame. by apply list_elem_of_further.
Qed.

(** The sum over the free-lists when the list of one block is replaced. *)
Lemma sum_free_lists_insert s (g : Z -> list Z) b l : forall bl,
  NoDup bl ->
  sum_chunk_sizes s (concat (map (<[b := l]> g) bl))
  = sum_chunk_sizes s (concat (map g bl))
    + (if decide (b ∈ bl)
       then sum_chunk_sizes s l - sum_chunk_sizes s (g b) else 0).
Proof.
  induction bl as [|x bl IH]; intros Hnd.
  - cbn. rewrite decide_False by apply not_elem_of_nil. reflexivity.
  - apply NoDup_cons in Hnd as [Hx Hnd]. cbn [map concat].
    rewrite !sum_chunk_sizes_app, IH by exact Hnd.
    destruct (decide (x = b)) as [->|Hne].
    + rewrite fn_lookup_insert, (decide_False (P := b ∈ bl)) by exact Hx.
      rewrite decide_True by apply list_elem_of_here. lia.
    + rewrite fn_lookup_insert_ne by congruence.
      destruct (decide (b ∈ bl)) as [Hin|Hout].
      * rewrite decide_True by (by apply list_elem_of_further). lia.
      * rewrite decide_False; [lia|].
        intros Hin. apply elem_of_cons in Hin as [->|Hin]; contradiction.
Qed.

(** The first match when an entry that matches is put in front of the
    list of block [b] and nothing else matches. *)
Lemma find_free_lists_push {f : Z -> bool} (g : Z -> list Z) b c : forall bl,
  b ∈ bl -> f c = true ->
  (forall x, x ∈ concat (map g bl) -> f x = false) ->
  find f (concat (map (<[b := c :: g b]> g) bl)) = Some c.
Proof.
  induction bl as [|x bl IH]; intros Hb Hc Hnone.
  - by apply not_elem_of_nil in Hb.
  - cbn [map concat] in *. rewrite find_app.
    destruct (decide (x = b)) as [->|Hne].
    + rewrite fn_lookup_insert. cbn [find]. rewrite Hc. reflexivity.
    + rewrite fn_lookup_insert_ne by congruence.
      rewrite (find_all_false f (g x)).
      * apply IH; [|exact Hc|].
        -- apply elem_of_cons in Hb as [->|Hb]; [contradiction | exact Hb].
        -- intros y Hy. apply Hnone, elem_of_app. by right.
      * intros y Hy. apply Hnone, elem_of_app. left. by apply list_elem_of_In.
Qed.

Lemma find_none_all {A} (f : A -> bool) (l : list A) x :
  find f l = None -> In x l -> f x = false.
Proof. intros Hf Hx. exact (find_none f l Hf x Hx). Qed.

(** The inner walk of [print_heap] over the chunks of a block. *)
Lemma print_chunks_spec s b l : forall fuel p top,
  carved s b p l top -> 0 <= p -> top < 2 ^ word_bits ->
  (length l < fuel)%nat ->
  print_chunks fuel p top s = Some (chunk_lines s l).
Proof.
  pose proof sizeof_FREED_pos as HF.
  induction l as [|x l IH]; intros fuel p top Hc Hp Htop Hfuel;
    (destruct fuel as [|fuel]; [cbn in Hfuel; lia|]); cbn [print_chunks].
  - cbn in Hc. subst p. rewrite Z.ltb_irrefl. reflexivity.
  - destruct Hc as (-> & _ & Hsz & Hc).
    destruct (carved_bounds _ _ _ _ _ Hc) as [Hle _].
    destruct (Z.ltb_spec x top) as [_|?]; [|lia].
    rewrite wrap_small by lia.
    rewrite (IH fuel _ top Hc) by (cbn in Hfuel; lia).
    reflexivity.
Qed.

Lemma inv_chunks_fuel s P sh b :
  Inv s P sh -> b ∈ BL sh -> (length (CL sh b) < chunk_fuel s)%nat.
Proof.
  intros H Hb. pose proof (inv_blocks _ _ _ H b Hb) as Hok.
  pose proof (nodup_length_le_size (chunks s) (CL sh b)
                (carved_nodup _ _ _ _ _ (bo_carved _ _ _ _ Hok))
                (bo_chunks_present _ _ _ _ Hok)).
  unfold chunk_fuel. lia.
Qed.

(** The outer walk of [print_heap] over the blocks. *)
Lemma print_blocks_spec s P sh : forall l fuel p,
  Inv s P sh -> (forall b, b ∈ l -> b ∈ BL sh) ->
  block_chain s p l -> (length l < fuel)%nat ->
  print_blocks fuel p s = Some (concat (map (block_lines s sh) l)).
Proof.
  pose proof sizeof_BLOCK_pos as HB.
  induction l as [|x l IH]; intros fuel p H Hsub Hch Hfuel;
    (destruct fuel as [|fuel]; [cbn in Hfuel; lia|]); cbn [print_blocks].
  - cbn in Hch. subst p. reflexivity.
  - destruct Hch as (-> & Hx & Hch).
    destruct (Z.eqb_spec x NULL) as [?|_]; [contradiction|].
    assert (Hin : x ∈ BL sh) by (apply Hsub, list_elem_of_here).
    destruct (inv_block _ _ _ _ H Hin) as (Hx0 & Hsz & Hlow & Htop & Hend & _).
    pose proof (inv_top _ _ _ H) as HT.
    rewrite wrap_small by lia.
    rewrite (print_chunks_spec s x (CL sh x) (chunk_fuel s) (x + sizeof_BLOCK)
               (block_top (blk s x))
               (bo_carved _ _ _ _ (inv_blocks _ _ _ H x Hin))
               ltac:(lia) ltac:(lia) (inv_chunks_fuel _ _ _ _ H Hin)).
    rewrite (IH fuel _ H); [reflexivity | | exact Hch | cbn in Hfuel; lia].
    intros b Hb. apply Hsub. by apply list_elem_of_further.
Qed.

Lemma print_heap_spec s P sh :
  Inv s P sh -> print_heap s = Some (heap_lines s sh).
Proof.
  intros H. unfold print_heap, __smalloc_first_block, heap_lines.
  rewrite (print_blocks_spec s P sh (BL sh)); auto.
  - apply (inv_chain _ _ _ H).
  - apply (inv_block_fuel _ _ _ H).
Qed.

End Walks.

(** * Further properties of the code

    ** memcpy *)

Section MemcpyMore.
Context {abi : ABI}.

Lemma copy_ascending_snoc k : forall d s m,
  copy_ascending (S k) d s m
  = <[d + Z.of_nat k := copy_ascending k d s m (s + Z.of_nat k)]>
      (copy_ascending k d s m).
Proof.
  induction k as [|k IH]; intros d s m.
  - cbn [copy_ascending Z.of_nat]. rewrite !Z.add_0_r. reflexivity.
  - change (copy_ascending (S (S k)) d s m)
      with (copy_ascending (S k) (d + 1) (s + 1) (<[d := m s]> m)).
    rewrite IH.
    change (copy_ascending (S k) d s m)
      with (copy_ascending k (d + 1) (s + 1) (<[d := m s]> m)).
    replace (d + 1 + Z.of_nat k) with (d + Z.of_nat (S k)) by lia.
    replace (s + 1 + Z.of_nat k) with (s + Z.of_nat (S k)) by lia.
    reflexivity.
Qed.

Lemma copy_ascending_app a : forall b d s m,
  copy_ascending (a + b) d s m
  = copy_ascending b (d + Z.of_nat a) (s + Z.of_nat a) (copy_ascending a d s m).
Proof.
  induction a as [|a IH]; intros b d s m.
  - cbn [copy_ascending Nat.add Z.of_nat]. rewrite !Z.add_0_r. reflexivity.
  - cbn [copy_ascending Nat.add]. rewrite IH.
    replace (d + 1 + Z.of_nat a) with (d + Z.of_nat (S a)) by lia.
    replace (s + 1 + Z.of_nat a) with (s + Z.of_nat (S a)) by lia.
    reflexivity.
Qed.

(** A destination that starts inside the source, [D] bytes above its
    start, receives the first [D] source bytes over and over. *)
Lemma copy_ascending_period k : forall d s m i,
  s < d -> 0 <= i < Z.of_nat k ->
  copy_ascending k d s m (d + i) = m (s + i mod (d - s)).
Proof.
  induction k as [|k IH]; intros d s m i Hsd Hi; [lia|].
  rewrite copy_ascending_snoc. unfold memory in *.
  destruct (Z.eq_dec i (Z.of_nat k)) as [->|Hne].
  - rewrite fn_lookup_insert.
    destruct (Z.lt_ge_cases (Z.of_nat k) (d - s)) as [Hlt|Hge].
    + rewrite copy_ascending_frame by lia.
      rewrite Z.mod_small by lia. reflexivity.
    + replace (s + Z.of_nat k) with (d + (Z.of_nat k - (d - s))) by lia.
      rewrite IH by lia. f_equal. f_equal.
      replace (Z.of_nat k - (d - s)) with (Z.of_nat k + (-1) * (d - s)) by lia.
      apply Z_mod_plus_full.
  - rewrite fn_lookup_insert_ne by lia. apply IH; lia.
Qed.

(** X1. [memcpy] with an overlapping destination above the source: the
    ascending byte loop reads bytes it has already written, so the
    destination receives the first [dst - src] source bytes repeated, not
    a copy of the source. *)
Theorem memcpy_overlap_above_repeats_prefix (dst src count : Z) (m : memory) :
  0 < src -> src < dst -> 0 <= count -> dst + count <= 2 ^ word_bits ->
  exists m',
    memcpy dst src count m = Some (dst, m') /\
    forall i, 0 <= i < count -> m' (dst + i) = m (src + i mod (dst - src)).
Proof.
  intros Hs Hsd Hc Hr.
  exists (copy_ascending (Z.to_nat count) dst src m). split.
  - unfold memcpy.
    assert (Hk : Z.of_nat (Z.to_nat count) = count) by lia.
    rewrite <- Hk at 2. rewrite memcpy_loop_copies by lia. reflexivity.
  - intros i Hi. apply copy_ascending_period; lia.
Qed.

(** X3. Copying [a + b] bytes is copying [a] bytes and then [b] bytes
    from where the first copy stopped. *)
Theorem memcpy_in_two_parts (dst src a b : Z) (m m1 m2 : memory) :
  0 < dst -> 0 < src -> 0 <= a -> 0 <= b ->
  dst + a + b <= 2 ^ word_bits -> src + a + b <= 2 ^ word_bits ->
  memcpy dst src a m = Some (dst, m1) ->
  memcpy (dst + a) (src + a) b m1 = Some (dst + a, m2) ->
  memcpy dst src (a + b) m = Some (dst, m2).
Proof.
  intros Hd Hs Ha Hb Hdr Hsr H1 H2. unfold memcpy in *.
  assert (Hka : Z.of_nat (Z.to_nat a) = a) by lia.
  assert (Hkb : Z.of_nat (Z.to_nat b) = b) by lia.
  assert (Hkab : Z.of_nat (Z.to_nat (a + b)) = a + b) by lia.
  rewrite <- Hka in H1 at 2. rewrite memcpy_loop_copies in H1 by lia.
  rewrite <- Hkb in H2 at 2. rewrite memcpy_loop_copies in H2 by lia.
  rewrite <- Hkab at 2. rewrite memcpy_loop_copies by lia.
  injection H1 as <-. injection H2 as <-.
  rewrite Z2Nat.inj_add by lia. rewrite copy_ascending_app, Hka. reflexivity.
Qed.

End MemcpyMore.

(** ** Configuration, and the first allocation *)

Section InitMore.
Context {abi : ABI}.

Lemma wrap_ushort_one : wrap_ushort 1 = 1.
Proof.
  unfold wrap_ushort. apply Z.mod_small. pose proof ushort_bits_pos.
  pose proof (Z.pow_le_mono_r 2 1 ushort_bits). lia.
Qed.

(** After a call of [__smalloc_init] that passes the guard the heap has
    no blocks, whatever the state was. *)
Lemma init_accepted_shape s top size bottom :
  is_word top -> is_word bottom -> bottom <= top -> size <= top - bottom ->
  let s0 := __smalloc_init top size bottom s in
  s0 = mkHeap top bottom size NULL NULL (blocks s) (chunks s) /\
  Inv s0 [] no_blocks /\ Placed s0 no_blocks.
Proof.
  intros [Ht0 Ht1] [Hb0 Hb1] Hbt Hsz s0. subst s0. unfold __smalloc_init.
  destruct (Z.gtb_spec bottom top) as [?|_]; [lia|]. cbn [orb].
  rewrite wrap_small by lia.
  destruct (Z.ltb_spec (top - bottom) size) as [?|_]; [lia|].
  split; [reflexivity|]. split.
  - constructor; cbn; auto using NoDup_nil_2.
    + intros b Hb. by apply not_elem_of_nil in Hb.
    + intros q Hq. by apply not_elem_of_nil in Hq.
  - constructor; cbn; auto.
    intros b Hb. by apply not_elem_of_nil in Hb.
Qed.

(** X4. The header declares [__smalloc_init(bottom, top, pageSize)], the
    definition takes [(top, size, bottom)].  A call that passes a low
    bound, a higher bound and a block size in the order of the header is
    stopped by the guard: it changes nothing. *)
Theorem smalloc_init_in_header_order_is_rejected
    (bottom top pageSize : Z) (s : Heap) :
  is_word bottom -> is_word top -> is_word pageSize ->
  bottom < top ->
  __smalloc_init bottom top pageSize s = s.
Proof.
  unfold is_word. intros Hb Ht Hp Hlt. unfold __smalloc_init.
  destruct (Z.gtb_spec pageSize bottom) as [?|Hle]; [reflexivity|].
  cbn [orb]. rewrite wrap_small by lia.
  destruct (Z.ltb_spec (bottom - pageSize) top) as [_|?]; [reflexivity | lia].
Qed.

(** X5. The first [smalloc] after a call of [__smalloc_init] that passes
    the guard, whatever the state was before that call, allocations
    included: with [Z] the larger of the block size and the chunk size
    plus a block header, it fails without a change when [top - Z] is
    below the bottom, and otherwise makes one block of [Z] bytes that
    ends at [top] and returns the address behind the block header and
    the chunk header; the diagnostics then show that one block. *)
Theorem first_allocation_after_init (s : Heap) (top size bottom n : Z) :
  is_word top -> is_word size -> is_word bottom ->
  bottom <= top -> size <= top - bottom ->
  let s0 := __smalloc_init top size bottom s in
  let R := alloc_size n in
  let Z := Z.max size (R + sizeof_BLOCK) in
  Z < top ->
  debug_out s0 = Some (mkDebug 0 0 0 (top - bottom) 0 0) /\
  (top - Z < bottom -> smalloc n s0 = Some (NULL, s0)) /\
  (bottom <= top - Z ->
   exists s',
     smalloc n s0 = Some (top - Z + sizeof_BLOCK + sizeof_CHUNK, s') /\
     __smalloc_first_block s' = top - Z /\
     debug_out s'
     = Some (mkDebug Z 1 (sizeof_BLOCK + R) (top - Z - bottom)
                     (Z - sizeof_BLOCK - R) 0)).
Proof.
  intros Ht Hsz Hbo Hbt Hspan s0 R Z HZ.
  destruct (init_accepted_shape s top size bottom Ht Hbo Hbt Hspan)
    as (Hs0 & Hinv & Hpl). fold s0 in Hs0, Hinv, Hpl.
  pose proof sizeof_BLOCK_pos as HB. pose proof sizeof_CHUNK_pos as HC.
  pose proof (alloc_size_bounds n) as [HRlo HRhi]. fold R in HRlo, HRhi.
  pose proof sizeof_FREED_pos as HF.
  destruct Ht as [Ht0 Ht1]. destruct Hbo as [Hb0 Hb1].
  assert (Hg : HEAP_TOP s0 = top /\ HEAP_BOTTOM s0 = bottom /\
               PAGESIZE s0 = size /\ __last_block s0 = NULL).
  { rewrite Hs0. auto. }
  destruct Hg as (Hgt & Hgb & Hgp & Hgl).
  assert (Hrange : growth_in_range n s0).
  { unfold growth_in_range. rewrite Hgl, Hgt, Hgp.
    change (NULL =? NULL) with true. exact HZ. }
  split.
  { unfold debug_out.
    rewrite (smalloc_used_spec s0 [] no_blocks Hinv).
    rewrite (smalloc_avail_spec s0 [] no_blocks Hinv).
    rewrite Hgl, Hgt, Hgb. change (NULL =? NULL) with true. cbn.
    rewrite wrap_small by lia. reflexivity. }
  destruct (smalloc_cases s0 [] no_blocks n Hinv (fun _ => Hrange))
    as [(c0 & b & l1 & l2 & Hfind & _)
       |[(_ & b & Hroom & _)
       |[(_ & _ & _ & Hlow & Hsm)
       |(_ & _ & _ & Hhigh & Hfst & _ & _ & _ & _ & Hsm & Hfst2 & _)]]];
    try discriminate; cbn zeta in *;
    rewrite Hgl, Hgt, Hgb, Hgp in *; change (NULL =? NULL) with true in *;
    cbv iota in *; fold R in Hsm; fold Z in Hsm.
  - fold R in Hlow. fold Z in Hlow.
    split; [intros _; exact Hsm | intros ?; lia].
  - fold R in Hhigh, Hfst2. fold Z in Hhigh, Hfst2.
    split; [intros ?; lia|]. intros _.
    destruct (carve (top - Z) R (__new_block R s0).2) as [p s'] eqn:E.
    cbn [fst] in Hfst2. subst p.
    exists s'. split; [exact Hsm|].
    assert (Hp : top - Z + sizeof_BLOCK + sizeof_CHUNK <> NULL)
      by (unfold NULL; lia).
    destruct (smalloc_step s0 [] no_blocks n _ s' Hinv Hpl (fun _ => Hrange) Hsm Hp)
      as (sh' & b & Hinv' & Hpl' & (Hgt' & Hgb' & _) & Hb & Hc & _ & _ & _ & _
          & [(HBL & _)|[(HBL & _)
            |(HBL & _ & HCL & HFL & _ & _ & Hbeq & _ & _ & Hceq & Hcsz & Hbsz
              & Hrem & _)]]);
      cbn zeta in *; try (rewrite HBL in Hb; by apply not_elem_of_nil in Hb).
    cbn [no_blocks BL app] in HBL.
    rewrite Hgl, Hgt in Hbeq.
    change (NULL =? NULL) with true in Hbeq. cbv iota in Hbeq.
    fold R in Hbeq, Hcsz, Hbsz, Hrem. fold Z in Hbeq, Hbsz, Hrem.
    replace (top - Z + sizeof_BLOCK + sizeof_CHUNK - sizeof_CHUNK)
      with (b + sizeof_BLOCK) in * by lia.
    split.
    { unfold __smalloc_first_block.
      rewrite (block_chain_head _ _ _ (inv_chain _ _ _ Hinv')), HBL.
      cbn. lia. }
    unfold debug_out.
    rewrite (smalloc_used_spec s' _ sh' Hinv').
    rewrite (smalloc_avail_spec s' _ sh' Hinv').
    rewrite (inv_last _ _ _ Hinv'). unfold carved_bytes, free_entries.
    rewrite HBL. unfold sum_block_sizes, sum_remaining.
    cbn [List.last map concat foldr length]. rewrite HCL, HFL.
    unfold sum_chunk_sizes. cbn [app foldr].
    rewrite Hbsz, Hrem, Hcsz, Hgb', Hgb.
    destruct (Z.eqb_spec b NULL) as [E0|_]; [unfold NULL in E0; lia|].
    cbn [negb]. rewrite wrap_small by lia. change (Z.of_nat 1) with 1.
    rewrite wrap_ushort_one.
    f_equal. f_equal; lia.
Qed.

End InitMore.

(** ** The diagnostics on a reachable heap *)

Section QueriesMore.
Context {abi : ABI}.

Lemma free_bytes_le_carved s P sh :
  Inv s P sh -> sum_chunk_sizes s (free_entries sh) <= carved_bytes s sh.
Proof.
  intros H. unfold free_entries, carved_bytes.
  enough (Hgen : forall l, (forall b, b ∈ l -> b ∈ BL sh) ->
            sum_chunk_sizes s (concat (map (FL sh) l))
            <= foldr (fun b acc => sum_chunk_sizes s (CL sh b) + acc) 0 l)
    by (apply Hgen; auto).
  induction l as [|b l IH]; intros Hl.
  - cbn. lia.
  - cbn [map concat foldr]. rewrite sum_chunk_sizes_app.
    specialize (IH ltac:(intros x Hx; apply Hl; by apply list_elem_of_further)).
    assert (Hb : b ∈ BL sh) by apply Hl, list_elem_of_here.
    pose proof (inv_blocks _ _ _ H b Hb) as Hok.
    assert (Hsub : FL sh b ⊆+ CL sh b).
    { apply NoDup_submseteq; [apply (bo_free_nodup _ _ _ _ Hok)|].
      apply (bo_free_carved _ _ _ _ Hok). }
    destruct (sum_chunk_sizes_submseteq s _ _ Hsub) as [? ?]; [|lia].
    intros c Hc. destruct (inv_chunk _ _ _ _ _ H Hb Hc) as (_ & _ & _ & ?).
    pose proof sizeof_FREED_pos. lia.
Qed.

Lemma block_chain_last s l : forall p,
  block_chain s p l -> l <> [] ->
  block_next (blk s (List.last l NULL)) = NULL.
Proof.
  induction l as [|x l IH]; intros p Hc Hne; [contradiction|].
  destruct Hc as (_ & _ & Hc). destruct l as [|y l].
  - exact Hc.
  - rewrite last_cons_cons. apply (IH _ Hc). discriminate.
Qed.

(** X6. The six numbers of [debug_out] on a reachable heap: the walks
    end; [used] and [inBlocks] add up to [total]; the freed bytes are part
    of the bytes carved into chunks; and the span of the heap is
    [unallocd], [total] and one unused block header between each two
    blocks. *)
Theorem debug_out_accounts_for_the_heap (s : Heap) (P : list Z) :
  reachable s P ->
  exists d sh,
    debug_out s = Some d /\
    block_chain s (__first_block s) (BL sh) /\
    let N := Z.of_nat (length (BL sh)) in
    out_blocks d = wrap_ushort N /\
    out_used d + out_inBlocks d = out_total d /\
    0 <= out_inFree d <= out_used d - N * sizeof_BLOCK /\
    0 <= out_inBlocks d /\
    0 <= out_unallocd d /\
    out_unallocd d + out_total d + Z.max 0 (N - 1) * sizeof_BLOCK
    = HEAP_TOP s - HEAP_BOTTOM s.
Proof.
  intros Hr. destruct (reachable_placed s P Hr) as (sh & H & Hpl).
  pose proof sizeof_BLOCK_pos as HB.
  unfold debug_out.
  rewrite (smalloc_used_spec s P sh H), (smalloc_avail_spec s P sh H).
  eexists _, sh. split; [reflexivity|].
  split; [apply (inv_chain _ _ _ H)|].
  cbn [out_total out_blocks out_used out_unallocd out_inBlocks out_inFree].
  cbn zeta.
  destruct (sums_over_blocks s P sh (BL sh) H ltac:(auto)) as [[Hr0 Hr1] Hsum].
  fold (carved_bytes s sh) in Hsum.
  pose proof (inv_free_bytes _ _ _ H) as [Hf0 _].
  pose proof (free_bytes_le_carved _ _ _ H) as Hf1.
  pose proof (inv_top _ _ _ H) as HT.
  pose proof (pl_bottom_word _ _ Hpl) as Hb0.
  pose proof (pl_span _ _ Hpl) as Hspan.
  split; [reflexivity|]. split; [lia|]. split; [lia|]. split; [lia|].
  rewrite (inv_last _ _ _ H).
  destruct (BL sh) as [|x l] eqn:E.
  - cbn [List.last length]. change (negb (NULL =? NULL)) with false.
    cbv iota. rewrite wrap_small by lia.
    change (sum_block_sizes s []) with 0. change (Z.of_nat 0) with 0. lia.
  - assert (Hin : List.last (x :: l) NULL ∈ BL sh).
    { rewrite E. apply last_elem_of. discriminate. }
    destruct (inv_block _ _ _ _ H Hin) as (Hl0 & Hlsz & _ & _ & Hlend & _).
    pose proof (pl_bottom _ _ Hpl _ Hin) as Hlb.
    pose proof (pl_tight _ _ Hpl) as Ht. rewrite E in Ht.
    pose proof (tight_span _ _ _ Ht ltac:(discriminate)) as Hspan'.
    destruct (Z.eqb_spec (List.last (x :: l) NULL) NULL) as [E0|_];
      [rewrite E0 in Hl0; unfold NULL in Hl0; lia|].
    cbn [negb]. rewrite wrap_small by lia.
    assert (HN : 1 <= Z.of_nat (length (x :: l))) by (cbn [length]; lia).
    rewrite Z.max_r by lia. split; lia.
Qed.

(** X7. The block list of a reachable heap: [__smalloc_first_block] is
    its head, the [next] links lead to [__last_block] and the [prev]
    links, which no function reads, lead back; the first block ends at
    [HEAP_TOP], every later block ends one block header below the block
    before it, and no block starts below [HEAP_BOTTOM]. *)
Theorem blocks_form_a_descending_doubly_linked_list (s : Heap) (P : list Z) :
  reachable s P ->
  exists sh,
    block_chain s (__smalloc_first_block s) (BL sh) /\
    prev_chain s NULL (BL sh) /\
    __last_block s = List.last (BL sh) NULL /\
    tight s (HEAP_TOP s) (BL sh) /\
    (forall b, b ∈ BL sh ->
       HEAP_BOTTOM s <= b /\ PAGESIZE s <= block_size (blk s b) /\
       sizeof_BLOCK <= block_size (blk s b)) /\
    (__smalloc_first_block s = NULL <-> BL sh = []) /\
    (__smalloc_first_block s <> NULL ->
     __smalloc_first_block s + block_size (blk s (__smalloc_first_block s))
     = HEAP_TOP s /\
     block_prev (blk s (__smalloc_first_block s)) = NULL /\
     block_next (blk s (__last_block s)) = NULL /\
     HEAP_BOTTOM s <= __last_block s <= __smalloc_first_block s).
Proof.
  intros Hr. destruct (reachable_placed s P Hr) as (sh & H & Hpl).
  exists sh. unfold __smalloc_first_block.
  pose proof (inv_chain _ _ _ H) as Hch.
  pose proof (block_chain_head _ _ _ Hch) as Hhd.
  pose proof (pl_tight _ _ Hpl) as Ht. pose proof (pl_prev _ _ Hpl) as Hp.
  pose proof (inv_last _ _ _ H) as Hlast.
  split; [exact Hch|]. split; [exact Hp|]. split; [exact Hlast|].
  split; [exact Ht|]. split.
  { intros b Hb. split; [apply (pl_bottom _ _ Hpl _ Hb)|]. split.
    - apply (bo_page _ _ _ _ (inv_blocks _ _ _ H b Hb)).
    - by destruct (inv_block _ _ _ _ H Hb) as (_ & ? & _). }
  destruct (BL sh) as [|x l] eqn:E.
  - cbn in Hhd. split; [split; auto|]. intros Hne. contradiction.
  - cbn [hd] in Hhd. rewrite Hhd.
    assert (Hx : x ∈ BL sh) by (rewrite E; apply list_elem_of_here).
    destruct (inv_block _ _ _ _ H Hx) as (Hx0 & _).
    split.
    { split; [unfold NULL; lia | discriminate]. }
    intros _. destruct Ht as [Ht _]. destruct Hp as [Hp _].
    split; [exact Ht|]. split; [exact Hp|]. rewrite Hlast. split.
    + apply (block_chain_last _ _ _ Hch). discriminate.
    + assert (Hin : List.last (x :: l) NULL ∈ BL sh).
      { rewrite E. apply last_elem_of. discriminate. }
      split; [apply (pl_bottom _ _ Hpl _ Hin)|].
      pose proof (inv_stacked _ _ _ H) as Hst. rewrite E in Hst.
      apply (stacked_ge_last _ _ _ _ Hst), list_elem_of_here.
Qed.

(** X8. [print_heap] on a reachable heap: both walks end, and what is
    printed is, block by block in creation order, the block's fields and
    its chunks, each chunk starting where the one before it ends, from
    the end of the block header exactly up to [top]. *)
Theorem print_heap_lists_blocks_and_chunks (s : Heap) (P : list Z) :
  reachable s P ->
  exists sh,
    print_heap s = Some (heap_lines s sh) /\
    block_chain s (__first_block s) (BL sh) /\
    forall b, b ∈ BL sh ->
      carved s b (b + sizeof_BLOCK) (CL sh b) (block_top (blk s b)) /\
      NoDup (CL sh b) /\
      sum_chunk_sizes s (CL sh b)
      = block_size (blk s b) - sizeof_BLOCK - block_remaining (blk s b).
Proof.
  intros Hr. destruct (reachable_inv s P Hr) as [sh H]. exists sh.
  split; [apply (print_heap_spec _ _ _ H)|].
  split; [apply (inv_chain _ _ _ H)|].
  intros b Hb. pose proof (bo_carved _ _ _ _ (inv_blocks _ _ _ H b Hb)) as Hc.
  split; [exact Hc|]. split; [apply (carved_nodup _ _ _ _ _ Hc)|].
  pose proof (inv_block_account _ _ _ _ H Hb). lia.
Qed.

End QueriesMore.

(** ** Requests at the limits *)

Section Limits.
Context {abi : ABI}.

Lemma wrap_once x :
  2 ^ word_bits <= x < 2 * 2 ^ word_bits -> wrap x = x - 2 ^ word_bits.
Proof.
  intros Hx. unfold wrap. symmetry.
  apply (Z.mod_unique x (2 ^ word_bits) 1); lia.
Qed.

Lemma wrap_below x :
  - 2 ^ word_bits <= x < 0 -> wrap x = x + 2 ^ word_bits.
Proof.
  intros Hx. unfold wrap. symmetry.
  apply (Z.mod_unique x (2 ^ word_bits) (-1)); lia.
Qed.


(** X9. [smalloc] adds the chunk header to the request without a check
    for overflow: a request within [sizeof(struct CHUNK)] of the largest
    [unsigned long] gets the chunk size of a request of zero bytes, and is
    served exactly as that request is. *)
Theorem request_near_the_word_limit_is_served_as_zero (n : Z) (s : Heap) :
  is_word n -> 2 ^ word_bits - sizeof_CHUNK <= n ->
  alloc_size n = sizeof_FREED /\
  alloc_size n < n + sizeof_CHUNK /\
  smalloc n s = smalloc 0 s.
Proof.
  intros [Hn0 Hn1] Hbig. pose proof sizeof_CHUNK_pos as HC.
  pose proof sizeof_FREED_links as HF. pose proof sizeof_FREED_word as HFw.
  assert (Hn : alloc_size n = sizeof_FREED).
  { unfold alloc_size. rewrite wrap_once by lia.
    destruct (Z.ltb_spec (n + sizeof_CHUNK - 2 ^ word_bits) sizeof_FREED); lia. }
  assert (H0 : alloc_size 0 = sizeof_FREED).
  { unfold alloc_size. rewrite wrap_small by lia.
    destruct (Z.ltb_spec (0 + sizeof_CHUNK) sizeof_FREED); lia. }
  split; [exact Hn|]. split; [lia|].
  unfold smalloc. rewrite Hn, H0. reflexivity.
Qed.

(** X10. [__new_block] subtracts the block size from the start address
    without a check for underflow.  On a heap without blocks whose
    bottom is not above its top (as after [__smalloc_init], or before any
    call), when the block size exceeds [HEAP_TOP] by a block header or
    more, the difference wraps around, passes the test against
    [HEAP_BOTTOM], and the block is made above [HEAP_TOP], as the first
    and the last block. *)
Theorem new_block_above_its_start_when_size_exceeds_it (R : Z) (s : Heap) :
  __first_block s = NULL -> __last_block s = NULL ->
  is_word (PAGESIZE s) -> is_word (HEAP_TOP s) ->
  HEAP_BOTTOM s <= HEAP_TOP s ->
  HEAP_TOP s + sizeof_BLOCK <= new_block_size R s ->
  let b := HEAP_TOP s - new_block_size R s + 2 ^ word_bits in
  fst (__new_block R s) = b /\
  HEAP_TOP s < b /\ b + sizeof_BLOCK <= 2 ^ word_bits /\ b <> NULL /\
  __first_block (snd (__new_block R s)) = b /\
  __last_block (snd (__new_block R s)) = b /\
  block_size (blk (snd (__new_block R s)) b) = new_block_size R s.
Proof.
  intros Hfirst Hlast [Hp0 Hp1] [Ht0 Ht1] Hbot Hbig b.
  pose proof sizeof_BLOCK_pos as HB.
  assert (Hsz : is_word (new_block_size R s)).
  { unfold new_block_size. destruct (_ <? PAGESIZE s); [split; assumption|].
    apply wrap_is_word. }
  destruct Hsz as [Hsz0 Hsz1].
  assert (Hst : new_block_start s = HEAP_TOP s).
  { unfold new_block_start. rewrite Hlast. reflexivity. }
  assert (Hw : wrap (new_block_start s - new_block_size R s) = b)
    by (rewrite Hst; subst b; apply wrap_below; lia).
  unfold __new_block. rewrite Hw.
  destruct (Z.ltb_spec b (HEAP_BOTTOM s)) as [?|_]; [subst b; lia|].
  change (__first_block (store_BLOCK _ _ s)) with (__first_block s).
  rewrite Hfirst. change (NULL =? NULL) with true. cbv iota. cbn [fst snd].
  split; [reflexivity|]. split; [subst b; lia|]. split; [subst b; lia|].
  split; [unfold NULL; subst b; lia|].
  split; [reflexivity|]. split; [reflexivity|].
  store_simpl. reflexivity.
Qed.

End Limits.

(** ** What an allocation is given, and what it is spared *)

Section Allocations.
Context {abi : ABI}.

Lemma find_splits {A} (f : A -> bool) (l : list A) x :
  find f l = Some x ->
  exists l1 l2, l = l1 ++ x :: l2 /\ (forall y, y ∈ l1 -> f y = false).
Proof.
  induction l as [|y l IH]; [discriminate|]. cbn [find].
  destruct (f y) eqn:E.
  - intros [= ->]. exists [], l. split; [reflexivity|].
    intros z Hz. by apply not_elem_of_nil in Hz.
  - intros Hf. destruct (IH Hf) as (l1 & l2 & -> & Hall).
    exists (y :: l1), l2. split; [reflexivity|].
    intros z Hz. apply elem_of_cons in Hz as [->|Hz]; auto.
Qed.

(** X11. When nothing can be recycled, [smalloc] carves the chunk at the
    top of the first block, in creation order, that has [remaining] of at
    least the chunk size: that block's [top] moves up and its [remaining]
    down by the chunk size, the chunk's header names the block and the
    size and is flagged, and no other block or chunk changes; no block is
    made. *)
Theorem smalloc_carves_from_first_block_with_room
    (s : Heap) (P : list Z) (n b : Z) :
  reachable s P ->
  let R := alloc_size n in
  __use_freed_chunk R (wrap (Z.shiftl R 1)) s = Some (NULL, s) ->
  __block_with_free_space R s = Some b -> b <> NULL ->
  let t := block_top (blk s b) in
  exists s' sh before rest,
    smalloc n s = Some (t + sizeof_CHUNK, s') /\
    block_chain s (__first_block s) (BL sh) /\
    BL sh = before ++ b :: rest /\
    (forall x, x ∈ before -> block_remaining (blk s x) < R) /\
    R <= block_remaining (blk s b) /\
    hdr s' t = mkCHUNK b R ALLOCD /\
    block_top (blk s' b) = t + R /\
    block_remaining (blk s' b) = block_remaining (blk s b) - R /\
    (forall x, x <> b -> blk s' x = blk s x) /\
    (forall x, x <> t -> hdr s' x = hdr s x) /\
    __first_block s' = __first_block s /\ __last_block s' = __last_block s.
Proof.
  intros Hr R Huse Hspace Hb t.
  destruct (reachable_inv s P Hr) as [sh H].
  pose proof (alloc_size_bounds n) as [HRlo HRhi]. fold R in HRlo, HRhi.
  pose proof (use_freed_chunk_null _ _ _ _ _ _ H Huse) as Hnone.
  rewrite (block_with_free_space_spec s P sh R H) in Hspace.
  destruct (find (fun b => block_remaining (blk s b) >=? R) (BL sh)) as [b0|] eqn:Eroom;
    cbn [default] in Hspace; injection Hspace as Hb0; [|congruence].
  change (id b0 = b) in Hb0. unfold id in Hb0. subst b0.
  destruct (find_splits _ _ _ Eroom) as (before & rest & HBL & Hbefore).
  pose proof Eroom as Ef.
  apply find_elem_of in Eroom as [Hin Hrem]. apply Z.geb_le in Hrem.
  assert (Hsm : smalloc n s = Some (carve b R s)).
  { unfold smalloc. fold R. rewrite Huse.
    change (negb (NULL =? NULL)) with false. cbv iota.
    rewrite (block_with_free_space_spec s P sh R H), Ef.
    change (default NULL (Some b)) with b.
    destruct (Z.eqb_spec b NULL) as [?|_]; [contradiction|].
    destruct (Z.eqb_spec b NULL) as [?|_]; [contradiction|]. reflexivity. }
  destruct (carve_inv s P sh b R H Hin HRlo Hrem) as (Hfst & Hinv & Hh & Hoth & Hrem' & _).
  destruct (carve_reads b R s) as (_ & Hglob & Hblk & _).
  cbn zeta in Hfst, Hinv, Hh, Hoth, Hrem', Hblk, Hglob. fold t in Hfst, Hinv, Hh, Hoth.
  destruct (carve b R s) as [p s'] eqn:E. cbn [fst snd] in *. subst p.
  exists s', sh, before, rest.
  split; [exact Hsm|]. split; [apply (inv_chain _ _ _ H)|]. split; [exact HBL|].
  split.
  { intros x Hx. specialize (Hbefore x Hx). cbn beta in Hbefore.
    destruct (Z.geb_spec (block_remaining (blk s x)) R); [discriminate | lia]. }
  split; [exact Hrem|]. split; [exact Hh|]. split.
  { pose proof (bo_top _ _ _ _ (inv_blocks _ _ _ Hinv b Hin)) as Ht'.
    pose proof (bo_top _ _ _ _ (inv_blocks _ _ _ H b Hin)) as Ht.
    rewrite Hrem' in Ht'. rewrite Ht'. fold t in Ht. rewrite Ht.
    rewrite Hblk, decide_True by reflexivity. cbn [block_size]. lia. }
  split; [exact Hrem'|]. split.
  { intros x Hx. rewrite Hblk, decide_False by exact Hx. reflexivity. }
  split; [exact Hoth|]. destruct Hglob as (_ & _ & _ & ? & ?). auto.
Qed.



End Allocations.

(** ** Freeing, and allocating again *)

Section FreeAndReuse.
Context {abi : ABI}.

Lemma carved_bytes_ext s s' sh sh' :
  BL sh' = BL sh -> (forall b, CL sh' b = CL sh b) ->
  (forall x, chunk_size (hdr s' x) = chunk_size (hdr s x)) ->
  carved_bytes s' sh' = carved_bytes s sh.
Proof.
  intros HBL HCL Hsz. unfold carved_bytes. rewrite HBL. clear HBL.
  induction (BL sh) as [|b l IH]; [reflexivity|]. cbn [foldr].
  rewrite IH, HCL. f_equal. apply sum_chunk_sizes_ext. intros c _. apply Hsz.
Qed.

(** Two heaps with the same blocks and chunks have the same usage. *)
Lemma used_same_layout s s' P P' sh sh' :
  Inv s P sh -> Inv s' P' sh' ->
  BL sh' = BL sh -> (forall b, CL sh' b = CL sh b) -> same_layout s s' ->
  __smalloc_used s' = __smalloc_used s.
Proof.
  intros H H' HBL HCL Hl.
  rewrite (smalloc_used_spec s P sh H), (smalloc_used_spec s' P' sh' H').
  rewrite (carved_bytes_ext s s' sh sh' HBL HCL)
    by (intros x; apply (sl_chunk _ _ Hl x)).
  rewrite HBL. f_equal. f_equal. f_equal. apply sum_block_sizes_ext.
  intros b _. by destruct (sl_block _ _ Hl b) as (_ & _ & ? & _).
Qed.

(** X14. [sfree] on a pointer whose chunk is in use: the chunk keeps its
    place and its size, loses its flag and becomes the head of the
    free-list of its block; no other chunk header changes; the usage
    numbers do not change, no byte returns to [remaining], and [inFree]
    grows by the size of the chunk. *)
Theorem sfree_moves_the_chunk_to_the_free_list (s : Heap) (P : list Z) (p : Z) :
  reachable s P -> p ∈ P -> allocated s p ->
  let c := p - sizeof_CHUNK in
  let s' := sfree p s in
  same_layout s s' /\
  (forall x, x <> c -> hdr s' x = hdr s x) /\
  ~ allocated s' p /\
  block_free (blk s' (chunk_block (hdr s c))) = c /\
  freed_prev (frd s' c) = NULL /\
  freed_next (frd s' c) = block_free (blk s (chunk_block (hdr s c))) /\
  __smalloc_used s' = __smalloc_used s /\
  exists unallocd inBlocks inFree,
    __smalloc_avail s = Some (unallocd, inBlocks, inFree) /\
    __smalloc_avail s'
    = Some (unallocd, inBlocks, inFree + chunk_size (hdr s c)).
Proof.
  intros Hr Hp Hlive c s'.
  destruct (reachable_inv s P Hr) as [sh H].
  destruct (inv_returned_chunk _ _ _ _ H Hp) as (b0 & c0 & _ & _ & Hpeq & Hwc0).
  assert (Hwc : wrap (p - sizeof_CHUNK) = c) by (rewrite Hwc0; subst c; lia).
  clear b0 c0 Hpeq Hwc0.
  destruct (sfree_inv s P sh p H Hp) as (Hb & Hc & _ & _ & Halloc).
  cbn zeta in Hb, Hc, Halloc. rewrite Hwc in Hb, Hc, Halloc.
  set (b := chunk_block (hdr s c)) in *.
  destruct (Halloc Hlive) as [Hnot Hinv]. fold s' in Hinv.
  pose proof (same_layout_sfree p s) as Hl. fold s' in Hl.
  pose proof (inv_blocks _ _ _ Hinv b Hb) as Hok'.
  cbn [with_FL CL FL] in Hok'. rewrite fn_lookup_insert in Hok'.
  pose proof (bo_free _ _ _ _ Hok') as Hfc.
  pose proof (bo_free _ _ _ _ (inv_blocks _ _ _ H b Hb)) as Hfc0.
  split; [exact Hl|]. split.
  { intros x Hx. apply hdr_sfree_other. rewrite Hwc. exact Hx. }
  split.
  { unfold allocated. fold c. intros Hflag. apply Hflag.
    apply (bo_flags _ _ _ _ Hok' c Hc), list_elem_of_here. }
  split; [apply (free_chain_head _ _ _ _ Hfc)|].
  destruct Hfc as (_ & _ & Hprev & Hnext).
  split; [exact Hprev|]. split.
  { rewrite (free_chain_head _ _ _ _ Hnext), (free_chain_head _ _ _ _ Hfc0).
    reflexivity. }
  split.
  { apply (used_same_layout s s' P P sh _ H Hinv); auto. }
  rewrite (smalloc_avail_spec s P sh H), (smalloc_avail_spec s' P _ Hinv).
  eexists _, _, _. split; [reflexivity|].
  rewrite (sl_last _ _ Hl), (sl_top _ _ Hl), (sl_bottom _ _ Hl).
  cbn [with_FL BL]. f_equal. f_equal; [f_equal|].
  - apply sum_remaining_ext. intros x _.
    by destruct (sl_block _ _ Hl x) as (_ & _ & _ & ? & _).
  - unfold free_entries. cbn [with_FL BL FL].
    rewrite sum_free_lists_insert by apply (inv_nodup _ _ _ H).
    rewrite decide_True by exact Hb.
    change (sum_chunk_sizes s' (c :: FL sh b))
      with (chunk_size (hdr s' c) + sum_chunk_sizes s' (FL sh b)).
    rewrite (sum_chunk_sizes_ext s s' (concat (map (FL sh) (BL sh))))
      by (intros x _; apply (sl_chunk _ _ Hl x)).
    destruct (sl_chunk _ _ Hl c) as (_ & ->). lia.
Qed.


End FreeAndReuse.

(** ** Allocate, free, allocate *)

Section RoundTrip.
Context {abi : ABI}.

Lemma elem_of_concat_map (g : Z -> list Z) (l : list Z) x :
  x ∈ concat (map g l) <-> exists b, b ∈ l /\ x ∈ g b.
Proof.
  induction l as [|y l IH]; cbn [map concat].
  - split; [intros Hx; by apply not_elem_of_nil in Hx|].
    intros (b & Hb & _). by apply not_elem_of_nil in Hb.
  - rewrite elem_of_app, IH. split.
    + intros [Hx|(b & Hb & Hx)].
      * exists y. split; [apply list_elem_of_here | exact Hx].
      * exists b. split; [by apply list_elem_of_further | exact Hx].
    + intros (b & Hb & Hx). apply elem_of_cons in Hb as [->|Hb]; [by left|].
      right. eauto.
Qed.

Lemma find_exists {A} (f : A -> bool) (l : list A) x :
  In x l -> f x = true -> exists y, find f l = Some y.
Proof.
  induction l as [|z l IH]; intros Hx Hf; [destruct Hx|]. cbn [find].
  destruct (f z) eqn:E; [eauto|].
  destruct Hx as [->|Hx]; [congruence | auto].
Qed.

(** The entries ahead of the first match do not match. *)
Lemma find_app_ahead {A} (f : A -> bool) (la lb : list A) c :
  find f (la ++ lb) = Some c -> ~ In c la -> forall x, In x la -> f x = false.
Proof.
  intros Hf Hc. rewrite find_app in Hf.
  destruct (find f la) as [y|] eqn:E.
  - injection Hf as ->. apply find_some in E as [Hin _]. contradiction.
  - intros x Hx. exact (find_none f la E x Hx).
Qed.

(** The first match after a chunk that matches has been put in front of
    the list of block [b], when no entry of an earlier block matches. *)
Lemma find_free_lists_push_at (f : Z -> bool) (g : Z -> list Z) b c bl1 bl2 :
  (b ∉ bl1) -> f c = true ->
  (forall x, x ∈ concat (map g bl1) -> f x = false) ->
  find f (concat (map (<[b := c :: g b]> g) (bl1 ++ b :: bl2))) = Some c.
Proof.
  intros Hb Hc Hnone. rewrite map_app, concat_app, find_app.
  assert (Hmap : map (<[b := c :: g b]> g) bl1 = map g bl1).
  { apply map_ext_in. intros x Hx. apply fn_lookup_insert_ne.
    intros ->. apply Hb. by apply list_elem_of_In. }
  rewrite Hmap, (find_all_false f (concat (map g bl1))).
  - cbn [map concat]. rewrite fn_lookup_insert. cbn [app find].
    rewrite Hc. reflexivity.
  - intros x Hx. apply Hnone. by apply list_elem_of_In.
Qed.

Lemma doubled_is_shift R :
  0 <= R -> 2 * R < 2 ^ word_bits -> wrap (Z.shiftl R 1) = 2 * R.
Proof.
  intros HR H2. rewrite Z.shiftl_mul_pow2 by lia.
  change (2 ^ 1) with 2. rewrite wrap_small by lia. lia.
Qed.

(** A request made right after freeing a chunk whose size lies in the
    window of the request is served from a free-list, and from that very
    chunk when no free-list entry of an earlier block lies in the
    window. *)
Lemma recycle_after_free s P sh n p :
  Inv s P sh -> p ∈ P -> allocated s p ->
  let c := p - sizeof_CHUNK in
  let b := chunk_block (hdr s c) in
  let R := alloc_size n in
  let W := wrap (Z.shiftl R 1) in
  in_window s R W c = true ->
  exists q s2,
    smalloc n (sfree p s) = Some (q, s2) /\ q <> NULL /\
    same_layout s s2 /\
    __smalloc_used s2 = __smalloc_used s /\
    (forall bl1 bl2, BL sh = bl1 ++ b :: bl2 ->
       (forall x, x ∈ concat (map (FL sh) bl1) -> in_window s R W x = false) ->
       q = p).
Proof.
  intros H Hp Hlive c b R W Hwin.
  pose proof sizeof_CHUNK_pos as HC.
  destruct (inv_returned_chunk _ _ _ _ H Hp) as (b0 & c0 & _ & _ & Hpeq & Hwc0).
  assert (Hwc : wrap (p - sizeof_CHUNK) = c) by (rewrite Hwc0; subst c; lia).
  clear b0 c0 Hpeq Hwc0.
  destruct (sfree_inv s P sh p H Hp) as (Hb & Hc & _ & _ & Halloc).
  cbn zeta in Hb, Hc, Halloc. rewrite Hwc in Hb, Hc, Halloc. fold b in Hb, Hc, Halloc.
  destruct (Halloc Hlive) as [Hnot Hinv1].
  set (s1 := sfree p s) in *. set (sh1 := with_FL b (c :: FL sh b) sh) in *.
  pose proof (same_layout_sfree p s) as Hl1. fold s1 in Hl1.
  assert (Hf : forall x, in_window s1 R W x = in_window s R W x).
  { intros x. unfold in_window. by destruct (sl_chunk _ _ Hl1 x) as (_ & ->). }
  assert (Hcin : c ∈ free_entries sh1).
  { apply elem_of_free_entries. exists b. split; [exact Hb|].
    subst sh1. cbn [with_FL FL]. rewrite fn_lookup_insert. apply list_elem_of_here. }
  destruct (find_exists (in_window s1 R W) (free_entries sh1) c)
    as [c' Hfind]; [by apply list_elem_of_In | by rewrite Hf |].
  assert (Hcontract : growth_attempted n s1 -> growth_in_range n s1).
  { intros [Huse _]. fold R in Huse. fold W in Huse.
    rewrite (use_freed_chunk_null _ _ _ _ _ _ Hinv1 Huse) in Hfind. discriminate. }
  destruct (smalloc_cases s1 P sh1 n Hinv1 Hcontract)
    as [(c0 & b' & l1 & l2 & Hfind' & Hb' & HFL & Hown & Hsm & Hcn & Hinv2)
       |[(Hfind' & _)|[(Hfind' & _)|(Hfind' & _)]]];
    fold R in Hfind'; fold W in Hfind'; rewrite Hfind in Hfind';
    try discriminate.
  injection Hfind' as <-. cbn zeta in Hsm, Hinv2.
  set (s2 := set_chunk_flags c' _ (dequeue b' c' s1)) in *.
  assert (Hl2 : same_layout s s2).
  { eapply same_layout_trans; [exact Hl1|].
    eapply same_layout_trans; [apply same_layout_dequeue|].
    apply same_layout_set_chunk_flags. }
  exists (c' + sizeof_CHUNK), s2. split; [exact Hsm|]. split.
  { assert (Hc'in : c' ∈ FL sh1 b').
    { rewrite HFL. apply elem_of_app. right. apply list_elem_of_here. }
    pose proof (bo_free_carved _ _ _ _ (inv_blocks _ _ _ Hinv1 b' Hb') c' Hc'in) as Hcl.
    destruct (inv_chunk_word _ _ _ _ _ Hinv1 Hb' Hcl) as (? & _).
    unfold NULL. lia. }
  split; [exact Hl2|]. split.
  { apply (used_same_layout s s2 P _ sh _ H Hinv2); auto. }
  intros bl1 bl2 HBL Hahead.
  assert (Hbn : b ∉ bl1).
  { pose proof (inv_nodup _ _ _ H) as Hnd. rewrite HBL in Hnd.
    apply NoDup_app in Hnd as (_ & Hdis & _).
    intros Hin. apply (Hdis b Hin), list_elem_of_here. }
  assert (Hfirst : find (in_window s1 R W) (free_entries sh1) = Some c).
  { unfold free_entries. subst sh1. cbn [with_FL BL FL]. rewrite HBL.
    apply find_free_lists_push_at; [exact Hbn | by rewrite Hf |].
    intros x Hx. rewrite Hf. by apply Hahead. }
  rewrite Hfirst in Hfind. injection Hfind as <-. subst c. lia.
Qed.

(** X16. A request made right after freeing a chunk whose size [S] fits
    it, [R <= S <= 2R] for the computed size [R] of the request, is
    served from a free-list: no block is made and the usage numbers stay
    as they were; when nothing could be recycled before the free, the
    pointer returned is the pointer that was freed. *)
Theorem freed_chunk_serves_the_next_fitting_request
    (s : Heap) (P : list Z) (n p : Z) :
  reachable s P -> p ∈ P -> allocated s p ->
  let R := alloc_size n in
  let S := chunk_size (hdr s (p - sizeof_CHUNK)) in
  R <= S <= 2 * R -> 2 * R < 2 ^ word_bits ->
  exists q s2,
    smalloc n (sfree p s) = Some (q, s2) /\ q <> NULL /\
    same_layout s s2 /\
    __smalloc_used s2 = __smalloc_used s /\
    (__use_freed_chunk R (wrap (Z.shiftl R 1)) s = Some (NULL, s) -> q = p).
Proof.
  intros Hr Hp Hlive R S HS H2.
  destruct (reachable_inv s P Hr) as [sh H].
  pose proof (alloc_size_bounds n) as [HRlo _]. fold R in HRlo.
  pose proof sizeof_FREED_pos as HF.
  assert (HW : wrap (Z.shiftl R 1) = 2 * R) by (apply doubled_is_shift; lia).
  assert (Hwin : in_window s R (wrap (Z.shiftl R 1)) (p - sizeof_CHUNK) = true).
  { unfold in_window. fold S. rewrite HW. apply andb_true_iff. split.
    - apply Z.geb_le. lia.
    - apply Z.leb_le. lia. }
  destruct (recycle_after_free s P sh n p H Hp Hlive Hwin)
    as (q & s2 & Hsm & Hq & Hl & Hused & Hsame).
  exists q, s2. repeat (split; [assumption|]).
  intros Huse. fold R in Hsame.
  pose proof (use_freed_chunk_null _ _ _ _ _ _ H Huse) as Hnone.
  destruct (sfree_inv s P sh p H Hp) as (Hb & _).
  cbn zeta in Hb.
  destruct (inv_returned_chunk _ _ _ _ H Hp) as (b0 & c0 & _ & _ & Hpeq & Hwc0).
  assert (Hwc : wrap (p - sizeof_CHUNK) = p - sizeof_CHUNK) by (rewrite Hwc0; lia).
  rewrite Hwc in Hb.
  apply list_elem_of_split in Hb as (bl1 & bl2 & HBL).
  apply (Hsame bl1 bl2 HBL). intros x Hx.
  apply (find_none_all _ _ _ Hnone). apply list_elem_of_In.
  apply elem_of_concat_map in Hx as (b1 & Hb1 & Hx).
  apply elem_of_free_entries. exists b1. split; [|exact Hx].
  rewrite HBL. apply elem_of_app. by left.
Qed.

(** X17. Allocate on a reachable heap, with a growth, if one is
    attempted, that stays inside the address space ([growth_in_range])
    and a chunk size whose double is representable; free; allocate again
    with the same size: the second allocation returns the pointer of the
    first, makes no block and leaves the usage numbers as the first
    allocation left them; a free repeated in between changes nothing of
    this. *)
Theorem allocate_free_allocate_returns_the_same_pointer
    (s : Heap) (P : list Z) (n p : Z) (s1 : Heap) :
  reachable s P ->
  (growth_attempted n s -> growth_in_range n s) ->
  smalloc n s = Some (p, s1) -> p <> NULL ->
  2 * alloc_size n < 2 ^ word_bits ->
  sfree p (sfree p s1) = sfree p s1 /\
  exists s3,
    smalloc n (sfree p s1) = Some (p, s3) /\
    same_layout s1 s3 /\
    __smalloc_used s3 = __smalloc_used s1.
Proof.
  intros Hr Hc Hsm Hp H2.
  destruct (reachable_placed s P Hr) as (sh & H & Hpl).
  pose proof (alloc_size_bounds n) as [HRlo _].
  pose proof sizeof_FREED_pos as HF.
  assert (HW : wrap (Z.shiftl (alloc_size n) 1) = 2 * alloc_size n)
    by (apply doubled_is_shift; lia).
  destruct (smalloc_step s P sh n p s1 H Hpl Hc Hsm Hp)
    as (sh1 & b & Hinv1 & _ & _ & Hb & Hcb & Hsz & Hflag & Hoth & Hblocks & Hcase).
  cbn zeta in *. set (c := p - sizeof_CHUNK) in *. set (R := alloc_size n) in *.
  assert (Hpin : p ∈ p :: P) by apply list_elem_of_here.
  assert (Hown : chunk_block (hdr s1 c) = b).
  { by destruct (inv_chunk _ _ _ _ _ Hinv1 Hb Hcb) as (_ & _ & ? & _). }
  split.
  { (* the repeated free *)
    destruct (sfree_inv s1 _ sh1 p Hinv1 Hpin) as (Hb1 & Hc1 & _ & _ & Halloc).
    destruct (inv_returned_chunk _ _ _ _ Hinv1 Hpin) as (b0 & c0 & _ & _ & Hpeq & Hwc0).
    assert (Hwc : wrap (p - sizeof_CHUNK) = c) by (rewrite Hwc0; subst c; lia).
    cbn zeta in Hb1, Hc1, Halloc. rewrite Hwc in Hb1, Hc1, Halloc.
    destruct (Halloc Hflag) as [_ Hinv2].
    destruct (sfree_inv _ _ _ p Hinv2 Hpin) as (Hb2 & Hc2 & _ & Hfree2 & _).
    cbn zeta in Hb2, Hc2, Hfree2. rewrite Hwc in Hb2, Hc2, Hfree2.
    apply Hfree2.
    pose proof (inv_blocks _ _ _ Hinv2 _ Hb2) as Hok.
    apply (bo_flags _ _ _ _ Hok c Hc2).
    destruct (same_layout_sfree p s1) as [_ _ _ _ _ _ Hch].
    destruct (Hch c) as (Hcbk & _). rewrite Hcbk.
    cbn [with_FL FL]. rewrite fn_lookup_insert. apply list_elem_of_here. }
  assert (Hwin : in_window s1 R (wrap (Z.shiftl R 1)) c = true).
  { unfold in_window. apply andb_true_iff. split; [apply Z.geb_le; exact Hsz|].
    apply Z.leb_le.
    destruct Hcase as [(_ & _ & _ & Hfind & Hsame & _)
                      |[(_ & _ & _ & _ & _ & _ & Heq & _)
                       |(_ & _ & _ & _ & _ & _ & _ & _ & _ & _ & Heq & _)]].
    - apply find_elem_of in Hfind as [_ Hw]. unfold in_window in Hw.
      apply andb_true_iff in Hw as [_ Hle]. apply Z.leb_le in Hle.
      rewrite Hsame. exact Hle.
    - rewrite Heq, HW. lia.
    - rewrite Heq, HW. lia. }
  destruct (recycle_after_free s1 _ sh1 n p Hinv1 Hpin Hflag Hwin)
    as (q & s3 & Hsm3 & Hq & Hl & Hused & Hsame).
  fold c in Hsame. rewrite Hown in Hsame. fold R in Hsame.
  assert (Hqp : q = p).
  { pose proof Hb as Hsplit.
    apply list_elem_of_split in Hsplit as (bl1 & bl2 & HBL1).
    apply (Hsame bl1 bl2 HBL1). intros x Hx.
    apply elem_of_concat_map in Hx as (b1 & Hb1 & Hx).
    assert (Hb1n : b1 <> b).
    { pose proof (inv_nodup _ _ _ Hinv1) as Hnd. rewrite HBL1 in Hnd.
      apply NoDup_app in Hnd as (_ & Hdis & _).
      intros ->. apply (Hdis b Hb1), list_elem_of_here. }
    assert (Hb1in : b1 ∈ BL sh1) by (rewrite HBL1; apply elem_of_app; by left).
    assert (Hxc : x <> c).
    { intros ->. apply Hb1n.
      apply (inv_owner _ _ _ _ _ c Hinv1 Hb1in Hb); [|exact Hcb].
      apply (bo_free_carved _ _ _ _ (inv_blocks _ _ _ Hinv1 b1 Hb1in) c Hx). }
    assert (Hb1old : b1 ∈ BL sh).
    { destruct Hcase as [(HBL & _)|[(HBL & _)|(HBL & _)]];
        rewrite HBL in Hb1in; [exact Hb1in | exact Hb1in |].
      apply elem_of_app in Hb1in as [?|Hin]; [assumption|].
      apply list_elem_of_singleton in Hin. contradiction. }
    destruct (Hblocks b1 Hb1old) as (_ & Hkeep).
    destruct (Hkeep Hb1n) as (_ & _ & _ & HFL1). rewrite HFL1 in Hx.
    unfold in_window. rewrite (Hoth x Hxc).
    change (in_window s R (wrap (Z.shiftl R 1)) x = false).
    assert (Hxin : x ∈ free_entries sh)
      by (apply elem_of_free_entries; eauto).
    destruct Hcase as [(HBL & _ & (l1 & l2 & HFL & _) & Hfind & _)
                      |[(_ & _ & _ & Hfind & _)|(_ & _ & _ & _ & Hfind & _)]];
      try (apply (find_none_all _ _ _ Hfind); by apply list_elem_of_In).
    (* recycled: the entries of the blocks before [b] come ahead of [c] *)
    rewrite HBL in HBL1. unfold free_entries in Hfind.
    rewrite HBL1, map_app, concat_app in Hfind.
    apply (find_app_ahead _ _ _ _ Hfind).
    - intros Hcin. apply list_elem_of_In, elem_of_concat_map in Hcin
        as (b2 & Hb2 & Hcin).
      assert (Hb2in : b2 ∈ BL sh) by (rewrite HBL1; apply elem_of_app; by left).
      assert (Hbold : b ∈ BL sh).
      { rewrite HBL1. apply elem_of_app. right. apply list_elem_of_here. }
      assert (b2 = b).
      { apply (inv_owner _ _ _ _ _ c H Hb2in Hbold).
        - apply (bo_free_carved _ _ _ _ (inv_blocks _ _ _ H b2 Hb2in) c Hcin).
        - apply (bo_free_carved _ _ _ _ (inv_blocks _ _ _ H b Hbold) c).
          rewrite HFL. apply elem_of_app. right. apply list_elem_of_here. }
      subst b2.
      pose proof (inv_nodup _ _ _ H) as Hnd. rewrite HBL1 in Hnd.
      apply NoDup_app in Hnd as (_ & Hdis & _).
      apply (Hdis b Hb2), list_elem_of_here.
    - apply list_elem_of_In, elem_of_concat_map. eauto. }
  subst q. exists s3. auto.
Qed.

End RoundTrip.

(** ** Out of memory *)

Section OutOfMemory.
Context {abi : ABI}.


End OutOfMemory.

(** * The claims on example heaps *)

Lemma ex_init_reachable : reachable ex_init [].
Proof.
  exact (reach_init ex_boot [] 0x8000 0x1000 0x6000 (reach_boot ∅ ∅)
           ltac:(vm_compute; split; [discriminate | reflexivity]) ltac:(vm_compute; split; [discriminate | reflexivity])
           ltac:(vm_compute; split; [discriminate | reflexivity])).
Qed.

Lemma ex_init_in_range : growth_attempted 100 ex_init -> growth_in_range 100 ex_init.
Proof. intros _. vm_compute. reflexivity. Qed.

Lemma ex_alloc_reachable : reachable ex_alloc [28708].
Proof.
  exact (reach_smalloc ex_init [] 100 28708 ex_alloc ex_init_reachable
           ltac:(vm_compute; split; [discriminate | reflexivity]) ex_init_in_range
           ltac:(vm_compute; reflexivity)).
Qed.

Lemma ex_freed_reachable : reachable ex_freed [28708].
Proof.
  exact (reach_sfree ex_alloc [28708] 28708 ex_alloc_reachable
           ltac:(apply list_elem_of_here)).
Qed.

Lemma ex_freed_in_range : growth_attempted 100 ex_freed -> growth_in_range 100 ex_freed.
Proof. intros _. vm_compute. reflexivity. Qed.

(** The scenario: the first 100 bytes are found at [0x7024]; freed and
    asked for again, the same address comes back; a request larger than
    the heap's span fails. *)
Example scenario_allocate_free_allocate :
  option_map fst (smalloc 100 ex_init) = Some 0x7024 /\
  option_map fst (smalloc 100 ex_freed) = Some 0x7024 /\
  smalloc 0x3000 ex_freed = Some (NULL, ex_freed).
Proof. repeat split; vm_compute; reflexivity. Qed.

(** The queries on the example: one block of 4096 bytes, of which 24 are
    its header and 112 the chunk. *)
Example queries_on_example :
  __smalloc_used ex_alloc = Some (4096, 1, 136) /\
  __smalloc_avail ex_alloc = Some (4096, 3960, 0) /\
  __smalloc_avail ex_freed = Some (4096, 3960, 112).
Proof. repeat split; vm_compute; reflexivity. Qed.

Lemma ex_three_reachable : reachable ex_three [29032; 28820; 28708].
Proof.
  refine (reach_smalloc (after (smalloc 200 ex_alloc) ex_alloc) [28820; 28708]
            100 29032 ex_three _
            ltac:(vm_compute; split; [discriminate | reflexivity])
            ltac:(intros _; vm_compute; reflexivity)
            ltac:(vm_compute; reflexivity)).
  exact (reach_smalloc ex_alloc [28708] 200 28820 _ ex_alloc_reachable
           ltac:(vm_compute; split; [discriminate | reflexivity])
           ltac:(intros _; vm_compute; reflexivity)
           ltac:(vm_compute; reflexivity)).
Qed.

Lemma ex_three_freed_reachable :
  reachable ex_three_freed [29032; 28820; 28708].
Proof.
  unfold ex_three_freed.
  apply reach_sfree; [|apply list_elem_of_here].
  apply reach_sfree; [|apply list_elem_of_further, list_elem_of_here].
  apply reach_sfree; [exact ex_three_reachable|].
  apply list_elem_of_further, list_elem_of_further, list_elem_of_here.
Qed.

(** On [ex_three_freed] the free-list is 29020, 28808, 28696, with sizes
    112, 212 and 112.  A request of 150 bytes has the window 162 .. 324:
    it passes the head and takes the record in the middle. *)
Example recycle_from_the_middle :
  block_free (blk ex_three_freed 0x7000) = 29020 /\
  __use_freed_chunk (alloc_size 150) (wrap (Z.shiftl (alloc_size 150) 1))
    ex_three_freed
  = Some (28808, dequeue 0x7000 28808 ex_three_freed) /\
  let s' := after (smalloc 150 ex_three_freed) ex_three_freed in
  option_map fst (smalloc 150 ex_three_freed) = Some 28820 /\
  block_free (blk s' 0x7000) = 29020 /\
  freed_next (frd s' 29020) = 28696 /\
  freed_prev (frd s' 28696) = 29020.
Proof. vm_compute. repeat split; reflexivity. Qed.

Lemma recycle_first_fit_in_window_witness :
  reachable ex_three_freed [29032; 28820; 28708] /\
  let R := alloc_size 150 in
  let W := wrap (Z.shiftl R 1) in
  exists sh,
    block_chain ex_three_freed (__first_block ex_three_freed) (BL sh) /\
    (forall b, b ∈ BL sh ->
       free_chain ex_three_freed NULL (block_free (blk ex_three_freed b))
                  (FL sh b)) /\
    W <= 2 * R /\
    (2 * R < 2 ^ word_bits ->
     W = 2 * R /\
     forall c, in_window ex_three_freed R W c = reuse_window ex_three_freed R c) /\
    (2 ^ word_bits <= 2 * R ->
     W < R /\
     __use_freed_chunk R W ex_three_freed = Some (NULL, ex_three_freed)) /\
    (forall c s1,
       __use_freed_chunk R W ex_three_freed = Some (c, s1) ->
       c <> NULL ->
       c ∈ free_entries sh /\ R <= chunk_size (hdr ex_three_freed c) <= W) /\
    (forall c,
       find (in_window ex_three_freed R W) (free_entries sh) = Some c ->
       exists b l1 l2 s',
         b ∈ BL sh /\ FL sh b = l1 ++ c :: l2 /\
         __use_freed_chunk R W ex_three_freed
         = Some (c, dequeue b c ex_three_freed) /\
         smalloc 150 ex_three_freed = Some (c + sizeof_CHUNK, s') /\
         free_chain s' NULL (block_free (blk s' b)) (l1 ++ l2) /\
         (forall b', b' ∈ BL sh -> b' <> b ->
            free_chain s' NULL (block_free (blk s' b')) (FL sh b')) /\
         Z.land (chunk_flags (hdr s' c)) ALLOCD <> 0) /\
    (find (in_window ex_three_freed R W) (free_entries sh) = None ->
     __use_freed_chunk R W ex_three_freed = Some (NULL, ex_three_freed)).
Proof.
  split; [exact ex_three_freed_reachable|].
  exact (recycle_first_fit_in_window ex_three_freed [29032; 28820; 28708] 150
           ex_three_freed_reachable).
Defined.

Lemma growth_placement_and_exhaustion_witness :
  reachable ex_init [] /\
  growth_attempted 100 ex_init /\
  growth_in_range 100 ex_init /\
  HEAP_BOTTOM ex_init <= 0x7000 /\
  exists s1 s',
    __new_block (alloc_size 100) ex_init = (0x7000, s1) /\
    is_Some (blocks s1 !! 0x7000) /\
    smalloc 100 ex_init = Some (0x7000 + sizeof_BLOCK + sizeof_CHUNK, s') /\
    0x7000 + sizeof_BLOCK + sizeof_CHUNK <> NULL /\
    __last_block s' = 0x7000 /\
    block_size (blk s' 0x7000) = 0x1000.
Proof.
  assert (Hatt : growth_attempted 100 ex_init)
    by (split; vm_compute; reflexivity).
  assert (Hrange : growth_in_range 100 ex_init) by (vm_compute; reflexivity).
  assert (Hroom : HEAP_BOTTOM ex_init <= 0x7000) by (vm_compute; discriminate).
  split; [exact ex_init_reachable|]. split; [exact Hatt|].
  split; [exact Hrange|]. split; [exact Hroom|].
  exact (proj2 (proj2 (proj2
           (growth_placement_and_exhaustion ex_init [] 100
              ex_init_reachable Hatt Hrange))) Hroom).
Defined.

Lemma double_free_is_noop_witness :
  reachable ex_alloc [28708] /\ 28708 ∈ [28708] /\
  let c := 28708 - sizeof_CHUNK in
  let s1 := sfree 28708 ex_alloc in
  sfree 28708 s1 = s1 /\
  exists sh1 b,
    Inv s1 [28708] sh1 /\ b ∈ BL sh1 /\ chunk_block (hdr s1 c) = b /\
    free_chain s1 NULL (block_free (blk s1 b)) (FL sh1 b) /\
    count_occ Z.eq_dec (FL sh1 b) c = 1%nat.
Proof.
  assert (Hp : 28708 ∈ [28708]) by apply list_elem_of_here.
  split; [exact ex_alloc_reachable|]. split; [exact Hp|].
  exact (double_free_is_noop ex_alloc [28708] 28708 ex_alloc_reachable Hp).
Defined.


Lemma new_block_size_is_max_witness :
  reachable ex_init [] /\ 0 <= 112 /\
  Z.max (PAGESIZE ex_init) (112 + sizeof_BLOCK) < HEAP_TOP ex_init /\
  __new_block 112 ex_init = (28672, ex_grown) /\ 28672 <> NULL /\
  28672 = HEAP_TOP ex_init - Z.max (PAGESIZE ex_init) (112 + sizeof_BLOCK) /\
  block_size (blk ex_grown 28672) = Z.max (PAGESIZE ex_init) (112 + sizeof_BLOCK) /\
  PAGESIZE ex_grown <= block_size (blk ex_grown 28672).
Proof.
  assert (HR : 0 <= 112) by discriminate.
  assert (Hrange : Z.max (PAGESIZE ex_init) (112 + sizeof_BLOCK) < HEAP_TOP ex_init)
    by (vm_compute; reflexivity).
  assert (Hnb : __new_block 112 ex_init = (28672, ex_grown))
    by (vm_compute; reflexivity).
  assert (Hb : 28672 <> NULL) by discriminate.
  split; [exact ex_init_reachable|]. split; [exact HR|].
  split; [exact Hrange|]. split; [exact Hnb|]. split; [exact Hb|].
  pose proof (new_block_size_is_max ex_init [] 112 28672 ex_grown
                ex_init_reachable HR Hrange Hnb Hb) as (H1 & H2 & H3 & _).
  split; [exact H1|]. split; [exact H2 | exact H3].
Defined.

Lemma alloc_size_floor_witness :
  is_word 100 /\ 100 + sizeof_CHUNK < 2 ^ word_bits /\
  alloc_size 100 = Z.max (100 + sizeof_CHUNK) sizeof_FREED /\
  alloc_size 0 = sizeof_FREED /\
  reachable ex_init [] /\
  (growth_attempted 100 ex_init -> growth_in_range 100 ex_init) /\
  smalloc 100 ex_init = Some (28708, ex_alloc) /\ 28708 <> NULL /\
  exists sh' b, Inv ex_alloc [28708] sh' /\ b ∈ BL sh' /\
    (28708 - sizeof_CHUNK) ∈ CL sh' b /\
    alloc_size 100 <= chunk_size (hdr ex_alloc (28708 - sizeof_CHUNK)).
Proof.
  assert (Hw : is_word 100) by (vm_compute; split; [discriminate | reflexivity]).
  assert (Hrep : 100 + sizeof_CHUNK < 2 ^ word_bits) by (vm_compute; first [reflexivity | discriminate]).
  assert (Hsm : smalloc 100 ex_init = Some (28708, ex_alloc))
    by (vm_compute; reflexivity).
  assert (Hp : 28708 <> NULL) by discriminate.
  split; [exact Hw|]. split; [exact Hrep|].
  split; [exact (proj1 (proj2 (alloc_size_floor 100 Hw)) Hrep)|].
  split; [exact (proj1 (proj2 (proj2 (alloc_size_floor 100 Hw))))|].
  split; [exact ex_init_reachable|]. split; [exact ex_init_in_range|].
  split; [exact Hsm|]. split; [exact Hp|].
  exact (proj2 (proj2 (proj2 (proj2 (alloc_size_floor 100 Hw))))
           ex_init [] 28708 ex_alloc ex_init_reachable ex_init_in_range Hsm Hp).
Defined.

Lemma smalloc_init_guard_witness :
  is_word 0x8000 /\ is_word 0x1000 /\ is_word 0x6000 /\
  ~ (0x6000 > 0x8000 \/ 0x8000 - 0x6000 < 0x1000) /\
  (let s' := __smalloc_init 0x8000 0x1000 0x6000 ex_alloc in
   HEAP_TOP s' = 0x8000 /\ HEAP_BOTTOM s' = 0x6000 /\ PAGESIZE s' = 0x1000 /\
   __first_block s' = NULL /\ __last_block s' = NULL /\
   blocks s' = blocks ex_alloc /\ chunks s' = chunks ex_alloc) /\
  is_word 0x6000 /\ is_word 0x1000 /\ is_word 0x8000 /\
  (0x8000 > 0x6000 \/ 0x6000 - 0x8000 < 0x1000) /\
  __smalloc_init 0x6000 0x1000 0x8000 ex_alloc = ex_alloc.
Proof.
  assert (H8 : is_word 0x8000) by (vm_compute; split; [discriminate | reflexivity]).
  assert (H1 : is_word 0x1000) by (vm_compute; split; [discriminate | reflexivity]).
  assert (H6 : is_word 0x6000) by (vm_compute; split; [discriminate | reflexivity]).
  assert (Hok : ~ (0x6000 > 0x8000 \/ 0x8000 - 0x6000 < 0x1000)) by lia.
  assert (Hbad : 0x8000 > 0x6000 \/ 0x6000 - 0x8000 < 0x1000) by lia.
  split; [exact H8|]. split; [exact H1|]. split; [exact H6|].
  split; [exact Hok|].
  split; [exact (proj2 (smalloc_init_guard 0x8000 0x1000 0x6000 ex_alloc H8 H1 H6) Hok)|].
  split; [exact H6|]. split; [exact H1|]. split; [exact H8|].
  split; [exact Hbad|].
  exact (proj1 (smalloc_init_guard 0x6000 0x1000 0x8000 ex_alloc H6 H1 H8) Hbad).
Defined.

Lemma smalloc_used_counts_headers_witness :
  reachable ex_alloc [28708] /\
  exists sh,
    block_chain ex_alloc (__first_block ex_alloc) (BL sh) /\
    (forall b, b ∈ BL sh ->
       carved ex_alloc b (b + sizeof_BLOCK) (CL sh b) (block_top (blk ex_alloc b))) /\
    __smalloc_used ex_alloc
    = Some (sum_block_sizes ex_alloc (BL sh),
            wrap_ushort (Z.of_nat (length (BL sh))),
            carved_bytes ex_alloc sh + Z.of_nat (length (BL sh)) * sizeof_BLOCK) /\
    sum_block_sizes ex_alloc (BL sh)
    = Z.of_nat (length (BL sh)) * sizeof_BLOCK + carved_bytes ex_alloc sh
      + sum_remaining ex_alloc (BL sh).
Proof.
  split; [exact ex_alloc_reachable|].
  exact (smalloc_used_counts_headers ex_alloc [28708] ex_alloc_reachable).
Defined.

Lemma recycling_keeps_chunk_size_witness :
  reachable ex_freed [28708] /\
  (growth_attempted 100 ex_freed -> growth_in_range 100 ex_freed) /\
  __use_freed_chunk (alloc_size 100) (wrap (Z.shiftl (alloc_size 100) 1)) ex_freed
    = Some (28696, dequeue 28672 28696 ex_freed) /\
  28696 <> NULL /\
  let p := 28696 + sizeof_CHUNK in
  exists s',
    smalloc 100 ex_freed = Some (p, s') /\
    alloc_size 100 <= chunk_size (hdr ex_freed 28696) /\
    chunk_size (hdr s' 28696) = chunk_size (hdr ex_freed 28696) /\
    let s'' := sfree p s' in
    chunk_size (hdr s'' 28696) = chunk_size (hdr ex_freed 28696) /\
    exists sh'' b rest unallocdHeap inBlocks,
      Inv s'' (p :: [28708]) sh'' /\ b ∈ BL sh'' /\ FL sh'' b = 28696 :: rest /\
      28696 ∈ free_entries sh'' /\
      __smalloc_avail s''
      = Some (unallocdHeap, inBlocks, sum_chunk_sizes s'' (free_entries sh'')).
Proof.
  assert (Huse : __use_freed_chunk (alloc_size 100)
                   (wrap (Z.shiftl (alloc_size 100) 1)) ex_freed
                 = Some (28696, dequeue 28672 28696 ex_freed))
    by (vm_compute; reflexivity).
  assert (Hc : 28696 <> NULL) by discriminate.
  split; [exact ex_freed_reachable|]. split; [exact ex_freed_in_range|].
  split; [exact Huse|]. split; [exact Hc|].
  exact (recycling_keeps_chunk_size ex_freed [28708] 100 28696 _
           ex_freed_reachable ex_freed_in_range Huse Hc).
Defined.

Lemma memcpy_returns_dst_and_copies_count_witness :
  is_word 16 /\ is_word 32 /\ is_word 4 /\
  16 <> NULL /\ 32 <> NULL /\
  16 + 4 <= 2 ^ word_bits /\ 32 + 4 <= 2 ^ word_bits /\
  (exists m',
     memcpy 16 32 4 ex_memory = Some (16, m') /\
     m' = copy_ascending (Z.to_nat 4) 16 32 ex_memory /\
     (forall a, ~ (16 <= a < 16 + 4) -> m' a = ex_memory a) /\
     (32 + 4 <= 16 \/ 16 <= 32 ->
      forall i, 0 <= i < 4 -> m' (16 + i) = ex_memory (32 + i))) /\
  is_word 0 /\ (0 = NULL \/ 32 = NULL) /\
  memcpy 0 32 4 ex_memory = Some (0, ex_memory).
Proof.
  assert (H16 : is_word 16) by (vm_compute; split; [discriminate | reflexivity]).
  assert (H32 : is_word 32) by (vm_compute; split; [discriminate | reflexivity]).
  assert (H4 : is_word 4) by (vm_compute; split; [discriminate | reflexivity]).
  assert (H0 : is_word 0) by (vm_compute; split; [discriminate | reflexivity]).
  assert (Hd : 16 <> NULL) by discriminate.
  assert (Hs : 32 <> NULL) by discriminate.
  assert (Hdr : 16 + 4 <= 2 ^ word_bits) by (vm_compute; first [reflexivity | discriminate]).
  assert (Hsr : 32 + 4 <= 2 ^ word_bits) by (vm_compute; first [reflexivity | discriminate]).
  assert (Hnull : 0 = NULL \/ 32 = NULL) by (left; reflexivity).
  split; [exact H16|]. split; [exact H32|]. split; [exact H4|].
  split; [exact Hd|]. split; [exact Hs|]. split; [exact Hdr|]. split; [exact Hsr|].
  split.
  - exact (proj2 (memcpy_returns_dst_and_copies_count 16 32 4 ex_memory H16 H32 H4)
             Hd Hs Hdr Hsr).
  - split; [exact H0|]. split; [exact Hnull|].
    exact (proj1 (memcpy_returns_dst_and_copies_count 0 32 4 ex_memory H0 H32 H4)
             Hnull).
Defined.

(** C2 as the specification words it fails twice.  On [ex_tight] the
    first block would start exactly at the bottom boundary ("at or below"
    it), and [smalloc] creates it and returns [0x7024].  On [ex_roomy]
    the lowest block is at [0x7000] and the second block, of size
    [0x1000], is put at [0x5fe8], not at [0x6000]. *)
Lemma growth_at_or_below_bottom_counterexample :
  ~ (forall s P n,
       reachable s P -> growth_attempted n s -> growth_in_range n s ->
       spec_new_block_address (alloc_size n) s <= HEAP_BOTTOM s ->
       smalloc n s = Some (NULL, s)) /\
  ~ (forall s P n,
       reachable s P -> growth_attempted n s -> growth_in_range n s ->
       HEAP_BOTTOM s < spec_new_block_address (alloc_size n) s ->
       fst (__new_block (alloc_size n) s)
       = spec_new_block_address (alloc_size n) s).
Proof.
  split.
  - intros Hclaim.
    assert (Hr : reachable ex_tight []).
    { exact (reach_init ex_boot [] 0x8000 0x1000 0x7000 (reach_boot ∅ ∅)
               ltac:(vm_compute; split; [discriminate | reflexivity]) ltac:(vm_compute; split; [discriminate | reflexivity])
               ltac:(vm_compute; split; [discriminate | reflexivity])). }
    specialize (Hclaim ex_tight [] 100 Hr
                  ltac:(split; vm_compute; reflexivity)
                  ltac:(vm_compute; reflexivity)
                  ltac:(vm_compute; discriminate)).
    vm_compute in Hclaim. discriminate Hclaim.
  - intros Hclaim.
    assert (Hr : reachable ex_roomy [28708]).
    { refine (reach_smalloc (__smalloc_init 0x8000 0x1000 0x4000 ex_boot) []
                100 28708 ex_roomy _ ltac:(vm_compute; split; [discriminate | reflexivity])
                ltac:(intros _; vm_compute; reflexivity)
                ltac:(vm_compute; reflexivity)).
      exact (reach_init ex_boot [] 0x8000 0x1000 0x4000 (reach_boot ∅ ∅)
               ltac:(vm_compute; split; [discriminate | reflexivity]) ltac:(vm_compute; split; [discriminate | reflexivity])
               ltac:(vm_compute; split; [discriminate | reflexivity])). }
    specialize (Hclaim ex_roomy [28708] 4000 Hr
                  ltac:(split; vm_compute; reflexivity)
                  ltac:(vm_compute; reflexivity)
                  ltac:(vm_compute; reflexivity)).
    vm_compute in Hclaim. discriminate Hclaim.
Qed.

(** C8 as the specification words it fails on any heap with a block:
    [inBlocks] is not the bytes carved into chunks.  On [ex_alloc] the one
    chunk has 112 bytes and [inBlocks] is 136. *)
Lemma used_inBlocks_is_not_the_carved_bytes :
  ~ (forall s P sh,
       reachable s P -> Inv s P sh ->
       exists total numBlocks,
         __smalloc_used s = Some (total, numBlocks, carved_bytes s sh)).
Proof.
  intros Hclaim.
  destruct (reachable_inv ex_alloc [28708] ex_alloc_reachable) as [sh H].
  destruct (Hclaim ex_alloc [28708] sh ex_alloc_reachable H) as (t & nb & Hu).
  rewrite (smalloc_used_spec _ _ _ H) in Hu. injection Hu as _ _ Hu.
  pose proof (inv_chain _ _ _ H) as Hc.
  destruct (BL sh) as [|b l].
  - cbn in Hc. vm_compute in Hc. discriminate Hc.
  - cbn [length] in Hu. pose proof (@sizeof_BLOCK_pos ILP32). nia.
Qed.

(** Outside [growth_in_range] the arithmetic of [__new_block] wraps.  With
    the built-in boundaries, a request of [0x80000] bytes is larger than
    the address of the heap top: [start - size] wraps past zero to
    [0xffffffdb], which is not below the bottom boundary, and [smalloc]
    returns a pointer above the heap instead of [NULL]. *)
Example growth_out_of_range_wraps :
  ~ growth_in_range 0x80000 ex_boot /\
  fst (__new_block (alloc_size 0x80000) ex_boot) = 0xffffffdb /\
  option_map fst (smalloc 0x80000 ex_boot) = Some 0xffffffff.
Proof.
  split; [|split].
  - vm_compute. discriminate.
  - vm_compute. reflexivity.
  - vm_compute. reflexivity.
Qed.

(** The [unsigned long] sums of the request path wrap as well: the
    largest request is served from a chunk of the minimum size. *)
Example alloc_size_wraps : alloc_size (2 ^ 32 - 1) = sizeof_FREED.
Proof. vm_compute. reflexivity. Qed.

(** C1 as the specification words it fails for a request of half the
    address space or more.  On [ex_huge_freed] the only free-list entry
    has size [0x9000000c]; a request of [0x90000000] bytes computes that
    very size, so the entry lies in [R <= S <= 2R], yet the doubled size
    wraps around to [0x20000018] and the recycle step returns [NULL]. *)
Lemma ex_huge_freed_reachable : reachable ex_huge_freed [1879048176].
Proof.
  apply reach_sfree; [|apply list_elem_of_here].
  refine (reach_smalloc ex_huge_init [] 0x90000000 1879048176 ex_huge_alloc _
            ltac:(vm_compute; split; [discriminate | reflexivity])
            ltac:(intros _; vm_compute; reflexivity)
            ltac:(vm_compute; reflexivity)).
  exact (reach_init ex_boot [] 0xfffffff0 0x1000 0x10 (reach_boot ∅ ∅)
           ltac:(vm_compute; split; [discriminate | reflexivity])
           ltac:(vm_compute; split; [discriminate | reflexivity])
           ltac:(vm_compute; split; [discriminate | reflexivity])).
Qed.

Lemma recycle_window_wraps_counterexample :
  ~ (forall s P n,
       reachable s P -> is_word n ->
       let R := alloc_size n in
       let c := block_free (blk s (__first_block s)) in
       __first_block s <> NULL -> c <> NULL ->
       R <= chunk_size (hdr s c) <= 2 * R ->
       exists s',
         __use_freed_chunk R (wrap (Z.shiftl R 1)) s = Some (c, s')).
Proof.
  intros Hclaim.
  destruct (Hclaim ex_huge_freed [1879048176] 0x90000000
              ex_huge_freed_reachable
              ltac:(vm_compute; split; [discriminate | reflexivity])
              ltac:(vm_compute; discriminate)
              ltac:(vm_compute; discriminate)
              ltac:(vm_compute; split; discriminate)) as [s' Hs'].
  vm_compute in Hs'. discriminate Hs'.
Qed.




(** C5 as the specification words it fails when the sum of the chunk
    size and the block header is not representable: for a chunk size of
    [2^32 - 10] the sum wraps around to 14, and the block made on
    [ex_init] has the minimum size, 4096, not the larger of the two. *)
Lemma block_smaller_than_request_counterexample :
  ~ (forall s R b s',
       is_word R -> __new_block R s = (b, s') -> b <> NULL ->
       block_size (blk s' b) = Z.max (PAGESIZE s) (R + sizeof_BLOCK)).
Proof.
  intros Hclaim.
  specialize (Hclaim ex_init (2 ^ 32 - 10) 28672
                (snd (__new_block (2 ^ 32 - 10) ex_init))
                ltac:(vm_compute; split; [discriminate | reflexivity])
                ltac:(vm_compute; reflexivity)
                ltac:(discriminate)).
  vm_compute in Hclaim. discriminate Hclaim.
Qed.

(** The end of the test program: a chunk of 1025 bytes is freed twice,
    the next request of that size gets the same address, and the one
    after that a different address. *)
Example test_program_double_free :
  let s1 := after (smalloc 1025 ex_init) ex_init in
  let s2 := sfree 28708 (sfree 28708 s1) in
  let s3 := after (smalloc 1025 s2) s2 in
  option_map fst (smalloc 1025 ex_init) = Some 28708 /\
  s2 = sfree 28708 s1 /\
  option_map fst (smalloc 1025 s2) = Some 28708 /\
  option_map fst (smalloc 1025 s3) = Some 29745.
Proof. vm_compute. repeat split; reflexivity. Qed.

(** * The further properties on example heaps *)

Lemma ex_alloc_live : allocated ex_alloc 28708.
Proof. vm_compute. discriminate. Qed.


Lemma memcpy_overlap_above_repeats_prefix_witness :
  0 < 0x100 /\ 0x100 < 0x102 /\ 0 <= 6 /\ 0x102 + 6 <= 2 ^ word_bits /\
  exists m',
    memcpy 0x102 0x100 6 ex_memory = Some (0x102, m') /\
    forall i, 0 <= i < 6 ->
      m' (0x102 + i) = ex_memory (0x100 + i mod (0x102 - 0x100)).
Proof.
  assert (H1 : 0 < 0x100) by reflexivity.
  assert (H2 : 0x100 < 0x102) by reflexivity.
  assert (H3 : 0 <= 6) by discriminate.
  assert (H4 : 0x102 + 6 <= 2 ^ word_bits) by (vm_compute; discriminate).
  split; [exact H1|]. split; [exact H2|]. split; [exact H3|]. split; [exact H4|].
  exact (memcpy_overlap_above_repeats_prefix 0x102 0x100 6 ex_memory H1 H2 H3 H4).
Defined.

Lemma memcpy_in_two_parts_witness :
  0 < 0x200 /\ 0 < 0x100 /\ 0 <= 2 /\ 0 <= 3 /\
  0x200 + 2 + 3 <= 2 ^ word_bits /\ 0x100 + 2 + 3 <= 2 ^ word_bits /\
  memcpy 0x200 0x100 2 ex_memory = Some (0x200, ex_copied_two) /\
  memcpy (0x200 + 2) (0x100 + 2) 3 ex_copied_two
  = Some (0x200 + 2, ex_copied_five) /\
  memcpy 0x200 0x100 (2 + 3) ex_memory = Some (0x200, ex_copied_five).
Proof.
  assert (H1 : 0 < 0x200) by reflexivity.
  assert (H2 : 0 < 0x100) by reflexivity.
  assert (H3 : 0 <= 2) by discriminate.
  assert (H4 : 0 <= 3) by discriminate.
  assert (H5 : 0x200 + 2 + 3 <= 2 ^ word_bits) by (vm_compute; discriminate).
  assert (H6 : 0x100 + 2 + 3 <= 2 ^ word_bits) by (vm_compute; discriminate).
  assert (H7 : memcpy 0x200 0x100 2 ex_memory = Some (0x200, ex_copied_two))
    by reflexivity.
  assert (H8 : memcpy (0x200 + 2) (0x100 + 2) 3 ex_copied_two
               = Some (0x200 + 2, ex_copied_five)) by reflexivity.
  split; [exact H1|]. split; [exact H2|]. split; [exact H3|]. split; [exact H4|].
  split; [exact H5|]. split; [exact H6|]. split; [exact H7|]. split; [exact H8|].
  exact (memcpy_in_two_parts 0x200 0x100 2 3 ex_memory ex_copied_two
           ex_copied_five H1 H2 H3 H4 H5 H6 H7 H8).
Defined.

Lemma smalloc_init_in_header_order_is_rejected_witness :
  is_word 0x6000 /\ is_word 0x8000 /\ is_word 0x1000 /\ 0x6000 < 0x8000 /\
  __smalloc_init 0x6000 0x8000 0x1000 ex_boot = ex_boot.
Proof.
  assert (H6 : is_word 0x6000) by (vm_compute; split; [discriminate | reflexivity]).
  assert (H8 : is_word 0x8000) by (vm_compute; split; [discriminate | reflexivity]).
  assert (H1 : is_word 0x1000) by (vm_compute; split; [discriminate | reflexivity]).
  assert (Hlt : 0x6000 < 0x8000) by reflexivity.
  split; [exact H6|]. split; [exact H8|]. split; [exact H1|]. split; [exact Hlt|].
  exact (smalloc_init_in_header_order_is_rejected 0x6000 0x8000 0x1000 ex_boot
           H6 H8 H1 Hlt).
Defined.

Lemma first_allocation_after_init_witness :
  is_word 0x8000 /\ is_word 0x1000 /\ is_word 0x6000 /\
  0x6000 <= 0x8000 /\ 0x1000 <= 0x8000 - 0x6000 /\
  Z.max 0x1000 (alloc_size 100 + sizeof_BLOCK) < 0x8000 /\
  0x6000 <= 0x8000 - Z.max 0x1000 (alloc_size 100 + sizeof_BLOCK) /\
  let s0 := __smalloc_init 0x8000 0x1000 0x6000 ex_alloc in
  let R := alloc_size 100 in
  let Z := Z.max 0x1000 (R + sizeof_BLOCK) in
  exists s',
    smalloc 100 s0 = Some (0x8000 - Z + sizeof_BLOCK + sizeof_CHUNK, s') /\
    __smalloc_first_block s' = 0x8000 - Z /\
    debug_out s'
    = Some (mkDebug Z 1 (sizeof_BLOCK + R) (0x8000 - Z - 0x6000)
                    (Z - sizeof_BLOCK - R) 0).
Proof.
  assert (H8 : is_word 0x8000) by (vm_compute; split; [discriminate | reflexivity]).
  assert (H1 : is_word 0x1000) by (vm_compute; split; [discriminate | reflexivity]).
  assert (H6 : is_word 0x6000) by (vm_compute; split; [discriminate | reflexivity]).
  assert (Hbt : 0x6000 <= 0x8000) by discriminate.
  assert (Hsp : 0x1000 <= 0x8000 - 0x6000) by discriminate.
  assert (HZ : Z.max 0x1000 (alloc_size 100 + sizeof_BLOCK) < 0x8000)
    by (vm_compute; reflexivity).
  assert (Hroom : 0x6000 <= 0x8000 - Z.max 0x1000 (alloc_size 100 + sizeof_BLOCK))
    by (vm_compute; discriminate).
  split; [exact H8|]. split; [exact H1|]. split; [exact H6|].
  split; [exact Hbt|]. split; [exact Hsp|]. split; [exact HZ|].
  split; [exact Hroom|].
  exact (proj2 (proj2 (first_allocation_after_init ex_alloc 0x8000 0x1000 0x6000
                         100 H8 H1 H6 Hbt Hsp HZ)) Hroom).
Defined.

Lemma debug_out_accounts_for_the_heap_witness :
  reachable ex_freed [28708] /\
  exists d sh,
    debug_out ex_freed = Some d /\
    block_chain ex_freed (__first_block ex_freed) (BL sh) /\
    let N := Z.of_nat (length (BL sh)) in
    out_blocks d = wrap_ushort N /\
    out_used d + out_inBlocks d = out_total d /\
    0 <= out_inFree d <= out_used d - N * sizeof_BLOCK /\
    0 <= out_inBlocks d /\
    0 <= out_unallocd d /\
    out_unallocd d + out_total d + Z.max 0 (N - 1) * sizeof_BLOCK
    = HEAP_TOP ex_freed - HEAP_BOTTOM ex_freed.
Proof.
  split; [exact ex_freed_reachable|].
  exact (debug_out_accounts_for_the_heap ex_freed [28708] ex_freed_reachable).
Defined.

Lemma blocks_form_a_descending_doubly_linked_list_witness :
  reachable ex_alloc [28708] /\
  exists sh,
    block_chain ex_alloc (__smalloc_first_block ex_alloc) (BL sh) /\
    prev_chain ex_alloc NULL (BL sh) /\
    __last_block ex_alloc = List.last (BL sh) NULL /\
    tight ex_alloc (HEAP_TOP ex_alloc) (BL sh) /\
    (forall b, b ∈ BL sh ->
       HEAP_BOTTOM ex_alloc <= b /\ PAGESIZE ex_alloc <= block_size (blk ex_alloc b) /\
       sizeof_BLOCK <= block_size (blk ex_alloc b)) /\
    (__smalloc_first_block ex_alloc = NULL <-> BL sh = []) /\
    (__smalloc_first_block ex_alloc <> NULL ->
     __smalloc_first_block ex_alloc
       + block_size (blk ex_alloc (__smalloc_first_block ex_alloc))
     = HEAP_TOP ex_alloc /\
     block_prev (blk ex_alloc (__smalloc_first_block ex_alloc)) = NULL /\
     block_next (blk ex_alloc (__last_block ex_alloc)) = NULL /\
     HEAP_BOTTOM ex_alloc <= __last_block ex_alloc <= __smalloc_first_block ex_alloc).
Proof.
  split; [exact ex_alloc_reachable|].
  exact (blocks_form_a_descending_doubly_linked_list ex_alloc [28708]
           ex_alloc_reachable).
Defined.

Lemma print_heap_lists_blocks_and_chunks_witness :
  reachable ex_freed [28708] /\
  exists sh,
    print_heap ex_freed = Some (heap_lines ex_freed sh) /\
    block_chain ex_freed (__first_block ex_freed) (BL sh) /\
    forall b, b ∈ BL sh ->
      carved ex_freed b (b + sizeof_BLOCK) (CL sh b) (block_top (blk ex_freed b)) /\
      NoDup (CL sh b) /\
      sum_chunk_sizes ex_freed (CL sh b)
      = block_size (blk ex_freed b) - sizeof_BLOCK
        - block_remaining (blk ex_freed b).
Proof.
  split; [exact ex_freed_reachable|].
  exact (print_heap_lists_blocks_and_chunks ex_freed [28708] ex_freed_reachable).
Defined.

(** What [print_heap] and [debug_out] print after the 100 bytes have
    been allocated and freed. *)
Example diagnostics_on_example :
  print_heap ex_freed
  = Some [first_block_line 0x7000; block_line 0x7000 4096 3960;
          top_free_line 0x7088 0x7018; start_line 0x7018;
          chunk_line 0x7018 112] /\
  debug_out ex_freed = Some (mkDebug 4096 1 136 4096 3960 112).
Proof. split; vm_compute; reflexivity. Qed.

Lemma request_near_the_word_limit_is_served_as_zero_witness :
  is_word 4294967295 /\ 2 ^ word_bits - sizeof_CHUNK <= 4294967295 /\
  alloc_size 4294967295 = sizeof_FREED /\
  alloc_size 4294967295 < 4294967295 + sizeof_CHUNK /\
  smalloc 4294967295 ex_init = smalloc 0 ex_init.
Proof.
  assert (H1 : is_word 4294967295)
    by (vm_compute; split; [discriminate | reflexivity]).
  assert (H2 : 2 ^ word_bits - sizeof_CHUNK <= 4294967295)
    by (vm_compute; discriminate).
  split; [exact H1|]. split; [exact H2|].
  exact (request_near_the_word_limit_is_served_as_zero 4294967295 ex_init H1 H2).
Defined.

Lemma new_block_above_its_start_when_size_exceeds_it_witness :
  __first_block ex_boot = NULL /\ __last_block ex_boot = NULL /\
  is_word (PAGESIZE ex_boot) /\ is_word (HEAP_TOP ex_boot) /\
  HEAP_BOTTOM ex_boot <= HEAP_TOP ex_boot /\
  HEAP_TOP ex_boot + sizeof_BLOCK <= new_block_size 0x80000 ex_boot /\
  let b := HEAP_TOP ex_boot - new_block_size 0x80000 ex_boot + 2 ^ word_bits in
  b = 4294967271 /\
  fst (__new_block 0x80000 ex_boot) = b /\
  HEAP_TOP ex_boot < b /\ b + sizeof_BLOCK <= 2 ^ word_bits /\ b <> NULL /\
  __first_block (snd (__new_block 0x80000 ex_boot)) = b /\
  __last_block (snd (__new_block 0x80000 ex_boot)) = b /\
  block_size (blk (snd (__new_block 0x80000 ex_boot)) b)
  = new_block_size 0x80000 ex_boot.
Proof.
  assert (H1 : is_word (PAGESIZE ex_boot))
    by (vm_compute; split; [discriminate | reflexivity]).
  assert (H2 : is_word (HEAP_TOP ex_boot))
    by (vm_compute; split; [discriminate | reflexivity]).
  assert (H3 : HEAP_BOTTOM ex_boot <= HEAP_TOP ex_boot)
    by (vm_compute; discriminate).
  assert (H4 : HEAP_TOP ex_boot + sizeof_BLOCK <= new_block_size 0x80000 ex_boot)
    by (vm_compute; discriminate).
  split; [reflexivity|]. split; [reflexivity|].
  split; [exact H1|]. split; [exact H2|]. split; [exact H3|]. split; [exact H4|].
  split; [reflexivity|].
  exact (new_block_above_its_start_when_size_exceeds_it 0x80000 ex_boot
           eq_refl eq_refl H1 H2 H3 H4).
Defined.

Lemma smalloc_carves_from_first_block_with_room_witness :
  reachable ex_alloc [28708] /\
  __use_freed_chunk (alloc_size 50) (wrap (Z.shiftl (alloc_size 50) 1)) ex_alloc
    = Some (NULL, ex_alloc) /\
  __block_with_free_space (alloc_size 50) ex_alloc = Some 0x7000 /\
  0x7000 <> NULL /\
  let R := alloc_size 50 in
  let t := block_top (blk ex_alloc 0x7000) in
  exists s' sh before rest,
    smalloc 50 ex_alloc = Some (t + sizeof_CHUNK, s') /\
    block_chain ex_alloc (__first_block ex_alloc) (BL sh) /\
    BL sh = before ++ 0x7000 :: rest /\
    (forall x, x ∈ before -> block_remaining (blk ex_alloc x) < R) /\
    R <= block_remaining (blk ex_alloc 0x7000) /\
    hdr s' t = mkCHUNK 0x7000 R ALLOCD /\
    block_top (blk s' 0x7000) = t + R /\
    block_remaining (blk s' 0x7000) = block_remaining (blk ex_alloc 0x7000) - R /\
    (forall x, x <> 0x7000 -> blk s' x = blk ex_alloc x) /\
    (forall x, x <> t -> hdr s' x = hdr ex_alloc x) /\
    __first_block s' = __first_block ex_alloc /\
    __last_block s' = __last_block ex_alloc.
Proof.
  assert (Huse : __use_freed_chunk (alloc_size 50)
                   (wrap (Z.shiftl (alloc_size 50) 1)) ex_alloc
                 = Some (NULL, ex_alloc)) by (vm_compute; reflexivity).
  assert (Hspace : __block_with_free_space (alloc_size 50) ex_alloc = Some 0x7000)
    by (vm_compute; reflexivity).
  assert (Hb : 0x7000 <> NULL) by discriminate.
  split; [exact ex_alloc_reachable|]. split; [exact Huse|].
  split; [exact Hspace|]. split; [exact Hb|].
  exact (smalloc_carves_from_first_block_with_room ex_alloc [28708] 50 0x7000
           ex_alloc_reachable Huse Hspace Hb).
Defined.



Lemma sfree_moves_the_chunk_to_the_free_list_witness :
  reachable ex_alloc [28708] /\ 28708 ∈ [28708] /\ allocated ex_alloc 28708 /\
  let c := 28708 - sizeof_CHUNK in
  let s' := sfree 28708 ex_alloc in
  same_layout ex_alloc s' /\
  (forall x, x <> c -> hdr s' x = hdr ex_alloc x) /\
  ~ allocated s' 28708 /\
  block_free (blk s' (chunk_block (hdr ex_alloc c))) = c /\
  freed_prev (frd s' c) = NULL /\
  freed_next (frd s' c) = block_free (blk ex_alloc (chunk_block (hdr ex_alloc c))) /\
  __smalloc_used s' = __smalloc_used ex_alloc /\
  exists unallocd inBlocks inFree,
    __smalloc_avail ex_alloc = Some (unallocd, inBlocks, inFree) /\
    __smalloc_avail s'
    = Some (unallocd, inBlocks, inFree + chunk_size (hdr ex_alloc c)).
Proof.
  assert (Hp : 28708 ∈ [28708]) by apply list_elem_of_here.
  split; [exact ex_alloc_reachable|]. split; [exact Hp|].
  split; [exact ex_alloc_live|].
  exact (sfree_moves_the_chunk_to_the_free_list ex_alloc [28708] 28708
           ex_alloc_reachable Hp ex_alloc_live).
Defined.


Lemma freed_chunk_serves_the_next_fitting_request_witness :
  reachable ex_alloc [28708] /\ 28708 ∈ [28708] /\ allocated ex_alloc 28708 /\
  alloc_size 100 <= chunk_size (hdr ex_alloc (28708 - sizeof_CHUNK))
    <= 2 * alloc_size 100 /\
  2 * alloc_size 100 < 2 ^ word_bits /\
  exists q s2,
    smalloc 100 (sfree 28708 ex_alloc) = Some (q, s2) /\ q <> NULL /\
    same_layout ex_alloc s2 /\
    __smalloc_used s2 = __smalloc_used ex_alloc /\
    (__use_freed_chunk (alloc_size 100) (wrap (Z.shiftl (alloc_size 100) 1))
       ex_alloc = Some (NULL, ex_alloc) -> q = 28708).
Proof.
  assert (Hp : 28708 ∈ [28708]) by apply list_elem_of_here.
  assert (HS : alloc_size 100 <= chunk_size (hdr ex_alloc (28708 - sizeof_CHUNK))
               <= 2 * alloc_size 100) by (vm_compute; split; discriminate).
  assert (H2 : 2 * alloc_size 100 < 2 ^ word_bits) by (vm_compute; reflexivity).
  split; [exact ex_alloc_reachable|]. split; [exact Hp|].
  split; [exact ex_alloc_live|]. split; [exact HS|]. split; [exact H2|].
  exact (freed_chunk_serves_the_next_fitting_request ex_alloc [28708] 100 28708
           ex_alloc_reachable Hp ex_alloc_live HS H2).
Defined.

Lemma allocate_free_allocate_returns_the_same_pointer_witness :
  reachable ex_init [] /\
  (growth_attempted 100 ex_init -> growth_in_range 100 ex_init) /\
  smalloc 100 ex_init = Some (28708, ex_alloc) /\ 28708 <> NULL /\
  2 * alloc_size 100 < 2 ^ word_bits /\
  sfree 28708 (sfree 28708 ex_alloc) = sfree 28708 ex_alloc /\
  exists s3,
    smalloc 100 (sfree 28708 ex_alloc) = Some (28708, s3) /\
    same_layout ex_alloc s3 /\
    __smalloc_used s3 = __smalloc_used ex_alloc.
Proof.
  assert (Hsm : smalloc 100 ex_init = Some (28708, ex_alloc))
    by (vm_compute; reflexivity).
  assert (Hp : 28708 <> NULL) by discriminate.
  assert (H2 : 2 * alloc_size 100 < 2 ^ word_bits) by (vm_compute; reflexivity).
  split; [exact ex_init_reachable|]. split; [exact ex_init_in_range|].
  split; [exact Hsm|]. split; [exact Hp|]. split; [exact H2|].
  exact (allocate_free_allocate_returns_the_same_pointer ex_init [] 100 28708
           ex_alloc ex_init_reachable ex_init_in_range Hsm Hp H2).
Defined.

(** A chunk of half the address space or more is never recycled: the
    doubled size wraps around and the window is empty.  Here a chunk of
    [0x9000000c] bytes is freed, and the same request again finds nothing
    to recycle. *)
Example huge_chunk_is_not_recycled :
  let s0 := __smalloc_init 0xfffffff0 0x1000 0x10 ex_boot in
  let s1 := after (smalloc 0x90000000 s0) s0 in
  let s2 := sfree 1879048176 s1 in
  option_map fst (smalloc 0x90000000 s0) = Some 1879048176 /\
  __smalloc_avail s2 = Some (1879048124, 0, 0x9000000c) /\
  __use_freed_chunk (alloc_size 0x90000000)
    (wrap (Z.shiftl (alloc_size 0x90000000) 1)) s2 = Some (NULL, s2).
Proof. vm_compute. repeat split; reflexivity. Qed.

